(** * Resonara: the acoustic measurement and analysis engine

    A shallow embedding of the DSP modules of the repository
    (fftAnalyser, compatibilityScorer, intentionMapper,
    transientDetector, overtoneDetector, rt60, sweepGenerator,
    noiseFloor, noteMapper) and of the room score of DiscoveryStepper,
    followed by the properties stated about them.

    Number model.  A JavaScript number is modelled by an exact number.
    - fftAnalyser, compatibilityScorer, intentionMapper,
      transientDetector and overtoneDetector compute with rationals
      ([Q]), so their embeddings run.  The two places where they call
      [Math.pow(10, x)] only compare or multiply the powers; there the
      power is kept as its exponent ([JsQ.gt_pow10],
      [OvertoneDetector.pow10]), and [PowerFacts] proves that this
      agrees with the real power.
    - rt60, sweepGenerator, noiseFloor, noteMapper and the room score
      take logarithms, roots or sines and are embedded over the reals
      ([R]).
    Rounding.  Where the code floors a product to count samples
    ([minIntervalSamples], [extractImpulseResponse]) the product is
    rounded to double precision as the code does ([JsQ.fmul]).
    Elsewhere the rounding of IEEE doubles and of [Float32Array] storage
    is not modelled; the properties proved about such values either do
    not depend on the values computed (they hold for what the arrays
    hold, whatever it is) or leave room for the rounding.
    Special values.  [-Infinity], which the code produces on purpose
    ([Math.log10(0)], an empty band), is modelled explicitly where it
    can arise, and so is the [NaN] that [bandEnergy] returns when it
    reads outside its array; otherwise [NaN] and [+Infinity] are not
    modelled, and the properties are stated for the inputs on which they
    do not arise. *)

From Stdlib Require Import ZArith QArith Qround Qabs Qminmax Qpower Qreals.
From Stdlib Require Import Reals Lia Psatz List Bool Permutation Sorted.
From Stdlib Require String DecimalString Ascii.
Import ListNotations.

(* ================================================================== *)
(** * JavaScript [Math] on rationals *)
(* ================================================================== *)

Module JsQ.
Local Open Scope Q_scope.

(** [Math.round]: nearest integer, halves go up. *)
Definition round (x : Q) : Z := Qfloor (x + (1#2)).

(** [Math.floor] and [Math.ceil]. *)
Definition floor (x : Q) : Z := Qfloor x.
Definition ceil (x : Q) : Z := Qceiling x.

(** The strict comparison [x < y] as a boolean. *)
Definition ltb (x y : Q) : bool := negb (Qle_bool y x).
Definition leb (x y : Q) : bool := Qle_bool x y.

(** Round to the nearest integer, a tie to the even one. *)
Definition roundToEven (m : Q) : Z :=
  let f := Qfloor m in
  let r := m - inject_Z f in
  if ltb r (1 # 2) then f
  else if ltb (1 # 2) r then (f + 1)%Z
  else if Z.even f then f else (f + 1)%Z.

(** The IEEE 754 binary64 number nearest to [x], ties to even: with 53
    significant bits when [|x| >= 2^-1022], a multiple of [2^-1074]
    below.  Overflow to [Infinity] is not modelled. *)
Definition double (x : Q) : Q :=
  if Qeq_bool x 0 then 0
  else
    let a := Qabs x in
    let e0 := (Z.log2 (Qnum a) - Z.log2 (Zpos (Qden a)))%Z in
    let e := if ltb a (Qpower 2 e0) then (e0 - 1)%Z else e0 in
    let q := Z.max (e - 52) (-1074) in
    let m := roundToEven (a / Qpower 2 q) in
    (if ltb x 0 then -1 else 1) * inject_Z m * Qpower 2 q.

(** [x * y] on JS numbers: the operands are binary64 numbers and so is
    the product. *)
Definition fmul (x y : Q) : Q := double (double x * double y).

(** [x > Math.pow(10, e)] for rationals [x] and [e].  The power is
    irrational in general, so it is not computed: for [e = p/q] with
    [q > 0], [x > 10^(p/q)] holds iff [x > 0] and [x^q > 10^p], which is
    a comparison of rationals ([PowerFacts.gt_pow10_spec]). *)
Definition gt_pow10 (x e : Q) : bool :=
  if ltb 0 x then ltb (Qpower 10 (Qnum e)) (Qpower x (Zpos (Qden e)))
  else false.

End JsQ.

(* ================================================================== *)
(** * Counting loops *)
(* ================================================================== *)

Module Loops.

(** [for (let i = lo; i < hi; i++)]: the indices visited. *)
Definition zrange (lo hi : Z) : list Z :=
  map (fun k => (lo + Z.of_nat k)%Z) (seq 0 (Z.to_nat (hi - lo))).

End Loops.

(* ================================================================== *)
(** * The seven energy centres (hooks/useFFT.ts, compatibilityScorer.ts) *)
(* ================================================================== *)

Module Centres.
Local Open Scope Q_scope.

(** [EnergyCentreKey]: the keys of the band table. *)
Inductive EnergyCentreKey : Type :=
  | root | sacral | solarPlexus | heart | throat | thirdEye | crown.

Definition key_eqb (a b : EnergyCentreKey) : bool :=
  match a, b with
  | root, root | sacral, sacral | solarPlexus, solarPlexus
  | heart, heart | throat, throat | thirdEye, thirdEye | crown, crown => true
  | _, _ => false
  end.

(** [ENERGY_BANDS] / [ENERGY_CENTRES]: the literal Hz table, in the
    insertion order that [Object.entries] follows. *)
Definition ENERGY_BANDS : list (EnergyCentreKey * (Q * Q)) :=
  [ (root, (32, 128)); (sacral, (128, 256)); (solarPlexus, (256, 384));
    (heart, (384, 512)); (throat, (512, 768)); (thirdEye, (768, 1024));
    (crown, (1024, 4000)) ].

(** [CENTRE_ORDER]. *)
Definition CENTRE_ORDER : list EnergyCentreKey :=
  [root; sacral; solarPlexus; heart; throat; thirdEye; crown].

(** [ENERGY_BANDS[key]]. *)
Definition band (k : EnergyCentreKey) : Q * Q :=
  match k with
  | root => (32, 128) | sacral => (128, 256) | solarPlexus => (256, 384)
  | heart => (384, 512) | throat => (512, 768) | thirdEye => (768, 1024)
  | crown => (1024, 4000)
  end.

Definition lowHz (k : EnergyCentreKey) : Q := fst (band k).
Definition highHz (k : EnergyCentreKey) : Q := snd (band k).

(** Position of a key in the table. *)
Definition position (k : EnergyCentreKey) : nat :=
  match k with
  | root => 0 | sacral => 1 | solarPlexus => 2 | heart => 3
  | throat => 4 | thirdEye => 5 | crown => 6
  end.

(** compatibilityScorer.ts, [frequencyToCentre]: the first band of the
    table with [low <= hz < high]; above the table, crown. *)
Fixpoint firstBand (hz : Q) (entries : list (EnergyCentreKey * (Q * Q)))
  : option EnergyCentreKey :=
  match entries with
  | [] => None
  | (key, (low, high)) :: rest =>
      if JsQ.leb low hz && JsQ.ltb hz high then Some key
      else firstBand hz rest
  end.

Definition frequencyToCentre (hz : Q) : option EnergyCentreKey :=
  match firstBand hz ENERGY_BANDS with
  | Some key => Some key
  | None => if JsQ.leb 1024 hz then Some crown else None
  end.

(** [hz] lies in the half-open literal range of band [k]. *)
Definition inBandHz (k : EnergyCentreKey) (hz : Q) : Prop :=
  lowHz k <= hz /\ hz < highHz k.

End Centres.

(* ================================================================== *)
(** * lib/audio/fftAnalyser.ts *)
(* ================================================================== *)

Module FftAnalyser.
Import Centres.
Local Open Scope Q_scope.

(** [binToFrequency]. *)
Definition binToFrequency (bin : Z) (sampleRate fftSize : Q) : Q :=
  (inject_Z bin * sampleRate) / fftSize.

(** [frequencyToBin]. *)
Definition frequencyToBin (freq sampleRate fftSize : Q) : Z :=
  JsQ.round ((freq * fftSize) / sampleRate).

(** The bins visited by
    [for (let i = lowBin; i <= highBin && i < frequencyData.length; i++)]. *)
Definition loopBins (lowBin highBin len : Z) : list Z :=
  map (fun k => (lowBin + Z.of_nat k)%Z)
      (seq 0 (Z.to_nat (Z.min highBin (len - 1) - lowBin + 1))).

(** A dB value as the analyser delivers it ([-Infinity] for a silent
    bin) or as a sum of such values: reading outside the array gives
    [undefined], which a sum turns into [NaN]. *)
Inductive level : Type :=
  | Level (q : Q)
  | MinusInfinity
  | NotANumber.

(** [a + b]. *)
Definition level_add (a b : level) : level :=
  match a, b with
  | NotANumber, _ | _, NotANumber => NotANumber
  | MinusInfinity, _ | _, MinusInfinity => MinusInfinity
  | Level x, Level y => Level (x + y)
  end.

(** [a / count] for a positive [count]. *)
Definition level_div (a : level) (count : Z) : level :=
  match a with
  | Level x => Level (x / inject_Z count)
  | other => other
  end.

(** [frequencyData[i]] as a summand. *)
Definition at_bin (frequencyData : list level) (i : Z) : level :=
  if (i <? 0)%Z then NotANumber
  else nth (Z.to_nat i) frequencyData NotANumber.

(** [bandEnergy]: the mean of the dB values over the visited bins,
    [-Infinity] for an empty range. *)
Definition bandEnergy (frequencyData : list level) (lowFreq highFreq : Q)
           (sampleRate fftSize : Q) : level :=
  let lowBin := frequencyToBin lowFreq sampleRate fftSize in
  let highBin := frequencyToBin highFreq sampleRate fftSize in
  let bins := loopBins lowBin highBin (Z.of_nat (length frequencyData)) in
  let sum :=
    fold_left (fun s i => level_add s (at_bin frequencyData i)) bins (Level 0) in
  let count := Z.of_nat (length bins) in
  if (0 <? count)%Z then level_div sum count else MinusInfinity.

(** The bins that [bandEnergy] reads for the band of centre [k], as
    hooks/useFFT.ts calls it with the table's [low] and [high]. *)
Definition centreBins (k : EnergyCentreKey) (len : Z) (sampleRate fftSize : Q)
  : list Z :=
  loopBins (frequencyToBin (lowHz k) sampleRate fftSize)
           (frequencyToBin (highHz k) sampleRate fftSize) len.

(** The property in question: no bin is read for two different bands. *)
Definition bins_pairwise_disjoint (len : Z) (sampleRate fftSize : Q) : Prop :=
  forall a b i, a <> b ->
    In i (centreBins a len sampleRate fftSize) ->
    In i (centreBins b len sampleRate fftSize) -> False.

End FftAnalyser.

(* ================================================================== *)
(** * lib/audio/overtoneDetector.ts *)
(* ================================================================== *)

Module OvertoneDetector.
Import Loops.
Local Open Scope Q_scope.

(** [magnitudeSpectrum[i]], a dB value. *)
Definition get (magnitudeSpectrum : list Q) (i : Z) : Q :=
  nth (Z.to_nat i) magnitudeSpectrum 0.

Record HarmonicPeak : Type := {
  frequency : Q;
  amplitude : Q;
  harmonicNumber : Z
}.

Record OvertoneResult : Type := {
  fundamental : Q;
  harmonics : list HarmonicPeak;
  confidence : Q
}.

(** Linear amplitudes.  [Math.pow(10, x)] is irrational for almost every
    rational [x]; the product spectrum only multiplies such powers and
    compares the products, so the number [10^x] is represented exactly by
    its exponent [x]: [10^x * 10^y = 10^(x+y)], and [10^x > 10^y] iff
    [x > y] ([PowerFacts.pow10_mul_value], [PowerFacts.pow10_gtb_value]). *)
Inductive pow10 : Type := Pow10 (exponent : Q).

Definition exponent (a : pow10) : Q := let (e) := a in e.

Definition pow10_mul (a b : pow10) : pow10 :=
  Pow10 (exponent a + exponent b).

(** [a > maxVal], where [None] is the initial [-Infinity]. *)
Definition pow10_gtb (a : pow10) (maxVal : option pow10) : bool :=
  match maxVal with
  | None => true
  | Some m => JsQ.ltb (exponent m) (exponent a)
  end.

(** The real number that a [pow10] stands for. *)
Definition pow10_value (a : pow10) : R := Rpower 10 (Q2R (exponent a)).

(** [Math.pow(10, magnitudeSpectrum[i] / 20)]. *)
Definition linear (magnitudeSpectrum : list Q) (i : Z) : pow10 :=
  Pow10 (get magnitudeSpectrum i / 20).

(** One pass of the inner loop of "Multiply downsampled versions" for a
    fixed [h]. *)
Definition hpsMultiply (magnitudeSpectrum : list Q) (h : Z) (hps : list pow10)
  : list pow10 :=
  map (fun iv : Z * pow10 =>
         let (i, v) := iv in
         let sourceIdx := (i * h)%Z in
         if (sourceIdx <? Z.of_nat (length magnitudeSpectrum))%Z
         then pow10_mul v (linear magnitudeSpectrum sourceIdx)
         else v)
      (combine (zrange 0 (Z.of_nat (length hps))) hps).

(** The product array [hps] after both loops. *)
Definition hpsArray (magnitudeSpectrum : list Q) (numHarmonics : Z)
  : list pow10 :=
  let halfLength :=
    JsQ.floor (inject_Z (Z.of_nat (length magnitudeSpectrum))
               / inject_Z numHarmonics) in
  let hps := map (linear magnitudeSpectrum) (zrange 0 halfLength) in
  fold_left (fun hps h => hpsMultiply magnitudeSpectrum h hps)
            (zrange 2 (numHarmonics + 1)) hps.

(** [harmonicProductSpectrum]: the frequency of the bin, from [minBin]
    on, where the product array is largest (the first such bin). *)
Definition harmonicProductSpectrum (magnitudeSpectrum : list Q)
           (sampleRate fftSize : Q) (numHarmonics : Z) : Q :=
  let hps := hpsArray magnitudeSpectrum numHarmonics in
  let halfLength := Z.of_nat (length hps) in
  let minBin := JsQ.ceil ((20 * fftSize) / sampleRate) in
  let '(maxVal, maxBin) :=
    fold_left
      (fun (st : option pow10 * Z) i =>
         let (maxVal, maxBin) := st in
         let v := nth (Z.to_nat i) hps (Pow10 0) in
         if pow10_gtb v maxVal then (Some v, i) else (maxVal, maxBin))
      (zrange minBin halfLength) (None, minBin) in
  (inject_Z maxBin * sampleRate) / fftSize.

(** The last loop of [harmonicProductSpectrum], "Find peak", on any
    product array [hps]: [gtb v maxVal] is [hps[i] > maxVal], [None]
    the initial [-Infinity].  The result is ([maxVal], [maxBin]). *)
Definition peakSearch {A : Type} (gtb : A -> option A -> bool) (d : A)
           (hps : list A) (minBin : Z) : option A * Z :=
  fold_left
    (fun (st : option A * Z) i =>
       let (maxVal, maxBin) := st in
       let v := nth (Z.to_nat i) hps d in
       if gtb v maxVal then (Some v, i) else (maxVal, maxBin))
    (zrange minBin (Z.of_nat (length hps))) (None, minBin).

(** [v > maxVal] on the numbers a [Float32Array] holds. *)
Definition float_gtb (v : Q) (maxVal : option Q) : bool :=
  match maxVal with
  | None => true
  | Some m => JsQ.ltb m v
  end.

Module Peak.
Record t : Type := { bin : Z; frequency : Q; amplitude : Q }.
End Peak.

(** [peaks.sort((a, b) => b.amplitude - a.amplitude)]: descending by
    amplitude, equal amplitudes keep their order (the sort is stable). *)
Fixpoint insertPeak (x : Peak.t) (sorted : list Peak.t) : list Peak.t :=
  match sorted with
  | [] => [x]
  | y :: rest =>
      if JsQ.leb (Peak.amplitude y) (Peak.amplitude x)
      then x :: y :: rest
      else y :: insertPeak x rest
  end.

Definition sortPeaks (peaks : list Peak.t) : list Peak.t :=
  fold_right insertPeak [] peaks.

(** [findSpectralPeaks]. *)
Definition findSpectralPeaks (magnitudeSpectrum : list Q)
           (sampleRate fftSize : Q) (thresholdDB : Q) (minDistance : Z)
  : list Peak.t :=
  let m := get magnitudeSpectrum in
  let peaks :=
    fold_left
      (fun (peaks : list Peak.t) i =>
         if JsQ.ltb thresholdDB (m i)
            && JsQ.ltb (m (i - 1)%Z) (m i)
            && JsQ.ltb (m (i + 1)%Z) (m i)
            && JsQ.ltb (m (i - 2)%Z) (m i)
            && JsQ.ltb (m (i + 2)%Z) (m i)
         then
           match rev peaks with
           | [] =>
               peaks ++ [ {| Peak.bin := i;
                             Peak.frequency := (inject_Z i * sampleRate) / fftSize;
                             Peak.amplitude := m i |} ]
           | last :: _ =>
               if (minDistance <=? i - Peak.bin last)%Z
               then peaks ++ [ {| Peak.bin := i;
                                  Peak.frequency := (inject_Z i * sampleRate) / fftSize;
                                  Peak.amplitude := m i |} ]
               else peaks
           end
         else peaks)
      (zrange 2 (Z.of_nat (length magnitudeSpectrum) - 2)) [] in
  sortPeaks peaks.

(** The body of the loop of [detectOvertones], on the state
    ([harmonics], [matchCount]). *)
Definition classifyStep (fundamental : Q) (st : list HarmonicPeak * Z)
           (peak : Peak.t) : list HarmonicPeak * Z :=
  let (harmonics, matchCount) := st in
  let ratio := Peak.frequency peak / fundamental in
  let nearestHarmonic := JsQ.round ratio in
  if (1 <=? nearestHarmonic)%Z
     && JsQ.ltb (Qabs (ratio - inject_Z nearestHarmonic)) (8 # 100)
  then (harmonics ++ [ {| frequency := Peak.frequency peak;
                          amplitude := Peak.amplitude peak;
                          harmonicNumber := nearestHarmonic |} ],
        (matchCount + 1)%Z)
  else (harmonics, matchCount).

(** The loop over [peaks.slice(0, 16)]. *)
Definition classify (fundamental : Q) (peaks : list Peak.t)
  : list HarmonicPeak * Z :=
  fold_left (classifyStep fundamental) (firstn 16 peaks) ([], 0%Z).

(** [detectOvertones], with the defaults [numHarmonics = 5],
    [thresholdDB = -60] and [minDistance = 5] of the functions it calls. *)
Definition detectOvertones (magnitudeSpectrum : list Q)
           (sampleRate fftSize : Q) : OvertoneResult :=
  let fundamental :=
    harmonicProductSpectrum magnitudeSpectrum sampleRate fftSize 5 in
  let peaks := findSpectralPeaks magnitudeSpectrum sampleRate fftSize (-60) 5 in
  let '(harmonics, matchCount) := classify fundamental peaks in
  let confidence :=
    if (0 <? Z.of_nat (length peaks))%Z
    then inject_Z matchCount
         / inject_Z (Z.min (Z.of_nat (length peaks)) 10)
    else 0 in
  {| fundamental := fundamental;
     harmonics := harmonics;
     confidence := confidence |}.

(** A tone rich in overtones, as the analyser delivers it at 44.1 kHz
    with an 8192-point FFT: 4096 bins at -100 dB, and sixteen partials of
    a 215.3 Hz fundamental, partial [k] in bin [40 k] at [-10 - 2 k] dB. *)
Definition richSpectrum : list Q :=
  map (fun i : nat =>
         let k := (Z.of_nat i / 40)%Z in
         if ((Z.of_nat i mod 40 =? 0) && (1 <=? k) && (k <=? 16))%Z
         then inject_Z (-10 - 2 * k) else -100)
      (seq 0 4096).

End OvertoneDetector.

(* ================================================================== *)
(** * lib/analysis/compatibilityScorer.ts *)
(* ================================================================== *)

Module CompatibilityScorer.
Import Centres.
Local Open Scope Q_scope.

Definition DEFAULT_NOISE_DB : Q := -60.

(** [ScoringInput].  [noiseFloorBands] is a [Record<string, number>] or
    [null]; a record may lack a key.  The band levels are finite dB
    values: the [-Infinity] that [bandEnergy] returns for a silent or
    empty band is not an input of this model. *)
Record ScoringInput : Type := {
  instrumentCentres : EnergyCentreKey -> Q;
  noiseFloorBands : option (EnergyCentreKey -> option Q);
  overtoneConfidence : Q;
  harmonics : list OvertoneDetector.HarmonicPeak
}.

(** [noiseFloorBands?.[key] ?? DEFAULT_NOISE_DB]. *)
Definition noiseLevel (input : ScoringInput) (key : EnergyCentreKey) : Q :=
  match noiseFloorBands input with
  | None => DEFAULT_NOISE_DB
  | Some bands =>
      match bands key with
      | Some v => v
      | None => DEFAULT_NOISE_DB
      end
  end.

(** The first loop: [headroomSum] and [headroomCount]. *)
Definition headroomLoop (input : ScoringInput) : Q * Z :=
  fold_left
    (fun (st : Q * Z) key =>
       let (headroomSum, headroomCount) := st in
       let headroom := instrumentCentres input key - noiseLevel input key in
       (headroomSum + Qmax 0 headroom, (headroomCount + 1)%Z))
    CENTRE_ORDER (0, 0%Z).

Definition avgHeadroom (input : ScoringInput) : Q :=
  let (headroomSum, headroomCount) := headroomLoop input in
  if (0 <? headroomCount)%Z then headroomSum / inject_Z headroomCount else 0.

Definition resonanceScore (input : ScoringInput) : Q :=
  Qmin 40 ((avgHeadroom input / 30) * 40).

(** The second loop: [activatedCentres]. *)
Definition activatedCentres (input : ScoringInput) : Z :=
  fold_left
    (fun (n : Z) key =>
       if JsQ.ltb 6 (instrumentCentres input key - noiseLevel input key)
       then (n + 1)%Z else n)
    CENTRE_ORDER 0%Z.

Definition richnessScore (input : ScoringInput) : Q :=
  (inject_Z (activatedCentres input)
   / inject_Z (Z.of_nat (length CENTRE_ORDER))) * 35.

Definition clarityScore (input : ScoringInput) : Q :=
  let harmonicBonus :=
    Qmin 1 (inject_Z (Z.of_nat (length (harmonics input))) / 6) in
  let clarityRaw :=
    overtoneConfidence input * (6 # 10) + harmonicBonus * (4 # 10) in
  clarityRaw * 25.

(** [computeCompatibilityScore]. *)
Definition computeCompatibilityScore (input : ScoringInput) : Z :=
  Z.max 0 (Z.min 100
    (JsQ.round (resonanceScore input + richnessScore input
                + clarityScore input))).

(** [computeCentreCoverage]. *)
Definition computeCentreCoverage (instrumentCentres : EnergyCentreKey -> Q)
  : EnergyCentreKey -> Q :=
  fun key => Qmax 0 (Qmin 1 ((instrumentCentres key + 80) / 80)).


(** Sample inputs. *)

Definition flat (level : Q) : EnergyCentreKey -> Q := fun _ => level.




End CompatibilityScorer.

(* ================================================================== *)
(** * lib/audio/transientDetector.ts *)
(* ================================================================== *)

Module TransientDetector.
Import Loops.
Local Open Scope Q_scope.

Record TransientEvent : Type := {
  sampleIndex : Z;
  timeSeconds : Q;
  peakAmplitude : Q;
  energyRatio : Q
}.

Record TransientDetectorConfig : Type := {
  thresholdDB : Q;
  minAmplitude : Q;
  minIntervalSeconds : Q;
  windowSize : Z
}.

Definition DEFAULT_CONFIG : TransientDetectorConfig :=
  {| thresholdDB := 6;
     minAmplitude := 1 # 10;
     minIntervalSeconds := 3 # 10;
     windowSize := 512 |}.

(** [Partial<TransientDetectorConfig>]. *)
Record PartialConfig : Type := {
  thresholdDB_opt : option Q;
  minAmplitude_opt : option Q;
  minIntervalSeconds_opt : option Q;
  windowSize_opt : option Z
}.

(** [{}], the default argument. *)
Definition emptyConfig : PartialConfig :=
  {| thresholdDB_opt := None; minAmplitude_opt := None;
     minIntervalSeconds_opt := None; windowSize_opt := None |}.

(** [{ ...DEFAULT_CONFIG, ...config }]. *)
Definition withDefaults (config : PartialConfig) : TransientDetectorConfig :=
  {| thresholdDB :=
       match thresholdDB_opt config with
       | Some v => v | None => thresholdDB DEFAULT_CONFIG end;
     minAmplitude :=
       match minAmplitude_opt config with
       | Some v => v | None => minAmplitude DEFAULT_CONFIG end;
     minIntervalSeconds :=
       match minIntervalSeconds_opt config with
       | Some v => v | None => minIntervalSeconds DEFAULT_CONFIG end;
     windowSize :=
       match windowSize_opt config with
       | Some v => v | None => windowSize DEFAULT_CONFIG end |}.

(** [buffer[i]] and [energies[w]]. *)
Definition get (a : list Q) (i : Z) : Q := nth (Z.to_nat i) a 0.

Section Detect.
Variable buffer : list Q.
Variable sampleRate : Q.
Variable cfg : TransientDetectorConfig.

(** [Math.floor(minIntervalSeconds * sampleRate)], the product in
    double precision. *)
Definition minIntervalSamples : Z :=
  JsQ.floor (JsQ.fmul (minIntervalSeconds cfg) sampleRate).

Definition numWindows : Z :=
  JsQ.floor (inject_Z (Z.of_nat (length buffer)) / inject_Z (windowSize cfg)).

(** The mean of the squares over window [w]. *)
Definition windowEnergy (w : Z) : Q :=
  let start := (w * windowSize cfg)%Z in
  let sum :=
    fold_left (fun sum i => sum + get buffer (start + i) * get buffer (start + i))
              (zrange 0 (windowSize cfg)) 0 in
  sum / inject_Z (windowSize cfg).

(** The array [energies], filled by the first loop. *)
Definition computeEnergies : list Q := map windowEnergy (zrange 0 numWindows).

Definition avgWindowSize : Z := Z.min 20 numWindows.

(** [ratio > thresholdLinear], with
    [thresholdLinear = Math.pow(10, thresholdDB / 10)]. *)
Definition aboveThreshold (ratio : Q) : bool :=
  JsQ.gt_pow10 ratio (thresholdDB cfg / 10).

(** The peak absolute amplitude within the window starting at
    [sampleIndex]. *)
Definition peakAt (sampleIndex : Z) : Q :=
  fold_left
    (fun peak i =>
       let abs := Qabs (get buffer (sampleIndex + i)) in
       if JsQ.ltb peak abs then abs else peak)
    (zrange 0 (windowSize cfg)) 0.

(** The detection loop reads the array [energies] and the constants
    [avgWindowSize] and [minIntervalSamples] computed before it. *)
Variable energies : list Q.
Variable avgWindow : Z.
Variable minSamples : Z.

(** The background estimate before window [w]. *)
Definition bgEnergy (w : Z) : Q :=
  fold_left (fun bg j => bg + get energies j) (zrange (w - avgWindow) w) 0
  / inject_Z avgWindow.

Definition ratioAt (w : Z) : Q :=
  let bg := bgEnergy w in
  if JsQ.ltb 0 bg then get energies w / bg else 0.

(** The body of the detection loop for window [w], on the state
    ([events], [lastDetectedSample]). *)
Definition detectStep (st : list TransientEvent * Z) (w : Z)
  : list TransientEvent * Z :=
  let (events, lastDetectedSample) := st in
  let ratio := ratioAt w in
  let sampleIndex := (w * windowSize cfg)%Z in
  if (if aboveThreshold ratio
      then (minSamples <=? sampleIndex - lastDetectedSample)%Z
      else false)
  then
    let peak := peakAt sampleIndex in
    if JsQ.ltb peak (minAmplitude cfg) then (events, lastDetectedSample)
    else (events ++ [ {| sampleIndex := sampleIndex;
                         timeSeconds := inject_Z sampleIndex / sampleRate;
                         peakAmplitude := peak;
                         energyRatio := ratio |} ],
          sampleIndex)
  else (events, lastDetectedSample).

(** The state when the loop reaches window [w]. *)
Definition loopUpTo (w : Z) : list TransientEvent * Z :=
  fold_left detectStep (zrange avgWindow w) ([], (- minSamples)%Z).

End Detect.

(** The state of the detection loop of [detectTransients] when it reaches
    window [w]: the events recorded so far and [lastDetectedSample]. *)
Definition stateAt (buffer : list Q) (sampleRate : Q)
           (cfg : TransientDetectorConfig) (w : Z) : list TransientEvent * Z :=
  let energies := computeEnergies buffer cfg in
  let avg := avgWindowSize buffer cfg in
  let minSamples := minIntervalSamples sampleRate cfg in
  loopUpTo buffer sampleRate cfg energies avg minSamples w.

(** [detectTransients] for a complete configuration. *)
Definition detectWith (buffer : list Q) (sampleRate : Q)
           (cfg : TransientDetectorConfig) : list TransientEvent :=
  fst (stateAt buffer sampleRate cfg (numWindows buffer cfg)).

(** [detectTransients]. *)
Definition detectTransients (buffer : list Q) (sampleRate : Q)
           (config : PartialConfig) : list TransientEvent :=
  detectWith buffer sampleRate (withDefaults config).

(** [extractImpulseResponse]. *)
Definition extractImpulseResponse (buffer : list Q) (transient : TransientEvent)
           (durationSeconds sampleRate : Q) : list Q :=
  let startSample := sampleIndex transient in
  let len := Z.min (JsQ.floor (JsQ.fmul durationSeconds sampleRate))
                   (Z.of_nat (length buffer) - startSample) in
  if (len <=? 0)%Z then []
  else firstn (Z.to_nat len) (skipn (Z.to_nat startSample) buffer).

(** The property in question: any two events of the result are at
    least [minIntervalSeconds] apart. *)
Definition spaced_by_minIntervalSeconds (buffer : list Q) (sampleRate : Q)
           (config : PartialConfig) : Prop :=
  forall (i j : nat) (ei ej : TransientEvent),
    (i < j)%nat ->
    nth_error (detectTransients buffer sampleRate config) i = Some ei ->
    nth_error (detectTransients buffer sampleRate config) j = Some ej ->
    minIntervalSeconds (withDefaults config)
      <= timeSeconds ej - timeSeconds ei.

(** The sample index of the last recorded event, [- minSamples] before
    the first one: what [lastDetectedSample] should hold. *)
Definition lastRecorded (minSamples : Z) (events : list TransientEvent) : Z :=
  last (map sampleIndex events) (- minSamples)%Z.

(** Pairs of events, earlier one first, are related by [R]. *)
Definition ordered_pairs (R : TransientEvent -> TransientEvent -> Prop)
           (events : list TransientEvent) : Prop :=
  forall (i j : nat) (ei ej : TransientEvent),
    (i < j)%nat ->
    nth_error events i = Some ei -> nth_error events j = Some ej -> R ei ej.

(** Silence with two short claps, 5512 samples apart: samples 160 and
    5672 at 0.5, a faint click of 0.01 at samples 0 and 5512. *)
Definition twoClaps : list Q :=
  map (fun i : Z =>
         if ((i =? 0) || (i =? 5512))%Z then 1 # 100
         else if ((i =? 160) || (i =? 5672))%Z then 1 # 2
         else 0)
      (zrange 0 5680).

(** [{ minIntervalSeconds: 0.25, windowSize: 8 }]. *)
Definition quarterSecond : PartialConfig :=
  {| thresholdDB_opt := None;
     minAmplitude_opt := None;
     minIntervalSeconds_opt := Some (1 # 4);
     windowSize_opt := Some 8%Z |}.

(** [{ windowSize: 4 }]. *)
Definition shortWindows : PartialConfig :=
  {| thresholdDB_opt := None;
     minAmplitude_opt := None;
     minIntervalSeconds_opt := None;
     windowSize_opt := Some 4%Z |}.

(** Silence with a faint click at sample 0, a quiet spike of 0.05 in
    window 20 (sample 80) and a clap of 0.5 in window 21 (sample 84). *)
Definition quietThenLoud : list Q :=
  map (fun i : Z =>
         if (i =? 0)%Z then 1 # 1000
         else if (i =? 80)%Z then 1 # 20
         else if (i =? 84)%Z then 1 # 2
         else 0)
      (zrange 0 88).

(** Silence with a faint click at sample 0 and a clap of 0.5 at sample
    10240, the start of window 20 for 512-sample windows. *)
Definition oneClap : list Q :=
  map (fun i : Z =>
         if (i =? 0)%Z then 1 # 100
         else if (i =? 10240)%Z then 1 # 2
         else 0)
      (zrange 0 10752).

End TransientDetector.

(* ================================================================== *)
(** * JavaScript numbers on reals *)
(* ================================================================== *)

Module JsR.
Local Open Scope R_scope.

(** [Math.floor] and [Math.round] (halves go up). *)
Definition floor (x : R) : Z := Int_part x.
Definition round (x : R) : Z := Int_part (x + / 2).

Definition leb (x y : R) : bool := if Rle_dec x y then true else false.
Definition ltb (x y : R) : bool := if Rlt_dec x y then true else false.

(** A number that may be [-Infinity]. *)
Inductive num : Type :=
  | NegInfinity
  | Num (r : R).

(** [x <= c] for a finite [c]. *)
Definition num_leb (x : num) (c : R) : bool :=
  match x with
  | NegInfinity => true
  | Num r => leb r c
  end.

(** [x < y]. *)
Definition num_lt (x y : num) : bool :=
  match x, y with
  | _, NegInfinity => false
  | NegInfinity, Num _ => true
  | Num a, Num b => ltb a b
  end.

(** [x + y] and [x / n] and [c * x] for positive [n] and [c]. *)
Definition num_add (x y : num) : num :=
  match x, y with
  | Num a, Num b => Num (a + b)
  | _, _ => NegInfinity
  end.

Definition num_div (x : num) (n : R) : num :=
  match x with
  | Num a => Num (a / n)
  | NegInfinity => NegInfinity
  end.

Definition num_scale (c : R) (x : num) : num :=
  match x with
  | Num a => Num (c * a)
  | NegInfinity => NegInfinity
  end.

(** [Math.max(x, c)] for a finite [c]. *)
Definition num_max (x : num) (c : R) : R :=
  match x with
  | Num a => Rmax a c
  | NegInfinity => c
  end.

(** [Math.log10] on non-negative numbers: [-Infinity] at 0. *)
Definition log10 (x : R) : num :=
  if Rlt_dec 0 x then Num (ln x / ln 10) else NegInfinity.

(** [Math.log2] on positive numbers, [Math.pow(2, x)]. *)
Definition log2 (x : R) : R := ln x / ln 2.
Definition pow2 (x : R) : R := Rpower 2 x.

End JsR.

(* ================================================================== *)
(** * lib/audio/rt60.ts *)
(* ================================================================== *)

Module Rt60.
Import JsR.
Local Open Scope R_scope.

(** The backward integration loop: [energyCurve[length - 1]] is
    [squared[length - 1]] and [energyCurve[i]] is
    [energyCurve[i + 1] + squared[i]]. *)
Fixpoint backwardIntegration (squared : list R) : list R :=
  match squared with
  | [] => []
  | x :: rest =>
      match backwardIntegration rest with
      | [] => [x]
      | e :: later => (e + x) :: e :: later
      end
  end.

(** The energy curve before the conversion to dB. *)
Definition energyCurve (impulseResponse : list R) : list R :=
  backwardIntegration (map (fun x => x * x) impulseResponse).

(** [schroederIntegration]. *)
Definition schroederIntegration (impulseResponse : list R) : list num :=
  match energyCurve impulseResponse with
  | [] => []
  | maxEnergy :: later =>
      if Rle_dec maxEnergy 0 then map Num (maxEnergy :: later)
      else map (fun e => num_scale 10 (log10 (e / maxEnergy)))
               (maxEnergy :: later)
  end.

(** The first index [i], counted from [i0], with [decayCurve[i] <= c];
    [-1] if there is none. *)
Fixpoint firstAtMost (c : R) (decayCurve : list num) (i0 : Z) : Z :=
  match decayCurve with
  | [] => (-1)%Z
  | v :: rest => if num_leb v c then i0 else firstAtMost c rest (i0 + 1)%Z
  end.

(** [estimateRT60]. *)
Definition estimateRT60 (decayCurve : list num) (sampleRate : R) : R :=
  let t5 := firstAtMost (-5) decayCurve 0 in
  let t25 := firstAtMost (-25) decayCurve 0 in
  if ((t5 <? 0) || (t25 <? 0) || (t25 <=? t5))%Z then
    let t10 := firstAtMost (-10) decayCurve 0 in
    if (t10 <=? 0)%Z then 0
    else (IZR t10 / sampleRate) * 6
  else
    let t20Seconds := IZR (t25 - t5) / sampleRate in
    t20Seconds * 3.

(** [computeRT60]. *)
Definition computeRT60 (impulseResponse : list R) (sampleRate : R) : R :=
  estimateRT60 (schroederIntegration impulseResponse) sampleRate.

Inductive Quality : Type := good | fair | poor.

Record RT60Result : Type := {
  rt60 : R;
  decayCurve : list num;
  quality : Quality
}.

(** [analyseRT60]. *)
Definition analyseRT60 (impulseResponse : list R) (sampleRate : R)
  : RT60Result :=
  let decayCurve := schroederIntegration impulseResponse in
  let rt60 := estimateRT60 decayCurve sampleRate in
  let minDB :=
    fold_left (fun minDB v => if num_lt v minDB then v else minDB)
              decayCurve (Num 0) in
  let quality :=
    if num_leb minDB (-35) then good
    else if num_leb minDB (-20) then fair
    else poor in
  {| rt60 := rt60; decayCurve := decayCurve; quality := quality |}.

(** [decayCurve] reaches the -25 dB crossing. *)
Definition reaches25 (decayCurve : list num) : Prop :=
  exists v, In v decayCurve /\ num_leb v (-25) = true.

(** Each value of the curve is at least the next one. *)
Definition nonincreasing (curve : list R) : Prop :=
  forall (i : nat) (a b : R),
    nth_error curve i = Some a -> nth_error curve (S i) = Some b -> b <= a.

End Rt60.

(* ================================================================== *)
(** * lib/audio/noiseFloor.ts *)
(* ================================================================== *)

Module NoiseFloor.
Import JsR.
Local Open Scope R_scope.

Inductive Rating : Type := excellent | good | fair | poor.

Record NoiseFloorResult : Type := {
  averageDB : R;
  peakDB : R;
  estimatedDBA : R;
  bandLevels : list (Centres.EnergyCentreKey * num);
  rating : Rating
}.

(** [ENERGY_BANDS], in insertion order. *)
Definition ENERGY_BANDS : list (Centres.EnergyCentreKey * (R * R)) :=
  [ (Centres.root, (32, 128)); (Centres.sacral, (128, 256));
    (Centres.solarPlexus, (256, 384)); (Centres.heart, (384, 512));
    (Centres.throat, (512, 768)); (Centres.thirdEye, (768, 1024));
    (Centres.crown, (1024, 4000)) ].

Definition sum (l : list R) : R := fold_left Rplus l 0.

(** [computeRMS]. *)
Definition computeRMS (buffer : list R) : R :=
  sqrt (sum (map (fun x => x * x) buffer) / INR (length buffer)).

(** [linearToDB]; the floor [1e-10] keeps the logarithm finite. *)
Definition linearToDB (value : num) : R :=
  20 * (ln (num_max value (/ 10 ^ 10)) / ln 10).

(** [Math.max(...samples)]: [-Infinity] for no samples. *)
Definition maxOf (samples : list R) : num :=
  fold_left (fun m x => match m with
                        | NegInfinity => Num x
                        | Num a => Num (Rmax a x)
                        end)
            samples NegInfinity.

(** The bins of one snapshot visited by
    [for (let bin = lowBin; bin <= highBin && bin < snapshot.length; bin++)]. *)
Definition loopBins (lowBin highBin len : Z) : list Z :=
  map (fun k => (lowBin + Z.of_nat k)%Z)
      (seq 0 (Z.to_nat (Z.min highBin (len - 1) - lowBin + 1))).

(** The level of one band: the mean over all snapshots and all bins of
    the band, [-Infinity] when no bin was read. *)
Definition bandLevel (frequencySnapshots : list (list num))
           (lowFreq highFreq sampleRate fftSize : R) : num :=
  let lowBin := round ((lowFreq * fftSize) / sampleRate) in
  let highBin := round ((highFreq * fftSize) / sampleRate) in
  let '(bandSum, count) :=
    fold_left
      (fun (st : num * Z) snapshot =>
         fold_left
           (fun (st : num * Z) bin =>
              let (bandSum, count) := st in
              (num_add bandSum (nth (Z.to_nat bin) snapshot (Num 0)),
               (count + 1)%Z))
           (loopBins lowBin highBin (Z.of_nat (length snapshot))) st)
      frequencySnapshots (Num 0, 0%Z) in
  if (0 <? count)%Z then num_div bandSum (IZR count) else NegInfinity.

(** The rating chain on [averageDB]. *)
Definition rate (averageDB : R) : Rating :=
  if ltb averageDB (-50) then excellent
  else if ltb averageDB (-40) then good
  else if ltb averageDB (-30) then fair
  else poor.

(** [analyseNoiseFloor]. *)
Definition analyseNoiseFloor (samples : list R)
           (frequencySnapshots : list (list num))
           (sampleRate fftSize : R) : NoiseFloorResult :=
  let avgRMS := sum samples / INR (length samples) in
  let peakRMS := maxOf samples in
  let averageDB := linearToDB (Num avgRMS) in
  let peakDB := linearToDB peakRMS in
  let bandLevels :=
    match frequencySnapshots with
    | [] => []
    | _ :: _ =>
        map (fun entry : Centres.EnergyCentreKey * (R * R) =>
               let '(name, (lowFreq, highFreq)) := entry in
               (name, bandLevel frequencySnapshots lowFreq highFreq
                                sampleRate fftSize))
            ENERGY_BANDS
    end in
  let estimatedDBA := averageDB + 3 in
  {| averageDB := averageDB;
     peakDB := peakDB;
     estimatedDBA := estimatedDBA;
     bandLevels := bandLevels;
     rating := rate averageDB |}.

End NoiseFloor.

(* ================================================================== *)
(** * lib/analysis/noteMapper.ts *)
(* ================================================================== *)

Module NoteMapper.
Import JsR.
Import String.
Local Open Scope R_scope.

Definition NOTE_NAMES : list string :=
  [ "C"; "C#"; "D"; "D#"; "E"; "F"; "F#"; "G"; "G#"; "A"; "A#"; "B" ]%string.

Record NoteInfo : Type := {
  name : string;
  noteName : string;
  octave : Z;
  exactFrequency : R;
  cents : Z
}.

(** The decimal form of an integer inside a template string. *)
Definition showZ (z : Z) : string :=
  DecimalString.NilZero.string_of_int (Z.to_int z).

(** [frequencyToNote].  [%] is the remainder of truncated division. *)
Definition frequencyToNote (hz : R) : NoteInfo :=
  let semitones := 12 * log2 (hz / 440) in
  let roundedSemitones := round semitones in
  let cents := round ((semitones - IZR roundedSemitones) * 100) in
  let midi := (69 + roundedSemitones)%Z in
  let noteIndex := Z.rem (Z.rem midi 12 + 12) 12 in
  let octave := (JsR.floor (IZR midi / 12) - 1)%Z in
  let noteName := nth (Z.to_nat noteIndex) NOTE_NAMES ""%string in
  let exactFrequency := 440 * pow2 (IZR roundedSemitones / 12) in
  {| name := (noteName ++ showZ octave)%string;
     noteName := noteName;
     octave := octave;
     exactFrequency := IZR (round (exactFrequency * 100)) / 100;
     cents := cents |}.

(** [NOTE_NAMES.indexOf(noteName)]. *)
Fixpoint indexOf (names : list string) (noteName : string) (i : Z) : Z :=
  match names with
  | [] => (-1)%Z
  | n :: rest => if String.eqb n noteName then i else indexOf rest noteName (i + 1)%Z
  end.

(** [noteToFrequency]. *)
Definition noteToFrequency (noteName : string) (octave : Z) : R :=
  let index := indexOf NOTE_NAMES noteName 0 in
  if (index =? -1)%Z then 0
  else
    let midi := ((octave + 1) * 12 + index)%Z in
    440 * pow2 (IZR (midi - 69) / 12).

(** The property in question: a note with no cents deviation is
    recovered with exactly its [exactFrequency]. *)
Definition exact_round_trip (hz : R) : Prop :=
  0 < hz ->
  cents (frequencyToNote hz) = 0%Z ->
  noteToFrequency (noteName (frequencyToNote hz)) (octave (frequencyToNote hz))
    = exactFrequency (frequencyToNote hz).

End NoteMapper.

(* ================================================================== *)
(** * lib/analysis/compatibilityScorer.ts: ordinals and profiles *)
(* ================================================================== *)

Module ScorerText.
Import String.
Local Open Scope string_scope.

(** [s[i]] for [const s = ["th", "st", "nd", "rd"]]; [None] is
    [undefined]. *)
Definition suffixAt (i : Z) : option string :=
  if (i <? 0)%Z then None
  else nth_error ["th"; "st"; "nd"; "rd"] (Z.to_nat i).

(** [a || b] on a string or [undefined]. *)
Definition orElse (a : option string) (b : option string) : option string :=
  match a with
  | Some EmptyString => b
  | Some x => Some x
  | None => b
  end.

(** [ordinal]; [%] is the remainder of truncated division. *)
Definition ordinal (n : Z) : string :=
  let v := Z.rem n 100 in
  let suffix :=
    orElse (orElse (suffixAt (Z.rem (v - 20) 10)) (suffixAt v)) (suffixAt 0) in
  NoteMapper.showZ n ++ match suffix with Some x => x | None => "undefined" end.

(** The English ordinal suffix of a natural number. *)
Definition englishSuffix (n : Z) : string :=
  if ((n mod 100 =? 11) || (n mod 100 =? 12) || (n mod 100 =? 13))%Z then "th"
  else if (n mod 10 =? 1)%Z then "st"
  else if (n mod 10 =? 2)%Z then "nd"
  else if (n mod 10 =? 3)%Z then "rd"
  else "th".

End ScorerText.

Module Profile.

(** [InstrumentProfile].  [centreCoverage] is read with [?? 0], so a
    stored profile may lack a key. *)
Record InstrumentProfile : Type := {
  instrumentId : String.string;
  fundamental : Q;
  harmonics : list OvertoneDetector.HarmonicPeak;
  energyCentres : Centres.EnergyCentreKey -> Q;
  compatibilityScore : Z;
  centreCoverage : Centres.EnergyCentreKey -> option Q;
  summary : String.string;
  averagedSpectrum : list Q;
  timestamp : Z
}.

End Profile.

(* ================================================================== *)
(** * lib/analysis/intentionMapper.ts *)
(* ================================================================== *)

Module IntentionMapper.
Import Centres Profile.
Import String.
Local Open Scope Q_scope.

Inductive Intention : Type :=
  | grounding | release | energising | heartOpening | integration.

Record IntentionConfig : Type := {
  label : string;
  description : string;
  primaryCentres : list EnergyCentreKey;
  frequencyRange : Q * Q;
  colourHue : Z
}.

(** [INTENTIONS]. *)
Definition INTENTIONS (intention : Intention) : IntentionConfig :=
  match intention with
  | grounding =>
      {| label := "Grounding";
         description := "Anchoring into the body with deep, resonant tones";
         primaryCentres := [root; sacral];
         frequencyRange := (32, 256);
         colourHue := 15 |}
  | release =>
      {| label := "Release";
         description := "Letting go of held tension and stagnant energy";
         primaryCentres := [sacral; solarPlexus];
         frequencyRange := (128, 384);
         colourHue := 30 |}
  | energising =>
      {| label := "Energising";
         description := "Activating vitality and clear expression";
         primaryCentres := [solarPlexus; throat];
         frequencyRange := (256, 768);
         colourHue := 55 |}
  | heartOpening =>
      {| label := "Heart Opening";
         description := "Cultivating compassion and emotional connection";
         primaryCentres := [heart; throat];
         frequencyRange := (384, 768);
         colourHue := 140 |}
  | integration =>
      {| label := "Integration";
         description := "Harmonising all centres into coherent wholeness";
         primaryCentres :=
           [root; sacral; solarPlexus; heart; throat; thirdEye; crown];
         frequencyRange := (32, 4000);
         colourHue := 270 |}
  end.

(** [CENTRE_DISPLAY]. *)
Definition CENTRE_DISPLAY (key : EnergyCentreKey) : string :=
  match key with
  | root => "Root" | sacral => "Sacral" | solarPlexus => "Solar Plexus"
  | heart => "Heart" | throat => "Throat" | thirdEye => "Third Eye"
  | crown => "Crown"
  end.

(** [String.prototype.toLowerCase] on ASCII text. *)
Definition lowerChar (c : Ascii.ascii) : Ascii.ascii :=
  let n := Ascii.nat_of_ascii c in
  if (65 <=? n)%nat && (n <=? 90)%nat then Ascii.ascii_of_nat (n + 32) else c.

Fixpoint toLowerCase (s : string) : string :=
  match s with
  | EmptyString => EmptyString
  | String c rest => String (lowerChar c) (toLowerCase rest)
  end.

(** [profile.centreCoverage[key] ?? 0]. *)
Definition coverageOf (profile : InstrumentProfile) (key : EnergyCentreKey) : Q :=
  match centreCoverage profile key with
  | Some v => v
  | None => 0
  end.

(** The relevance of a profile: the mean coverage of the intention's
    primary centres. *)
Definition relevanceOf (intention : Intention) (profile : InstrumentProfile)
  : Q :=
  let primaryCentres := primaryCentres (INTENTIONS intention) in
  fold_left (fun sum key => sum + coverageOf profile key) primaryCentres 0
  / inject_Z (Z.of_nat (List.length primaryCentres)).

(** The centre named in the reason: [primaryCentres.reduce] without an
    initial value starts from the first centre (every entry of
    [INTENTIONS] has one). *)
Definition strongestOf (intention : Intention) (profile : InstrumentProfile)
  : EnergyCentreKey :=
  let primaryCentres := primaryCentres (INTENTIONS intention) in
  fold_left
    (fun best key =>
       if JsQ.ltb (coverageOf profile best) (coverageOf profile key)
       then key else best)
    (tl primaryCentres) (hd root primaryCentres).

Definition reasonOf (intention : Intention) (profile : InstrumentProfile)
  : string :=
  let config := INTENTIONS intention in
  let relevance := relevanceOf intention profile in
  let centreLabel := CENTRE_DISPLAY (strongestOf intention profile) in
  if JsQ.ltb (1 # 2) relevance
  then ("Strong " ++ centreLabel ++ " resonance — ideal for "
        ++ toLowerCase (label config))%string
  else if JsQ.ltb (1 # 4) relevance
  then ("Moderate " ++ centreLabel ++ " support")%string
  else ("Light contribution to " ++ toLowerCase (label config) ++ " work")%string.

Module Scored.
Record t : Type := {
  profile : InstrumentProfile;
  relevance : Q;
  reason : string
}.
End Scored.

(** [scored.sort((a, b) => b.relevance - a.relevance)]: descending by
    relevance, equal relevances keep their order (the sort is stable). *)
Fixpoint insertScored (x : Scored.t) (sorted : list Scored.t) : list Scored.t :=
  match sorted with
  | [] => [x]
  | y :: rest =>
      if JsQ.leb (Scored.relevance y) (Scored.relevance x)
      then x :: y :: rest
      else y :: insertScored x rest
  end.

Definition sortScored (scored : list Scored.t) : list Scored.t :=
  fold_right insertScored [] scored.

(** The order [scored.sort] establishes. *)
Definition byRelevance (a b : Scored.t) : Prop :=
  Scored.relevance b <= Scored.relevance a.

(** [recommendInstruments]. *)
Definition recommendInstruments (intention : Intention)
           (profiles : list InstrumentProfile)
  : list (InstrumentProfile * string) :=
  let scored :=
    map (fun profile =>
           {| Scored.profile := profile;
              Scored.relevance := relevanceOf intention profile;
              Scored.reason := reasonOf intention profile |})
        profiles in
  map (fun s => (Scored.profile s, Scored.reason s)) (sortScored scored).

End IntentionMapper.

(* ================================================================== *)
(** * lib/audio/sweepGenerator.ts *)
(* ================================================================== *)

Module SweepGenerator.
Import JsR Loops.
Local Open Scope R_scope.

Record SweepConfig : Type := {
  startFreq : R;
  endFreq : R;
  durationSeconds : R;
  sampleRate : option R
}.

(** [data[i] *= gain] on a typed array: an index outside the array
    changes nothing. *)
Definition scaleAt (data : list R) (i : Z) (gain : R) : list R :=
  if ((0 <=? i) && (i <? Z.of_nat (length data)))%Z
  then firstn (Z.to_nat i) data
       ++ (nth (Z.to_nat i) data 0 * gain) :: skipn (S (Z.to_nat i)) data
  else data.

(** The samples before the fades are applied. *)
Definition rawSweep (config : SweepConfig) (sampleRate : R) (len : Z)
  : list R :=
  let k := Rpower (endFreq config / startFreq config)
                  (1 / durationSeconds config) in
  map (fun i : Z =>
         let t := IZR i / sampleRate in
         let phase :=
           (2 * PI * startFreq config * (Rpower k t - 1)) / ln k in
         sin phase * (8 / 10))
      (zrange 0 len).

(** [generateLogSweep]: the samples of channel 0 of the buffer it
    returns; [ctxSampleRate] is the sample rate of the audio context. *)
Definition generateLogSweep (ctxSampleRate : R) (config : SweepConfig)
  : list R :=
  let sampleRate :=
    match sampleRate config with
    | Some v => v
    | None => ctxSampleRate
    end in
  let len := floor (sampleRate * durationSeconds config) in
  let data := rawSweep config sampleRate len in
  let fadeLength := floor (sampleRate * (5 / 100)) in
  fold_left
    (fun data i =>
       let gain := IZR i / IZR fadeLength in
       let data := scaleAt data i gain in
       scaleAt data (len - 1 - i) gain)
    (zrange 0 fadeLength) data.

(** The normalisation loop's [maxVal]. *)
Definition maxAbs (inverse : list R) : R :=
  fold_left (fun maxVal x => if ltb maxVal (Rabs x) then Rabs x else maxVal)
            inverse 0.

(** [computeInverseFilter], on the samples of channel 0 of the sweep
    buffer. *)
Definition computeInverseFilter (data : list R) : list R :=
  let len := length data in
  let inverse := rev data in
  let decayRate := 6 / INR len in
  let inverse :=
    map (fun ix : nat * R =>
           let (i, x) := ix in x * exp (- decayRate * INR i))
        (combine (seq 0 len) inverse) in
  let maxVal := maxAbs inverse in
  if ltb 0 maxVal then map (fun x => x / maxVal) inverse else inverse.

End SweepGenerator.

(* ================================================================== *)
(** * components/discovery/DiscoveryStepper.tsx *)
(* ================================================================== *)

Module DiscoveryStepper.
Import JsR.
Local Open Scope R_scope.

(** [ImpulseCaptureResult] (hooks/useImpulseCapture.ts). *)
Record ImpulseCaptureResult : Type := {
  transient : TransientDetector.TransientEvent;
  impulseResponse : list R;
  rt60 : Rt60.RT60Result
}.

Record DiscoveryData : Type := {
  noiseFloor : option NoiseFloor.NoiseFloorResult;
  clapResults : list ImpulseCaptureResult
}.

Definition noiseScore (rating : NoiseFloor.Rating) : R :=
  match rating with
  | NoiseFloor.excellent => 25
  | NoiseFloor.good => 20
  | NoiseFloor.fair => 12
  | NoiseFloor.poor => 5
  end.

Definition avgRT60 (clapResults : list ImpulseCaptureResult) : R :=
  fold_left (fun sum r => sum + Rt60.rt60 (rt60 r)) clapResults 0
  / INR (length clapResults).

Definition rt60Score (clapResults : list ImpulseCaptureResult) : R :=
  Rmax 0 (25 - Rabs (avgRT60 clapResults - 14 / 10) * 20).

(** [computeOverallScore], a function of the component's [data]. *)
Definition computeOverallScore (data : DiscoveryData) : Z :=
  let score := 50 in
  let score :=
    match noiseFloor data with
    | Some result => score + noiseScore (NoiseFloor.rating result)
    | None => score
    end in
  let score :=
    if (0 <? Z.of_nat (length (clapResults data)))%Z
    then score + rt60Score (clapResults data)
    else score in
  Z.max 0 (Z.min 100 (round score)).

End DiscoveryStepper.

(* ================================================================== *)
(** * Properties *)
(* ================================================================== *)

Module JsQFacts.
Import JsQ.
Local Open Scope Q_scope.

Lemma ltb_lt x y : ltb x y = true <-> x < y.
Proof.
  unfold ltb. rewrite negb_true_iff.
  destruct (Qle_bool y x) eqn:E.
  - apply Qle_bool_iff in E. split; [discriminate|].
    intros H. exfalso. apply (Qlt_irrefl x). eapply Qlt_le_trans; eauto.
  - split; [intros _|reflexivity].
    apply Qnot_le_lt. intros H. apply Qle_bool_iff in H. congruence.
Qed.

Lemma ltb_ge x y : ltb x y = false <-> y <= x.
Proof.
  unfold ltb. rewrite negb_false_iff. apply Qle_bool_iff.
Qed.

Lemma leb_le x y : leb x y = true <-> x <= y.
Proof. apply Qle_bool_iff. Qed.

Lemma leb_gt x y : leb x y = false <-> y < x.
Proof.
  unfold leb. destruct (Qle_bool x y) eqn:E.
  - apply Qle_bool_iff in E. split; [discriminate|].
    intros H. exfalso. apply (Qlt_irrefl y). eapply Qlt_le_trans; eauto.
  - split; [intros _|reflexivity].
    apply Qnot_le_lt. intros H. apply Qle_bool_iff in H. congruence.
Qed.

Lemma round_mono x y : x <= y -> (round x <= round y)%Z.
Proof.
  intros H. unfold round. apply Qfloor_resp_le.
  apply Qplus_le_compat; [exact H | apply Qle_refl].
Qed.

Lemma round_comp x y : x == y -> round x = round y.
Proof. intros H. unfold round. now rewrite H. Qed.

(** Products as the code computes them: 0.7 and 0.3 are not binary
    fractions, and the rounded products fall on either side of the
    exact ones. *)
Example fmul_examples :
  floor (fmul (7 # 10) 22050) = 15434%Z /\
  floor ((7 # 10) * 22050) = 15435%Z /\
  floor (fmul (3 # 10) 44100) = 13230%Z /\
  floor (fmul (1 # 4) 22050) = 5512%Z /\
  fmul (1 # 10) 3 == 5404319552844596 # 18014398509481984.
Proof. vm_compute. repeat split; reflexivity. Qed.

End JsQFacts.

Module CentresFacts.
Import Centres.
Local Open Scope Q_scope.

Lemma key_eqb_eq a b : key_eqb a b = true <-> a = b.
Proof. destruct a, b; simpl; split; intros H; try reflexivity; discriminate. Qed.

Lemma band_table : forall k, In (k, band k) ENERGY_BANDS.
Proof. destruct k; simpl; auto 10. Qed.

Lemma table_band : forall k lh, In (k, lh) ENERGY_BANDS -> lh = band k.
Proof.
  intros k lh H. simpl in H.
  repeat (destruct H as [H|H]; [inversion H; subst; reflexivity|]).
  destruct H.
Qed.

Lemma low_le_high : forall k, lowHz k <= highHz k.
Proof. destruct k; unfold lowHz, highHz; simpl; discriminate. Qed.

Lemma high_le_low : forall a b, (position a < position b)%nat -> highHz a <= lowHz b.
Proof.
  destruct a, b; unfold lowHz, highHz; simpl; intros H;
    try discriminate; exfalso; lia.
Qed.

End CentresFacts.

(* ------------------------------------------------------------------ *)
(** ** Band ranges (fftAnalyser.ts, compatibilityScorer.ts) *)
(* ------------------------------------------------------------------ *)

Module BandFacts.
Import Centres FftAnalyser JsQFacts CentresFacts.
Local Open Scope Q_scope.

Lemma In_loopBins lowBin highBin len i :
  In i (loopBins lowBin highBin len) <->
  (lowBin <= i /\ i <= highBin /\ i < len)%Z.
Proof.
  unfold loopBins. rewrite in_map_iff. split.
  - intros [k [Hk Hin]]. apply in_seq in Hin. lia.
  - intros H. exists (Z.to_nat (i - lowBin)). split; [lia|].
    apply in_seq. lia.
Qed.

Lemma frequencyToBin_mono sampleRate fftSize f g :
  0 < sampleRate -> 0 < fftSize -> f <= g ->
  (frequencyToBin f sampleRate fftSize <= frequencyToBin g sampleRate fftSize)%Z.
Proof.
  intros Hs Hf Hfg. unfold frequencyToBin. apply round_mono.
  unfold Qdiv. apply Qmult_le_compat_r.
  - apply Qmult_le_compat_r; [exact Hfg | apply Qlt_le_weak; exact Hf].
  - apply Qlt_le_weak, Qinv_lt_0_compat; exact Hs.
Qed.

(** The literal ranges are mutually exclusive on frequencies. *)
Lemma inBandHz_unique hz a b : inBandHz a hz -> inBandHz b hz -> a = b.
Proof.
  unfold inBandHz, lowHz, highHz.
  destruct a, b; simpl; intros [H1 H2] [H3 H4];
    try reflexivity; exfalso; lra.
Qed.

Ltac band_cases :=
  repeat match goal with
  | |- context [JsQ.leb ?a ?b] =>
      let E := fresh "E" in destruct (JsQ.leb a b) eqn:E;
      [apply leb_le in E | apply leb_gt in E]; simpl
  | |- context [JsQ.ltb ?a ?b] =>
      let E := fresh "E" in destruct (JsQ.ltb a b) eqn:E;
      [apply ltb_lt in E | apply ltb_ge in E]; simpl
  end.

Lemma frequencyToCentre_sound hz k :
  frequencyToCentre hz = Some k ->
  lowHz k <= hz /\ (hz < highHz k \/ (k = crown /\ 4000 <= hz)).
Proof.
  unfold frequencyToCentre, ENERGY_BANDS, firstBand.
  band_cases; intros H; inversion H; subst; clear H;
    unfold lowHz, highHz; simpl; split;
    try (left; lra); try (right; split; [reflexivity|lra]); try lra.
Qed.

Lemma frequencyToCentre_complete hz k :
  inBandHz k hz -> frequencyToCentre hz = Some k.
Proof.
  unfold inBandHz, lowHz, highHz, frequencyToCentre, ENERGY_BANDS, firstBand.
  destruct k; simpl; intros [H1 H2]; band_cases;
    try reflexivity; exfalso; lra.
Qed.

Lemma frequencyToCentre_crown hz :
  1024 <= hz -> frequencyToCentre hz = Some crown.
Proof.
  unfold frequencyToCentre, ENERGY_BANDS, firstBand.
  intros H; band_cases; try reflexivity; exfalso; lra.
Qed.

(** C1, as stated, fails: [bandEnergy] reads the bins [lowBin..highBin]
    inclusive, so at 44.1 kHz with an 8192-point FFT (4096 bins) bin 24,
    the rounding of 128 Hz, is read both for root (32-128 Hz) and for
    sacral (128-256 Hz). *)
Lemma C1_bins_not_disjoint : ~ bins_pairwise_disjoint 4096 44100 8192.
Proof.
  intros H. apply (H root sacral 24%Z); [discriminate| |];
    apply In_loopBins; vm_compute; intuition discriminate.
Qed.

(** C1 (amended): for a positive sample rate and FFT size, a bin read for
    two different bands is the boundary bin they share (the last bin of
    the lower band, which is the first bin of the higher one); on
    frequencies the literal half-open ranges are mutually exclusive,
    [frequencyToCentre] returns the band whose range holds the frequency,
    and every frequency from 1024 Hz up maps to crown. *)
Theorem C1_bands_share_only_boundary_bin :
  forall (len : Z) (sampleRate fftSize : Q),
    0 < sampleRate -> 0 < fftSize ->
    (forall a b i, (position a < position b)%nat ->
       In i (centreBins a len sampleRate fftSize) ->
       In i (centreBins b len sampleRate fftSize) ->
       i = frequencyToBin (highHz a) sampleRate fftSize /\
       i = frequencyToBin (lowHz b) sampleRate fftSize) /\
    (forall hz a b, inBandHz a hz -> inBandHz b hz -> a = b) /\
    (forall hz k, inBandHz k hz -> frequencyToCentre hz = Some k) /\
    (forall hz k, frequencyToCentre hz = Some k ->
       lowHz k <= hz /\ (hz < highHz k \/ (k = crown /\ 4000 <= hz))) /\
    (forall hz, 1024 <= hz -> frequencyToCentre hz = Some crown).
Proof.
  intros len sampleRate fftSize Hs Hf. repeat split.
  - apply In_loopBins in H0. apply In_loopBins in H1.
    pose proof (frequencyToBin_mono sampleRate fftSize _ _ Hs Hf
                  (high_le_low a b H)). lia.
  - apply In_loopBins in H0. apply In_loopBins in H1.
    pose proof (frequencyToBin_mono sampleRate fftSize _ _ Hs Hf
                  (high_le_low a b H)). lia.
  - intros hz a b. apply inBandHz_unique.
  - intros hz k. apply frequencyToCentre_complete.
  - apply frequencyToCentre_sound in H. tauto.
  - apply frequencyToCentre_sound in H. tauto.
  - apply frequencyToCentre_crown.
Qed.

Lemma C1_bands_share_only_boundary_bin_witness :
  (0 < 44100 /\ 0 < 8192) /\
  (forall hz, 1024 <= hz -> frequencyToCentre hz = Some crown).
Proof.
  split; [split; reflexivity|].
  apply (C1_bands_share_only_boundary_bin 4096 44100 8192); reflexivity.
Defined.

End BandFacts.

(* ------------------------------------------------------------------ *)
(** ** Compatibility score (compatibilityScorer.ts) *)
(* ------------------------------------------------------------------ *)

Module ScorerFacts.
Import Centres CompatibilityScorer JsQFacts.
Local Open Scope Q_scope.




Lemma headroomCount_is_7 input : snd (headroomLoop input) = 7%Z.
Proof. reflexivity. Qed.

Lemma avgHeadroom_eq input :
  avgHeadroom input = fst (headroomLoop input) / 7.
Proof.
  unfold avgHeadroom. pose proof (headroomCount_is_7 input) as H.
  destruct (headroomLoop input) as [s c]. simpl in *. subst c. reflexivity.
Qed.







End ScorerFacts.

(* ------------------------------------------------------------------ *)
(** ** Overtone confidence (overtoneDetector.ts) *)
(* ------------------------------------------------------------------ *)

Module OvertoneFacts.
Import OvertoneDetector JsQFacts.
Local Open Scope Q_scope.

Lemma classifyStep_cases fundamental hs mc p :
  classifyStep fundamental (hs, mc) p = (hs, mc) \/
  exists h, classifyStep fundamental (hs, mc) p = (hs ++ [h], (mc + 1)%Z).
Proof.
  unfold classifyStep.
  match goal with |- context [if ?c then _ else _] => destruct c end;
    [right; eexists; reflexivity | left; reflexivity].
Qed.

Lemma classify_fold_count fundamental (l : list Peak.t) :
  forall (hs : list HarmonicPeak) (mc : Z),
    let r := fold_left (classifyStep fundamental) l (hs, mc) in
    (snd r - mc = Z.of_nat (length (fst r)) - Z.of_nat (length hs))%Z /\
    (0 <= snd r - mc <= Z.of_nat (length l))%Z.
Proof.
  induction l as [|p l IH]; intros hs mc r; subst r.
  - simpl. lia.
  - cbn [fold_left].
    destruct (classifyStep_cases fundamental hs mc p) as [E|[h E]]; rewrite E.
    + destruct (IH hs mc) as [H1 H2]. simpl length. split; lia.
    + destruct (IH (hs ++ [h]) (mc + 1)%Z) as [H1 H2].
      rewrite length_app in H1. simpl length in *. split; lia.
Qed.

Lemma classify_count fundamental peaks :
  (snd (classify fundamental peaks)
   = Z.of_nat (length (fst (classify fundamental peaks))))%Z /\
  (0 <= snd (classify fundamental peaks)
     <= Z.min (Z.of_nat (length peaks)) 16)%Z.
Proof.
  unfold classify.
  destruct (classify_fold_count fundamental (firstn 16 peaks) [] 0%Z)
    as [H1 H2].
  cbv zeta in H1, H2. change (length (@nil HarmonicPeak)) with 0%nat in H1.
  rewrite length_firstn in H2. split; lia.
Qed.

(** What the code does guarantee: the confidence is the number of
    accepted harmonics over [min(peaks.length, 10)], 0 without peaks,
    and it lies between 0 and 1.6. *)
Lemma confidence_formula magnitudeSpectrum sampleRate fftSize :
  let r := detectOvertones magnitudeSpectrum sampleRate fftSize in
  let n := Z.of_nat (length (findSpectralPeaks magnitudeSpectrum
                               sampleRate fftSize (-60) 5)) in
  confidence r =
    (if (0 <? n)%Z
     then inject_Z (Z.of_nat (length (harmonics r))) / inject_Z (Z.min n 10)
     else 0) /\
  (Z.of_nat (length (harmonics r)) <= Z.min n 16)%Z /\
  0 <= confidence r <= 8 # 5.
Proof.
  intros r n. subst r. unfold detectOvertones.
  set (f := harmonicProductSpectrum magnitudeSpectrum sampleRate fftSize 5).
  set (peaks := findSpectralPeaks magnitudeSpectrum sampleRate fftSize (-60) 5).
  fold peaks in n.
  destruct (classify_count f peaks) as [H1 H2].
  destruct (classify f peaks) as [hs mc]. simpl in H1, H2. simpl.
  fold n. fold n in H2. rewrite <- H1.
  split; [reflexivity|]. split; [lia|].
  destruct (0 <? n)%Z eqn:En.
  - apply Z.ltb_lt in En.
    assert (Hd : 0 < inject_Z (Z.min n 10)).
    { replace 0 with (inject_Z 0) by reflexivity. rewrite <- Zlt_Qlt. lia. }
    split.
    + apply Qle_shift_div_l; [exact Hd|].
      rewrite Qmult_0_l. replace 0 with (inject_Z 0) by reflexivity.
      rewrite <- Zle_Qle. lia.
    + apply Qle_shift_div_r; [exact Hd|].
      unfold Qle, Qmult, inject_Z. cbn [Qnum Qden]. lia.
  - split; [apply Qle_refl|discriminate].
Qed.

(** C2, at the failing input: all sixteen partials of [richSpectrum] are
    accepted as harmonics, the count is divided by [min(16, 10) = 10],
    and the confidence is 1.6, outside [0, 1]. *)
Theorem C2_confidence_exceeds_one :
  let r := detectOvertones richSpectrum 44100 8192 in
  length (harmonics r) = 16%nat /\
  confidence r == 8 # 5 /\
  1 < confidence r.
Proof.
  vm_compute. repeat split; reflexivity.
Qed.

End OvertoneFacts.

(* ------------------------------------------------------------------ *)
(** ** Transient detection (transientDetector.ts) *)
(* ------------------------------------------------------------------ *)

Module LoopsFacts.
Import Loops.

Lemma In_zrange lo hi w : In w (zrange lo hi) <-> (lo <= w < hi)%Z.
Proof.
  unfold zrange. rewrite in_map_iff. split.
  - intros [k [Hk Hin]]. apply in_seq in Hin. lia.
  - intros H. exists (Z.to_nat (w - lo)). split; [lia|]. apply in_seq. lia.
Qed.

Lemma zrange_empty lo hi : (hi <= lo)%Z -> zrange lo hi = [].
Proof.
  intros H. unfold zrange. replace (Z.to_nat (hi - lo)) with 0%nat by lia.
  reflexivity.
Qed.

Lemma zrange_snoc lo hi :
  (lo <= hi)%Z -> zrange lo (hi + 1) = zrange lo hi ++ [hi].
Proof.
  intros H. unfold zrange.
  replace (Z.to_nat (hi + 1 - lo)) with (Z.to_nat (hi - lo) + 1)%nat by lia.
  rewrite seq_app, map_app. simpl. f_equal. f_equal. lia.
Qed.

End LoopsFacts.

Module TransientFacts.
Import Loops LoopsFacts TransientDetector JsQFacts.
Local Open Scope Q_scope.

(** [numWindows] is the integer quotient for a positive window size. *)
Lemma numWindows_div buffer cfg :
  (0 < windowSize cfg)%Z ->
  numWindows buffer cfg = (Z.of_nat (length buffer) / windowSize cfg)%Z.
Proof.
  intros H. unfold numWindows, JsQ.floor.
  destruct (windowSize cfg) as [|p|p]; try lia.
  unfold Qdiv, Qinv, Qmult, inject_Z, Qfloor. cbn [Qnum Qden].
  rewrite Z.mul_1_r, Pos.mul_1_l. reflexivity.
Qed.

Lemma ordered_pairs_snoc R events x :
  ordered_pairs R events ->
  (forall e, In e events -> R e x) ->
  ordered_pairs R (events ++ [x]).
Proof.
  intros Hp Hx i j ei ej Hij Hi Hj.
  assert (Hjl : (j < length (events ++ [x]))%nat).
  { apply nth_error_Some. congruence. }
  rewrite length_app in Hjl. simpl in Hjl.
  destruct (Nat.eq_dec j (length events)) as [Ej|Ej].
  - subst j. rewrite nth_error_app2 in Hj by lia.
    rewrite Nat.sub_diag in Hj. simpl in Hj. inversion Hj; subst ej.
    rewrite nth_error_app1 in Hi by lia.
    apply Hx. eapply nth_error_In; eauto.
  - rewrite nth_error_app1 in Hj by lia.
    rewrite nth_error_app1 in Hi by lia.
    exact (Hp i j ei ej Hij Hi Hj).
Qed.

Section LoopFacts.
Variable buffer : list Q.
Variable sampleRate : Q.
Variable cfg : TransientDetectorConfig.
Variable energies : list Q.
Variable avgWindow : Z.
Variable minSamples : Z.

Let step := detectStep buffer sampleRate cfg energies avgWindow minSamples.
Let upTo := loopUpTo buffer sampleRate cfg energies avgWindow minSamples.

(** What one pass of the loop body does. *)
Lemma detectStep_cases events lastDetected w :
  let sampleIndex' := (w * windowSize cfg)%Z in
  let passes :=
    aboveThreshold cfg (ratioAt energies avgWindow w) = true /\
    (minSamples <= sampleIndex' - lastDetected)%Z in
  (step (events, lastDetected) w = (events, lastDetected) /\
   (~ passes \/ peakAt buffer cfg sampleIndex' < minAmplitude cfg)) \/
  (passes /\ minAmplitude cfg <= peakAt buffer cfg sampleIndex' /\
   exists e,
     step (events, lastDetected) w = (events ++ [e], sampleIndex') /\
     sampleIndex e = sampleIndex' /\
     timeSeconds e = inject_Z sampleIndex' / sampleRate).
Proof.
  intros s passes. subst step passes. unfold detectStep. fold s.
  destruct (aboveThreshold cfg (ratioAt energies avgWindow w)) eqn:Ea.
  - destruct (minSamples <=? s - lastDetected)%Z eqn:Eg.
    + apply Z.leb_le in Eg.
      destruct (JsQ.ltb (peakAt buffer cfg s) (minAmplitude cfg)) eqn:Ep.
      * apply ltb_lt in Ep. left. split; [reflexivity|]. right. exact Ep.
      * apply ltb_ge in Ep. right. split; [split; [reflexivity|exact Eg]|].
        split; [exact Ep|]. eexists. split; [reflexivity|].
        split; reflexivity.
    + apply Z.leb_gt in Eg. left. split; [reflexivity|]. left.
      intros [_ H]. lia.
  - left. split; [reflexivity|]. left. intros [H _]. discriminate.
Qed.

Lemma upTo_start w : (w <= avgWindow)%Z -> upTo w = ([], (- minSamples)%Z).
Proof.
  intros H. subst upTo. unfold loopUpTo. now rewrite zrange_empty.
Qed.

Lemma upTo_next w : (avgWindow <= w)%Z -> upTo (w + 1) = step (upTo w) w.
Proof.
  intros H. subst upTo step. unfold loopUpTo.
  rewrite zrange_snoc by exact H. rewrite fold_left_app. reflexivity.
Qed.

(** Induction along the loop, from any window [a] it has reached. *)
Lemma upTo_ind_from (a : Z) (P : Z -> list TransientEvent * Z -> Prop) :
  (avgWindow <= a)%Z ->
  P a (upTo a) ->
  (forall w st, (a <= w)%Z -> P w st -> P (w + 1)%Z (step st w)) ->
  forall w, (a <= w)%Z -> P w (upTo w).
Proof.
  intros Ha H0 HS w Hw.
  replace w with (a + Z.of_nat (Z.to_nat (w - a)))%Z by lia.
  induction (Z.to_nat (w - a)) as [|k IH].
  - rewrite Z.add_0_r. exact H0.
  - replace (a + Z.of_nat (S k))%Z with (a + Z.of_nat k + 1)%Z by lia.
    rewrite upTo_next by lia. apply HS; [lia|exact IH].
Qed.

Lemma upTo_ind (P : Z -> list TransientEvent * Z -> Prop) :
  P avgWindow ([], (- minSamples)%Z) ->
  (forall w st, (avgWindow <= w)%Z -> P w st -> P (w + 1)%Z (step st w)) ->
  forall w, (avgWindow <= w)%Z -> P w (upTo w).
Proof.
  intros H0 HS. apply upTo_ind_from; [lia| |exact HS].
  rewrite upTo_start by lia. exact H0.
Qed.

(** Every recorded event sits at the start of a window the loop has
    visited, and [lastDetectedSample] is the sample index of the last
    recorded event. *)
Lemma upTo_events w :
  (avgWindow <= w)%Z ->
  (forall e, In e (fst (upTo w)) ->
     exists w', (avgWindow <= w' < w)%Z /\
       sampleIndex e = (w' * windowSize cfg)%Z /\
       timeSeconds e = inject_Z (sampleIndex e) / sampleRate) /\
  snd (upTo w) = lastRecorded minSamples (fst (upTo w)).
Proof.
  apply (upTo_ind (fun w st =>
    (forall e, In e (fst st) ->
       exists w', (avgWindow <= w' < w)%Z /\
         sampleIndex e = (w' * windowSize cfg)%Z /\
         timeSeconds e = inject_Z (sampleIndex e) / sampleRate) /\
    snd st = lastRecorded minSamples (fst st))).
  - split; [intros e []|reflexivity].
  - intros w0 [events lastD] Hw0 [Hev Hlast]. simpl in Hev, Hlast.
    destruct (detectStep_cases events lastD w0)
      as [[E _]|[_ [_ [e [E [Hs Ht]]]]]]; rewrite E; simpl.
    + split; [|exact Hlast].
      intros e He. destruct (Hev e He) as [w' [H1 H2]].
      exists w'. split; [lia|exact H2].
    + split.
      * intros e' He'. apply in_app_or in He'. destruct He' as [He'|[He'|[]]].
        -- destruct (Hev e' He') as [w' [H1 H2]].
           exists w'. split; [lia|exact H2].
        -- subst e'. exists w0. split; [lia|]. split; [exact Hs|].
           rewrite Hs. exact Ht.
      * unfold lastRecorded. rewrite map_app. simpl.
        rewrite last_last. symmetry. exact Hs.
Qed.

(** With a positive window size the events are in increasing order of
    sample index and any two are at least [minSamples] samples apart. *)
Lemma upTo_spaced w :
  (0 < windowSize cfg)%Z -> (avgWindow <= w)%Z ->
  ordered_pairs
    (fun ei ej => (sampleIndex ei < sampleIndex ej)%Z /\
                  (minSamples <= sampleIndex ej - sampleIndex ei)%Z)
    (fst (upTo w)) /\
  (forall e, In e (fst (upTo w)) ->
     (sampleIndex e <= snd (upTo w))%Z /\
     (sampleIndex e < w * windowSize cfg)%Z).
Proof.
  intros Hws.
  apply (upTo_ind (fun w st =>
    ordered_pairs
      (fun ei ej => (sampleIndex ei < sampleIndex ej)%Z /\
                    (minSamples <= sampleIndex ej - sampleIndex ei)%Z)
      (fst st) /\
    (forall e, In e (fst st) ->
       (sampleIndex e <= snd st)%Z /\
       (sampleIndex e < w * windowSize cfg)%Z))).
  - split.
    + intros i j ei ej _ Hi. destruct i; discriminate.
    + intros e [].
  - intros w0 [events lastD] Hw0 [Hord Hle]. simpl in Hord, Hle.
    destruct (detectStep_cases events lastD w0)
      as [[E _]|[[_ Hgate] [_ [e [E [Hs _]]]]]]; rewrite E; simpl.
    + split; [exact Hord|].
      intros e He. destruct (Hle e He). split; [assumption|nia].
    + split.
      * apply ordered_pairs_snoc; [exact Hord|].
        intros e' He'. destruct (Hle e' He'). rewrite Hs. split; lia.
      * intros e' He'. apply in_app_or in He'. destruct He' as [He'|[He'|[]]].
        -- destruct (Hle e' He'). split; nia.
        -- subst e'. rewrite Hs. split; nia.
Qed.

(** The events recorded after the loop has reached window [a] sit at
    windows from [a] on. *)
Lemma upTo_later a w :
  (avgWindow <= a)%Z -> (a <= w)%Z ->
  exists later,
    fst (upTo w) = fst (upTo a) ++ later /\
    forall e, In e later ->
      exists w', (a <= w' < w)%Z /\ sampleIndex e = (w' * windowSize cfg)%Z.
Proof.
  intros Ha.
  apply (upTo_ind_from a (fun w st =>
    exists later,
      fst st = fst (upTo a) ++ later /\
      forall e, In e later ->
        exists w', (a <= w' < w)%Z /\ sampleIndex e = (w' * windowSize cfg)%Z));
    [exact Ha| |].
  - exists []. split; [now rewrite app_nil_r|intros e []].
  - intros w0 [events lastD] Hw0 [later [Hl Hin]]. simpl in Hl.
    destruct (detectStep_cases events lastD w0)
      as [[E _]|[_ [_ [e [E [Hs _]]]]]]; rewrite E; simpl.
    + exists later. split; [exact Hl|].
      intros e He. destruct (Hin e He) as [w' [H1 H2]].
      exists w'. split; [lia|exact H2].
    + exists (later ++ [e]). split; [rewrite Hl; now rewrite app_assoc|].
      intros e' He'. apply in_app_or in He'. destruct He' as [He'|[He'|[]]].
      * destruct (Hin e' He') as [w' [H1 H2]].
        exists w'. split; [lia|exact H2].
      * subst e'. exists w0. split; [lia|exact Hs].
Qed.

End LoopFacts.

(** C5, at the failing input: [minIntervalSeconds] is documented as the
    "minimum time (seconds) between detected transients", but the gate
    compares sample counts with [Math.floor(minIntervalSeconds *
    sampleRate)].  At 22050 Hz a minimum interval of 0.25 s is
    [floor(5512.5) = 5512] samples, and the two claps of [twoClaps],
    5512 samples (0.24998 s) apart, are both reported: the events are
    closer than [minIntervalSeconds]. *)
Lemma C5_events_closer_than_minIntervalSeconds :
  ~ spaced_by_minIntervalSeconds twoClaps 22050 quarterSecond.
Proof.
  assert (E : exists e1 e2,
             detectTransients twoClaps 22050 quarterSecond = [e1; e2] /\
             sampleIndex e1 = 160%Z /\ sampleIndex e2 = 5672%Z /\
             timeSeconds e2 - timeSeconds e1 < 1 # 4).
  { eexists. eexists. split; [vm_compute; reflexivity|].
    split; [reflexivity|]. split; reflexivity. }
  destruct E as [e1 [e2 [E [_ [_ Hlt]]]]].
  unfold spaced_by_minIntervalSeconds. rewrite E. intros H.
  specialize (H 0%nat 1%nat e1 e2 (le_n 1) eq_refl eq_refl).
  apply (Qlt_not_le _ _ Hlt). exact H.
Qed.

(** C8: when the loop reaches a window, [lastDetectedSample] is the
    position of the last event actually recorded (or its initial value);
    a window that passes the energy-ratio check and the interval check
    against it but whose peak is below [minAmplitude] leaves both the
    events and [lastDetectedSample] as they were, so the next window is
    gated against the same recorded event; and with a positive window
    size no event at the suppressed window is ever recorded. *)
Theorem C8_amplitude_gate_keeps_interval_gate :
  forall (buffer : list Q) (sampleRate : Q) (cfg : TransientDetectorConfig)
         (w : Z),
    (avgWindowSize buffer cfg <= w)%Z ->
    aboveThreshold cfg
      (ratioAt (computeEnergies buffer cfg) (avgWindowSize buffer cfg) w) = true ->
    (minIntervalSamples sampleRate cfg
       <= w * windowSize cfg - snd (stateAt buffer sampleRate cfg w))%Z ->
    peakAt buffer cfg (w * windowSize cfg) < minAmplitude cfg ->
    snd (stateAt buffer sampleRate cfg w)
      = lastRecorded (minIntervalSamples sampleRate cfg)
                     (fst (stateAt buffer sampleRate cfg w)) /\
    stateAt buffer sampleRate cfg (w + 1) = stateAt buffer sampleRate cfg w /\
    ((0 < windowSize cfg)%Z ->
     forall w2 e, (w < w2)%Z ->
       In e (fst (stateAt buffer sampleRate cfg w2)) ->
       sampleIndex e <> (w * windowSize cfg)%Z).
Proof.
  intros buffer sampleRate cfg w Hw Hratio Hgate Hpeak.
  unfold stateAt in *. cbv zeta in *.
  set (en := computeEnergies buffer cfg) in *.
  set (avg := avgWindowSize buffer cfg) in *.
  set (m := minIntervalSamples sampleRate cfg) in *.
  assert (Hnext : loopUpTo buffer sampleRate cfg en avg m (w + 1)
                  = loopUpTo buffer sampleRate cfg en avg m w).
  { rewrite (upTo_next buffer sampleRate cfg en avg m w Hw).
    destruct (loopUpTo buffer sampleRate cfg en avg m w) as [events lastD].
    simpl in Hgate.
    destruct (detectStep_cases buffer sampleRate cfg en avg m events lastD w)
      as [[E _]|[_ [Hp _]]]; [exact E|].
    exfalso. apply (Qlt_not_le _ _ Hpeak). exact Hp. }
  split; [|split].
  - apply (upTo_events buffer sampleRate cfg en avg m w Hw).
  - exact Hnext.
  - intros Hws w2 e Hw2 He.
    destruct (upTo_later buffer sampleRate cfg en avg m (w + 1) w2)
      as [later [Hl Hin]]; [lia|lia|].
    rewrite Hl, Hnext in He. apply in_app_or in He. destruct He as [He|He].
    + destruct (upTo_spaced buffer sampleRate cfg en avg m w Hws Hw)
        as [_ Hlt].
      destruct (Hlt e He). lia.
    + destruct (Hin e He) as [w' [H1 H2]]. rewrite H2. nia.
Qed.

Lemma C8_amplitude_gate_keeps_interval_gate_witness :
  stateAt quietThenLoud 44100 (withDefaults shortWindows) 21
    = stateAt quietThenLoud 44100 (withDefaults shortWindows) 20 /\
  map sampleIndex (detectTransients quietThenLoud 44100 shortWindows) = [84%Z].
Proof.
  split; [|vm_compute; reflexivity].
  apply (C8_amplitude_gate_keeps_interval_gate
           quietThenLoud 44100 (withDefaults shortWindows) 20).
  - vm_compute. discriminate.
  - vm_compute. reflexivity.
  - vm_compute. discriminate.
  - vm_compute. reflexivity.
Defined.

(** C10: every reported event sits at the start of a window
    ([sampleIndex] is a multiple of [windowSize]) that is not among the
    first [min(20, floor(buffer.length / windowSize))] windows; so with
    the default window size of 512 no event lies in the first
    [20 * 512 = 10240] samples of a recording, however long. *)
Theorem C10_no_event_in_first_windows :
  forall (buffer : list Q) (sampleRate : Q) (config : PartialConfig)
         (e : TransientEvent),
    In e (detectTransients buffer sampleRate config) ->
    let cfg := withDefaults config in
    let n := JsQ.floor (inject_Z (Z.of_nat (length buffer))
                        / inject_Z (windowSize cfg)) in
    (exists w, (Z.min 20 n <= w < n)%Z /\
               sampleIndex e = (w * windowSize cfg)%Z) /\
    (windowSize cfg = windowSize DEFAULT_CONFIG ->
     (20 * 512 <= sampleIndex e)%Z).
Proof.
  intros buffer sampleRate config e He cfg n.
  unfold detectTransients, detectWith, stateAt in He. fold cfg in He.
  cbv zeta in He.
  assert (Hn : (avgWindowSize buffer cfg <= numWindows buffer cfg)%Z)
    by (unfold avgWindowSize; lia).
  destruct (upTo_events buffer sampleRate cfg (computeEnergies buffer cfg)
              (avgWindowSize buffer cfg) (minIntervalSamples sampleRate cfg)
              (numWindows buffer cfg) Hn) as [Hev _].
  destruct (Hev e He) as [w [Hw [Hs _]]].
  change (avgWindowSize buffer cfg) with (Z.min 20 n) in Hw.
  change (numWindows buffer cfg) with n in Hw.
  split; [exists w; split; assumption|].
  intros Hdef. rewrite Hs, Hdef.
  change (windowSize DEFAULT_CONFIG) with 512%Z. lia.
Qed.

Lemma C10_no_event_in_first_windows_witness :
  exists e, In e (detectTransients oneClap 44100 emptyConfig) /\
            (20 * 512 <= sampleIndex e)%Z.
Proof.
  assert (Hin : exists e, In e (detectTransients oneClap 44100 emptyConfig)).
  { eexists. vm_compute. left. reflexivity. }
  destruct Hin as [e He]. exists e. split; [exact He|].
  apply (C10_no_event_in_first_windows oneClap 44100 emptyConfig e He).
  reflexivity.
Defined.

End TransientFacts.

(* ------------------------------------------------------------------ *)
(** ** JavaScript numbers on reals *)
(* ------------------------------------------------------------------ *)

Module JsRFacts.
Import JsR.
Local Open Scope R_scope.

Lemma floor_eq (x : R) (n : Z) : IZR n <= x < IZR n + 1 -> floor x = n.
Proof.
  intros H. unfold floor. symmetry. apply Int_part_spec. lra.
Qed.

Lemma round_eq (x : R) (n : Z) :
  IZR n - / 2 <= x < IZR n + / 2 -> round x = n.
Proof.
  intros H. unfold round. symmetry. apply Int_part_spec. lra.
Qed.

Lemma round_near (x : R) : x - / 2 < IZR (round x) <= x + / 2.
Proof.
  unfold round. destruct (base_Int_part (x + / 2)) as [H1 H2]. lra.
Qed.

Lemma Rleb_le x y : leb x y = true <-> x <= y.
Proof.
  unfold leb. destruct (Rle_dec x y); split; intros; try reflexivity;
    try assumption; try discriminate; contradiction.
Qed.

Lemma Rltb_lt x y : ltb x y = true <-> x < y.
Proof.
  unfold ltb. destruct (Rlt_dec x y); split; intros; try reflexivity;
    try assumption; try discriminate; contradiction.
Qed.

Lemma Rltb_ge x y : ltb x y = false <-> y <= x.
Proof.
  unfold ltb. destruct (Rlt_dec x y); split; intros; try reflexivity;
    try discriminate; lra.
Qed.

Lemma ln_10_pos : 0 < ln 10.
Proof. rewrite <- ln_1. apply ln_increasing; lra. Qed.

Lemma ln_2_pos : 0 < ln 2.
Proof. rewrite <- ln_1. apply ln_increasing; lra. Qed.

Lemma ln_nonpos x : 0 < x -> x <= 1 -> ln x <= 0.
Proof.
  intros H0 H1. destruct (Req_dec x 1) as [E|E].
  - subst x. rewrite ln_1. lra.
  - rewrite <- ln_1. left. apply ln_increasing; lra.
Qed.

(** [num_leb] is monotone in the bound. *)
Lemma num_leb_weaken v c d : c <= d -> num_leb v c = true -> num_leb v d = true.
Proof.
  intros Hcd. destruct v as [|r]; simpl; [reflexivity|].
  rewrite !Rleb_le. lra.
Qed.

End JsRFacts.

(* ------------------------------------------------------------------ *)
(** ** Schroeder integration and RT60 (rt60.ts) *)
(* ------------------------------------------------------------------ *)

Module Rt60Facts.
Import JsR JsRFacts Rt60.
Local Open Scope R_scope.

Lemma backwardIntegration_facts (squared : list R) :
  Forall (fun x => 0 <= x) squared ->
  length (backwardIntegration squared) = length squared /\
  Forall (fun e => 0 <= e <= hd 0 (backwardIntegration squared))
         (backwardIntegration squared) /\
  nonincreasing (backwardIntegration squared).
Proof.
  induction squared as [|x rest IH]; intros Hpos.
  - simpl. split; [reflexivity|]. split; [constructor|].
    intros i a b H. destruct i; discriminate.
  - inversion Hpos as [|? ? Hx Hrest]; subst.
    destruct (IH Hrest) as [Hlen [Hall Hmono]]. simpl.
    destruct (backwardIntegration rest) as [|e later] eqn:E.
    + simpl in Hlen. destruct rest; [|discriminate]. simpl.
      split; [reflexivity|]. split; [constructor; [lra|constructor]|].
      intros i a b H1 H2. destruct i; simpl in H2; discriminate.
    + simpl in *. split; [now rewrite Hlen|].
      inversion Hall as [|? ? He Hlater]; subst.
      split.
      * constructor; [lra|]. constructor; [lra|].
        eapply Forall_impl; [|exact Hlater]. simpl. intros a Ha. lra.
      * intros i a b H1 H2. destruct i as [|i].
        -- simpl in H1, H2. inversion H1; inversion H2; subst. lra.
        -- simpl in H1. apply (Hmono i a b H1 H2).
Qed.

Lemma squares_nonneg (impulseResponse : list R) :
  Forall (fun x => 0 <= x) (map (fun x => x * x) impulseResponse).
Proof.
  apply Forall_forall. intros y Hy. apply in_map_iff in Hy.
  destruct Hy as [x [E _]]. subst y. nra.
Qed.

Lemma energyCurve_facts (impulseResponse : list R) :
  length (energyCurve impulseResponse) = length impulseResponse /\
  Forall (fun e => 0 <= e <= hd 0 (energyCurve impulseResponse))
         (energyCurve impulseResponse) /\
  nonincreasing (energyCurve impulseResponse).
Proof.
  unfold energyCurve.
  destruct (backwardIntegration_facts _ (squares_nonneg impulseResponse))
    as [H1 H2].
  rewrite length_map in H1. split; assumption.
Qed.

(** The dB value of an energy between 0 and the total is at most 0. *)
Lemma dB_nonpos e total :
  0 < total -> 0 <= e <= total ->
  num_leb (num_scale 10 (log10 (e / total))) 0 = true.
Proof.
  intros Ht He. unfold log10.
  destruct (Rlt_dec 0 (e / total)) as [Hp|Hn]; simpl; [|reflexivity].
  apply Rleb_le.
  assert (Hle : e / total <= 1).
  { apply Rmult_le_reg_r with total; [exact Ht|].
    unfold Rdiv. rewrite Rmult_assoc, Rinv_l by lra. lra. }
  pose proof (ln_nonpos _ Hp Hle) as Hln. pose proof ln_10_pos as H10.
  assert (ln (e / total) / ln 10 <= 0).
  { unfold Rdiv at 1. apply Rmult_le_reg_r with (ln 10); [exact H10|].
    rewrite Rmult_assoc, Rinv_l by lra. lra. }
  lra.
Qed.

Lemma dB_total total :
  0 < total -> num_scale 10 (log10 (total / total)) = Num 0.
Proof.
  intros Ht. replace (total / total) with 1 by (field; lra).
  unfold log10. destruct (Rlt_dec 0 1) as [_|H]; [|lra].
  simpl. rewrite ln_1. f_equal. unfold Rdiv. ring.
Qed.

(** C6: for a non-empty impulse response the backward-integrated energy
    is non-increasing; when the total energy (its first value) is
    positive, the returned curve is the energy converted to dB relative
    to the total, its value at index 0 is 0 and every value is at most
    0; when the total energy is not positive the energy curve is
    returned unconverted and consists of zeros. *)
Theorem C6_schroeder_decay_curve :
  forall impulseResponse : list R,
    impulseResponse <> [] ->
    let energy := energyCurve impulseResponse in
    let total := hd 0 energy in
    nonincreasing energy /\
    (0 < total ->
     schroederIntegration impulseResponse
       = map (fun e => num_scale 10 (log10 (e / total))) energy /\
     nth_error (schroederIntegration impulseResponse) 0 = Some (Num 0) /\
     Forall (fun v => num_leb v 0 = true)
            (schroederIntegration impulseResponse)) /\
    (total <= 0 ->
     schroederIntegration impulseResponse = map Num energy /\
     Forall (fun e => e = 0) energy).
Proof.
  intros impulseResponse Hne energy total.
  destruct (energyCurve_facts impulseResponse) as [Hlen [Hall Hmono]].
  fold energy in Hlen, Hall, Hmono. fold total in Hall.
  split; [exact Hmono|].
  unfold schroederIntegration. fold energy.
  destruct energy as [|maxEnergy later] eqn:E.
  { destruct impulseResponse; [contradiction|discriminate]. }
  simpl in total. split.
  - intros Hpos. destruct (Rle_dec maxEnergy 0) as [Hle|_]; [subst total; lra|].
    split; [reflexivity|]. split.
    + simpl. f_equal. apply dB_total. exact Hpos.
    + apply Forall_forall. intros v Hv. apply in_map_iff in Hv.
      destruct Hv as [e [Ev He]]. subst v.
      rewrite Forall_forall in Hall. apply dB_nonpos; [exact Hpos|].
      apply Hall. exact He.
  - intros Hle. destruct (Rle_dec maxEnergy 0) as [_|Hn]; [|subst total; lra].
    split; [reflexivity|].
    eapply Forall_impl; [|exact Hall]. simpl. intros e He. subst total. lra.
Qed.

Lemma C6_schroeder_decay_curve_witness :
  nth_error (schroederIntegration [1; / 2; 0]) 0 = Some (Num 0).
Proof.
  apply (C6_schroeder_decay_curve [1; / 2; 0]); [discriminate|].
  simpl. lra.
Defined.

Lemma backwardIntegration_zeros (k : nat) :
  backwardIntegration (repeat 0 k) = repeat 0 k.
Proof.
  induction k as [|k IH]; [reflexivity|].
  simpl. rewrite IH. destruct k; simpl; [reflexivity|].
  f_equal. lra.
Qed.

Lemma backwardIntegration_padded (squared : list R) (k : nat) :
  backwardIntegration (squared ++ repeat 0 k)
    = backwardIntegration squared ++ repeat 0 k.
Proof.
  induction squared as [|x rest IH].
  - simpl. apply backwardIntegration_zeros.
  - simpl. rewrite IH.
    destruct (backwardIntegration rest) as [|e later] eqn:E.
    + simpl. destruct k; simpl; [reflexivity|]. f_equal. lra.
    + reflexivity.
Qed.

Lemma energyCurve_padded (impulseResponse : list R) (k : nat) :
  energyCurve (impulseResponse ++ repeat 0 k)
    = energyCurve impulseResponse ++ repeat 0 k.
Proof.
  unfold energyCurve. rewrite map_app, map_repeat.
  replace (0 * 0) with 0 by ring. apply backwardIntegration_padded.
Qed.

(** Behind a curve with positive total energy, padding shows as
    [-Infinity]. *)
Lemma schroederIntegration_padded (impulseResponse : list R) (k : nat) :
  0 < hd 0 (energyCurve impulseResponse) ->
  schroederIntegration (impulseResponse ++ repeat 0 k)
    = schroederIntegration impulseResponse ++ repeat NegInfinity k.
Proof.
  intros Hpos. unfold schroederIntegration. rewrite energyCurve_padded.
  destruct (energyCurve impulseResponse) as [|maxEnergy later];
    [simpl in Hpos; lra|].
  simpl in Hpos. rewrite <- app_comm_cons.
  destruct (Rle_dec maxEnergy 0) as [Hle|_]; [lra|].
  rewrite app_comm_cons, map_app, map_repeat. f_equal. f_equal.
  replace (0 / maxEnergy) with 0 by (field; lra).
  unfold log10. destruct (Rlt_dec 0 0) as [H|_]; [lra|reflexivity].
Qed.

(** A curve that reaches -25 dB comes from a positive total energy. *)
Lemma reaches25_total_pos (impulseResponse : list R) :
  reaches25 (schroederIntegration impulseResponse) ->
  0 < hd 0 (energyCurve impulseResponse).
Proof.
  intros [v [Hin Hv]].
  destruct (energyCurve_facts impulseResponse) as [_ [Hall _]].
  unfold schroederIntegration in Hin.
  destruct (energyCurve impulseResponse) as [|maxEnergy later];
    [destruct Hin|].
  simpl. simpl in Hall.
  destruct (Rle_dec maxEnergy 0) as [Hle|Hn]; [|lra].
  exfalso. apply in_map_iff in Hin. destruct Hin as [e [Ev He]]. subst v.
  rewrite Forall_forall in Hall. specialize (Hall e He).
  simpl in Hv. apply Rleb_le in Hv. lra.
Qed.

Lemma firstAtMost_app c (curve extra : list num) :
  (exists v, In v curve /\ num_leb v c = true) ->
  forall i0, firstAtMost c (curve ++ extra) i0 = firstAtMost c curve i0.
Proof.
  induction curve as [|v rest IH]; intros [u [Hin Hu]] i0.
  - destruct Hin.
  - simpl. destruct (num_leb v c) eqn:E; [reflexivity|].
    apply IH. destruct Hin as [Hin|Hin]; [congruence|].
    exists u. split; assumption.
Qed.

Lemma estimateRT60_app (curve extra : list num) (sampleRate : R) :
  reaches25 curve ->
  estimateRT60 (curve ++ extra) sampleRate = estimateRT60 curve sampleRate.
Proof.
  intros [v [Hin Hv]]. unfold estimateRT60.
  rewrite !firstAtMost_app; [reflexivity| | |];
    exists v; (split; [exact Hin|]);
    try exact Hv; apply (num_leb_weaken v (-25)); try exact Hv; lra.
Qed.

(** C7: when the decay curve of an impulse response reaches -25 dB,
    zero samples appended to the impulse response do not change the
    value of [computeRT60]. *)
Theorem C7_rt60_unchanged_by_silence_padding :
  forall (impulseResponse : list R) (sampleRate : R) (k : nat),
    reaches25 (schroederIntegration impulseResponse) ->
    computeRT60 (impulseResponse ++ repeat 0 k) sampleRate
      = computeRT60 impulseResponse sampleRate.
Proof.
  intros impulseResponse sampleRate k Hr. unfold computeRT60.
  rewrite schroederIntegration_padded by (apply reaches25_total_pos; exact Hr).
  apply estimateRT60_app. exact Hr.
Qed.

Lemma reaches25_example : reaches25 (schroederIntegration [1; / 2; 0]).
Proof.
  exists NegInfinity. split; [|reflexivity].
  unfold schroederIntegration, energyCurve. simpl.
  destruct (Rle_dec (0 * 0 + / 2 * / 2 + 1 * 1) 0) as [H|_]; [lra|].
  simpl. right. right. left.
  replace (0 * 0 / (0 * 0 + / 2 * / 2 + 1 * 1)) with 0 by (field; lra).
  unfold log10. destruct (Rlt_dec 0 0) as [H|_]; [lra|reflexivity].
Qed.

Lemma C7_rt60_unchanged_by_silence_padding_witness :
  computeRT60 ([1; / 2; 0] ++ repeat 0 5) 44100
    = computeRT60 [1; / 2; 0] 44100.
Proof.
  apply (C7_rt60_unchanged_by_silence_padding [1; / 2; 0] 44100 5).
  exact reaches25_example.
Defined.

End Rt60Facts.

(* ------------------------------------------------------------------ *)
(** ** Noise floor rating (noiseFloor.ts) *)
(* ------------------------------------------------------------------ *)

Module NoiseFloorFacts.
Import JsR JsRFacts NoiseFloor.
Local Open Scope R_scope.

Lemma rate_cases (averageDB : R) :
  (rate averageDB = excellent <-> averageDB < -50) /\
  (rate averageDB = good <-> -50 <= averageDB < -40) /\
  (rate averageDB = fair <-> -40 <= averageDB < -30) /\
  (rate averageDB = poor <-> -30 <= averageDB).
Proof.
  unfold rate.
  destruct (ltb averageDB (-50)) eqn:E1;
    [apply Rltb_lt in E1 | apply Rltb_ge in E1];
    (destruct (ltb averageDB (-40)) eqn:E2;
       [apply Rltb_lt in E2 | apply Rltb_ge in E2]);
    (destruct (ltb averageDB (-30)) eqn:E3;
       [apply Rltb_lt in E3 | apply Rltb_ge in E3]);
    repeat split; intros; try discriminate; try reflexivity; try lra;
    match goal with G : _ /\ _ |- _ => destruct G; lra end.
Qed.

(** A level [x] dB above the floor of -200 dB is recovered from its
    linear amplitude [10^(x/20)]. *)
Lemma linearToDB_pow10 (x : R) :
  -200 <= x -> linearToDB (Num (Rpower 10 (x / 20))) = x.
Proof.
  intros Hx. unfold linearToDB. simpl num_max.
  assert (Hfloor : / 10 ^ 10 = Rpower 10 (- INR 10)).
  { rewrite Rpower_Ropp, Rpower_pow by lra. reflexivity. }
  assert (Hle : / 10 ^ 10 <= Rpower 10 (x / 20)).
  { rewrite Hfloor. apply Rle_Rpower; [lra|]. simpl. lra. }
  rewrite Rmax_left by exact Hle.
  rewrite ln_Rpower. pose proof ln_10_pos as Hpos. field. lra.
Qed.

(** C9: for a non-empty list of samples and any snapshots, the rating
    is a function of [averageDB] alone, by the thresholds -50, -40 and
    -30; a sample set averaging to -55 dB is rated excellent. *)
Theorem C9_rating_from_averageDB :
  forall (samples : list R) (frequencySnapshots : list (list num))
         (sampleRate fftSize : R),
    samples <> [] ->
    let r := analyseNoiseFloor samples frequencySnapshots sampleRate fftSize in
    averageDB r = linearToDB (Num (sum samples / INR (length samples))) /\
    (rating r = excellent <-> averageDB r < -50) /\
    (rating r = good <-> -50 <= averageDB r < -40) /\
    (rating r = fair <-> -40 <= averageDB r < -30) /\
    (rating r = poor <-> -30 <= averageDB r) /\
    (averageDB r = -55 -> rating r = excellent).
Proof.
  intros samples frequencySnapshots sampleRate fftSize _ r.
  subst r. unfold analyseNoiseFloor. cbv zeta. cbn [averageDB rating].
  set (a := linearToDB (Num (sum samples / INR (length samples)))).
  destruct (rate_cases a) as [H1 [H2 [H3 H4]]].
  split; [reflexivity|]. repeat split; try tauto.
  intros H. apply H1. lra.
Qed.

(** One sample of amplitude [10^(-55/20)]: a set averaging to -55 dB. *)
Lemma C9_rating_from_averageDB_witness :
  averageDB (analyseNoiseFloor [Rpower 10 (-55 / 20)] [] 44100 8192) = -55 /\
  rating (analyseNoiseFloor [Rpower 10 (-55 / 20)] [] 44100 8192) = excellent.
Proof.
  assert (H : averageDB (analyseNoiseFloor [Rpower 10 (-55 / 20)] [] 44100 8192)
              = -55).
  { unfold analyseNoiseFloor. cbv zeta. cbn [averageDB]. unfold sum. simpl.
    replace ((0 + Rpower 10 (-55 / 20)) / 1) with (Rpower 10 (-55 / 20))
      by (field).
    apply linearToDB_pow10. lra. }
  split; [exact H|].
  apply (C9_rating_from_averageDB [Rpower 10 (-55 / 20)] [] 44100 8192);
    [discriminate|exact H].
Defined.

End NoiseFloorFacts.

(* ------------------------------------------------------------------ *)
(** ** Note names (noteMapper.ts) *)
(* ------------------------------------------------------------------ *)

Module NoteMapperFacts.
Import JsR JsRFacts NoteMapper.
Local Open Scope R_scope.

Lemma noteIndex_mod (midi : Z) :
  Z.rem (Z.rem midi 12 + 12) 12 = (midi mod 12)%Z.
Proof.
  pose proof (Z.quot_rem' midi 12) as Hq.
  assert (Hb : (-12 < Z.rem midi 12 < 12)%Z).
  { pose proof (Z.rem_bound_abs midi 12 ltac:(lia)). lia. }
  rewrite Z.rem_mod_nonneg by lia.
  replace (Z.rem midi 12 + 12)%Z
    with (midi + (1 - Z.quot midi 12) * 12)%Z by lia.
  apply Z.mod_add. lia.
Qed.

Lemma floor_div12 (midi : Z) : floor (IZR midi / 12) = (midi / 12)%Z.
Proof.
  apply floor_eq.
  pose proof (Z.div_mod midi 12 ltac:(lia)) as Hd.
  pose proof (Z.mod_pos_bound midi 12 ltac:(lia)) as Hm.
  assert (Hr : IZR midi = 12 * IZR (midi / 12) + IZR (midi mod 12)).
  { rewrite Hd at 1. rewrite plus_IZR, mult_IZR. reflexivity. }
  assert (H0 : 0 <= IZR (midi mod 12)) by (apply IZR_le; lia).
  assert (H1 : IZR (midi mod 12) <= 11) by (apply IZR_le; lia).
  rewrite Hr. split.
  - apply Rmult_le_reg_r with 12; [lra|]. unfold Rdiv.
    rewrite Rmult_assoc, Rinv_l by lra. lra.
  - apply Rmult_lt_reg_r with 12; [lra|]. unfold Rdiv.
    rewrite Rmult_assoc, Rinv_l by lra. lra.
Qed.

Lemma indexOf_nth (i : Z) :
  (0 <= i < 12)%Z ->
  indexOf NOTE_NAMES (nth (Z.to_nat i) NOTE_NAMES String.EmptyString) 0 = i.
Proof.
  intros H.
  assert (C : (i = 0 \/ i = 1 \/ i = 2 \/ i = 3 \/ i = 4 \/ i = 5 \/ i = 6
               \/ i = 7 \/ i = 8 \/ i = 9 \/ i = 10 \/ i = 11)%Z) by lia.
  repeat (destruct C as [C|C]; [subst i; reflexivity|]).
  subst i; reflexivity.
Qed.

(** [noteToFrequency] of the note found by [frequencyToNote] is the
    unrounded equal-temperament frequency of that note. *)
Lemma noteToFrequency_of_note (hz : R) :
  let n := round (12 * log2 (hz / 440)) in
  noteToFrequency (noteName (frequencyToNote hz)) (octave (frequencyToNote hz))
    = 440 * pow2 (IZR n / 12).
Proof.
  intros n. unfold frequencyToNote. cbv zeta. cbn [noteName octave].
  fold n. rewrite noteIndex_mod, floor_div12.
  pose proof (Z.mod_pos_bound (69 + n) 12 ltac:(lia)) as Hm.
  unfold noteToFrequency. rewrite indexOf_nth by exact Hm.
  destruct (Z.eqb_spec ((69 + n) mod 12) (-1)) as [E|_]; [lia|].
  pose proof (Z.div_mod (69 + n) 12 ltac:(lia)) as Hd.
  replace (((69 + n) / 12 - 1 + 1) * 12 + (69 + n) mod 12 - 69)%Z with n by lia.
  reflexivity.
Qed.

(** C3 (amended): for a positive input (whatever its cents value),
    [noteToFrequency] of the returned note name and octave is the
    unrounded frequency [440 * 2^(n/12)] of the nearest note,
    [exactFrequency] is that frequency rounded to two decimals, and the
    two differ by at most 0.005 Hz. *)
Theorem C3_round_trip_within_rounding :
  forall hz : R,
    0 < hz ->
    let note := frequencyToNote hz in
    let n := round (12 * log2 (hz / 440)) in
    let f := noteToFrequency (noteName note) (octave note) in
    f = 440 * pow2 (IZR n / 12) /\
    exactFrequency note = IZR (round (f * 100)) / 100 /\
    Rabs (f - exactFrequency note) <= 5 / 1000.
Proof.
  intros hz _ note n f.
  assert (Hf : f = 440 * pow2 (IZR n / 12))
    by (apply noteToFrequency_of_note).
  assert (He : exactFrequency note = IZR (round (f * 100)) / 100).
  { rewrite Hf. reflexivity. }
  split; [exact Hf|]. split; [exact He|].
  rewrite He. pose proof (round_near (f * 100)) as Hr.
  apply Rabs_le. lra.
Qed.

Lemma C3_round_trip_within_rounding_witness :
  Rabs (noteToFrequency (noteName (frequencyToNote 440))
                        (octave (frequencyToNote 440))
        - exactFrequency (frequencyToNote 440)) <= 5 / 1000.
Proof.
  apply (C3_round_trip_within_rounding 440). lra.
Defined.

(** Bounds on [log2] of a positive fraction from integer powers. *)
Lemma pow_fraction (a b : Z) (n : nat) :
  (0 < b)%Z -> (IZR a / IZR b) ^ n = IZR (a ^ Z.of_nat n) / IZR (b ^ Z.of_nat n).
Proof.
  intros Hb. rewrite <- !pow_IZR. unfold Rdiv.
  rewrite Rpow_mult_distr, pow_inv. reflexivity.
Qed.

Lemma log2_lower (a b : Z) (n p : nat) :
  (0 < a)%Z -> (0 < b)%Z ->
  (b ^ Z.of_nat n <= a ^ Z.of_nat n * 2 ^ Z.of_nat p)%Z ->
  - INR p <= INR n * log2 (IZR a / IZR b).
Proof.
  intros Ha Hb H.
  assert (Hr : 0 < IZR a / IZR b).
  { apply Rdiv_lt_0_compat; apply IZR_lt; lia. }
  assert (HA : 0 < IZR (a ^ Z.of_nat n)) by (apply IZR_lt; lia).
  assert (HB : 0 < IZR (b ^ Z.of_nat n)) by (apply IZR_lt; lia).
  assert (HC : 0 < 2 ^ p) by (apply pow_lt; lra).
  apply IZR_le in H. rewrite mult_IZR in H.
  rewrite <- (pow_IZR 2 p) in H.
  assert (Hle : / 2 ^ p <= (IZR a / IZR b) ^ n).
  { rewrite pow_fraction by exact Hb.
    apply Rmult_le_reg_r with (2 ^ p * IZR (b ^ Z.of_nat n)).
    - apply Rmult_lt_0_compat; assumption.
    - field_simplify; lra. }
  assert (Hln : ln (/ 2 ^ p) <= ln ((IZR a / IZR b) ^ n)).
  { destruct Hle as [Hlt|Heq].
    - left. apply ln_increasing; [apply Rinv_0_lt_compat; exact HC|exact Hlt].
    - rewrite Heq. lra. }
  rewrite ln_Rinv, !ln_pow in Hln by (assumption || lra).
  pose proof ln_2_pos as H2. unfold log2.
  apply Rmult_le_reg_r with (ln 2); [exact H2|].
  replace (INR n * (ln (IZR a / IZR b) / ln 2) * ln 2)
    with (INR n * ln (IZR a / IZR b)) by (field; lra).
  lra.
Qed.

Lemma log2_upper (a b : Z) (n p : nat) :
  (0 < a)%Z -> (0 < b)%Z ->
  (a ^ Z.of_nat n * 2 ^ Z.of_nat p < b ^ Z.of_nat n)%Z ->
  INR n * log2 (IZR a / IZR b) < - INR p.
Proof.
  intros Ha Hb H.
  assert (Hr : 0 < IZR a / IZR b).
  { apply Rdiv_lt_0_compat; apply IZR_lt; lia. }
  assert (HA : 0 < IZR (a ^ Z.of_nat n)) by (apply IZR_lt; lia).
  assert (HB : 0 < IZR (b ^ Z.of_nat n)) by (apply IZR_lt; lia).
  assert (HC : 0 < 2 ^ p) by (apply pow_lt; lra).
  apply IZR_lt in H. rewrite mult_IZR in H.
  rewrite <- (pow_IZR 2 p) in H.
  assert (Hlt : (IZR a / IZR b) ^ n < / 2 ^ p).
  { rewrite pow_fraction by exact Hb.
    apply Rmult_lt_reg_r with (2 ^ p * IZR (b ^ Z.of_nat n)).
    - apply Rmult_lt_0_compat; assumption.
    - field_simplify; lra. }
  assert (Hln : ln ((IZR a / IZR b) ^ n) < ln (/ 2 ^ p)).
  { apply ln_increasing; [apply pow_lt; exact Hr|exact Hlt]. }
  rewrite ln_Rinv, !ln_pow in Hln by (assumption || lra).
  pose proof ln_2_pos as H2. unfold log2.
  apply Rmult_lt_reg_r with (ln 2); [exact H2|].
  replace (INR n * (ln (IZR a / IZR b) / ln 2) * ln 2)
    with (INR n * ln (IZR a / IZR b)) by (field; lra).
  lra.
Qed.

(** 261.63 Hz is within half a cent of C4, nine semitones below A4. *)
Lemma semitones_C4 :
  -9 <= 12 * log2 (26163 / 100 / 440) < -9 + 498 / 100000.
Proof.
  replace (26163 / 100 / 440) with (IZR 26163 / IZR 44000) by lra.
  pose proof (log2_lower 26163 44000 12 9 ltac:(lia) ltac:(lia)) as Hlo.
  pose proof (log2_upper 26163 44000 603 452 ltac:(lia) ltac:(lia)) as Hup.
  assert (H1 : (44000 ^ Z.of_nat 12 <= 26163 ^ Z.of_nat 12 * 2 ^ Z.of_nat 9)%Z)
    by (vm_compute; discriminate).
  assert (H2 : (26163 ^ Z.of_nat 603 * 2 ^ Z.of_nat 452 < 44000 ^ Z.of_nat 603)%Z)
    by (vm_compute; reflexivity).
  specialize (Hlo H1). specialize (Hup H2).
  replace (INR 12) with 12 in Hlo by (simpl; lra).
  replace (INR 9) with 9 in Hlo by (simpl; lra).
  replace (INR 603) with 603 in Hup by (rewrite INR_IZR_INZ; reflexivity).
  replace (INR 452) with 452 in Hup by (rewrite INR_IZR_INZ; reflexivity).
  lra.
Qed.

Lemma no_fourth_root (m : Z) : (8 * m ^ 4 <> 44000 ^ 4)%Z.
Proof.
  intros H. set (a := (m * m)%Z).
  assert (Ha : (0 <= a)%Z) by (subst a; nia).
  assert (Hsq : (a * a = 468512000000000000)%Z).
  { subst a. replace (m ^ 4)%Z with (m * m * (m * m))%Z in H by ring. lia. }
  assert (C : (a <= 684479364 \/ 684479365 <= a)%Z) by lia.
  destruct C as [C|C]; nia.
Qed.

(** C3, as stated, fails: 261.63 Hz is named C4 with 0 cents and
    [exactFrequency] 261.63 (two decimals), while
    [noteToFrequency("C", 4)] is the unrounded [440 * 2^(-9/12)] =
    261.6255..., which has no finite decimal expansion. *)
Lemma C3_round_trip_not_exact : ~ exact_round_trip (26163 / 100).
Proof.
  intros H. unfold exact_round_trip in H.
  pose proof semitones_C4 as Hs.
  assert (Hn : round (12 * log2 (26163 / 100 / 440)) = (-9)%Z).
  { apply round_eq. lra. }
  assert (Hc : cents (frequencyToNote (26163 / 100)) = 0%Z).
  { unfold frequencyToNote. cbv zeta. cbn [cents]. rewrite Hn.
    apply round_eq. lra. }
  specialize (H ltac:(lra) Hc).
  rewrite noteToFrequency_of_note in H. rewrite Hn in H.
  unfold frequencyToNote in H. cbv zeta in H. cbn [exactFrequency] in H.
  rewrite Hn in H.
  set (P := pow2 (-9 / 12)) in *.
  set (m := round (440 * P * 100)) in *.
  assert (HP4 : P ^ 4 = / 8).
  { subst P. unfold pow2. rewrite <- Rpower_pow by (apply exp_pos).
    rewrite Rpower_mult.
    replace (-9 / 12 * INR 4) with (- INR 3) by (simpl; field).
    rewrite Rpower_Ropp, Rpower_pow by lra. f_equal. simpl. ring. }
  assert (Hm : IZR m = 44000 * P) by lra.
  assert (Hm4 : IZR (8 * m ^ 4) = IZR (44000 ^ 4)).
  { rewrite mult_IZR. change 4%Z with (Z.of_nat 4).
    rewrite <- !pow_IZR. rewrite Hm, Rpow_mult_distr, HP4. simpl. field. }
  apply eq_IZR in Hm4. exact (no_fourth_root m Hm4).
Qed.

End NoteMapperFacts.

(* ------------------------------------------------------------------ *)
(** ** Powers of ten kept as exponents *)
(* ------------------------------------------------------------------ *)

Module PowerFacts.
Import JsQ JsQFacts.
Local Open Scope R_scope.

Lemma Q2R_pos (x : Q) : (0 < x)%Q -> 0 < Q2R x.
Proof. intros H. apply Qlt_Rlt in H. now rewrite RMicromega.Q2R_0 in H. Qed.

Lemma Q2R_Qpower_positive (y : Q) (n : positive) :
  (0 < y)%Q -> Q2R (Qpower_positive y n) = Rpower (Q2R y) (IZR (Zpos n)).
Proof.
  intros Hy. pose proof (Q2R_pos y Hy) as HY.
  induction n as [|n IH] using Pos.peano_ind.
  - simpl. rewrite Rpower_1 by exact HY. reflexivity.
  - rewrite <- Pos.add_1_r.
    rewrite (Qeq_eqR _ _ (Qpower_plus_positive y n 1)).
    rewrite Q2R_mult, IH. simpl Qpower_positive.
    rewrite Pos2Z.inj_add, plus_IZR, Rpower_plus, Rpower_1 by exact HY.
    reflexivity.
Qed.

Lemma Q2R_Qpower (y : Q) (z : Z) :
  (0 < y)%Q -> Q2R (Qpower y z) = Rpower (Q2R y) (IZR z).
Proof.
  intros Hy. pose proof (Q2R_pos y Hy) as HY.
  destruct z as [|n|n]; simpl Qpower.
  - rewrite Rpower_O by exact HY. apply RMicromega.Q2R_1.
  - apply Q2R_Qpower_positive. exact Hy.
  - rewrite Q2R_inv.
    + rewrite Q2R_Qpower_positive by exact Hy.
      rewrite <- Rpower_Ropp, <- opp_IZR. reflexivity.
    + apply Qpower_not_0_positive. intros E. rewrite E in Hy. discriminate.
Qed.

(** [gt_pow10 x e] decides [x > 10^e] over the reals. *)
Lemma gt_pow10_spec (x e : Q) :
  gt_pow10 x e = true <-> Rpower 10 (Q2R e) < Q2R x.
Proof.
  unfold gt_pow10. destruct (ltb 0 x) eqn:E0.
  - apply ltb_lt in E0. pose proof (Q2R_pos x E0) as HX.
    rewrite ltb_lt.
    assert (H10 : (0 < 10)%Q) by reflexivity.
    assert (Hq : 0 < IZR (Zpos (Qden e))) by (apply IZR_lt; lia).
    assert (He : Q2R e = IZR (Qnum e) / IZR (Zpos (Qden e))) by reflexivity.
    assert (HQ10 : Q2R 10 = 10) by (unfold Q2R; simpl; lra).
    split; intros H.
    + apply Qlt_Rlt in H. rewrite !Q2R_Qpower in H by assumption.
      rewrite HQ10 in H. unfold Rpower in H. apply exp_lt_inv in H.
      rewrite <- (exp_ln (Q2R x)) at 1 by exact HX.
      unfold Rpower. apply exp_increasing. rewrite He.
      apply Rmult_lt_reg_l with (IZR (Zpos (Qden e))); [exact Hq|].
      replace (IZR (Z.pos (Qden e)) * (IZR (Qnum e) / IZR (Z.pos (Qden e)) * ln 10))
        with (IZR (Qnum e) * ln 10) by (field; lra).
      exact H.
    + apply Rlt_Qlt. rewrite !Q2R_Qpower by assumption.
      rewrite HQ10. unfold Rpower. apply exp_increasing.
      rewrite <- (exp_ln (Q2R x)) in H at 1 by exact HX.
      unfold Rpower in H. apply exp_lt_inv in H. rewrite He in H.
      replace (IZR (Qnum e) * ln 10)
        with (IZR (Z.pos (Qden e)) * (IZR (Qnum e) / IZR (Z.pos (Qden e)) * ln 10))
        by (field; lra).
      apply Rmult_lt_compat_l; assumption.
  - apply ltb_ge in E0. split; [discriminate|].
    intros H. exfalso. apply Qle_Rle in E0. rewrite RMicromega.Q2R_0 in E0.
    pose proof (exp_pos (Q2R e * ln 10)) as Hp. unfold Rpower in H. lra.
Qed.

Import OvertoneDetector.

Lemma pow10_mul_value (a b : pow10) :
  pow10_value (pow10_mul a b) = pow10_value a * pow10_value b.
Proof.
  unfold pow10_value, pow10_mul. simpl. rewrite Q2R_plus. apply Rpower_plus.
Qed.

Lemma linear_value (magnitudeSpectrum : list Q) (i : Z) :
  pow10_value (linear magnitudeSpectrum i)
    = Rpower 10 (Q2R (get magnitudeSpectrum i) / 20).
Proof.
  unfold pow10_value, linear. simpl. f_equal.
  unfold Qdiv. rewrite Q2R_mult, Q2R_inv by discriminate.
  unfold Q2R at 2. simpl. lra.
Qed.

Lemma pow10_gtb_value (a m : pow10) :
  pow10_gtb a (Some m) = true <-> pow10_value m < pow10_value a.
Proof.
  unfold pow10_gtb, pow10_value. rewrite ltb_lt. split; intros H.
  - apply Rpower_lt; [lra|]. apply Qlt_Rlt. exact H.
  - apply Rlt_Qlt. unfold Rpower in H. apply exp_lt_inv in H.
    pose proof JsRFacts.ln_10_pos as H10. nra.
Qed.

End PowerFacts.

(* ------------------------------------------------------------------ *)
(** ** Bins and band energy (fftAnalyser.ts) *)
(* ------------------------------------------------------------------ *)

Module FftExtra.
Import Centres FftAnalyser JsQFacts BandFacts.
Local Open Scope Q_scope.

Lemma round_inject_Z (z : Z) : JsQ.round (inject_Z z) = z.
Proof.
  unfold JsQ.round, Qfloor, Qplus, inject_Z. cbn [Qnum Qden].
  change (Z.pos (1 * 2)) with 2%Z.
  symmetry. apply Z.div_unique with 1%Z; lia.
Qed.

Lemma round_within_half (x : Q) :
  x - (1 # 2) < inject_Z (JsQ.round x) /\ inject_Z (JsQ.round x) <= x + (1 # 2).
Proof.
  unfold JsQ.round. pose proof (Qfloor_le (x + (1 # 2))) as H1.
  pose proof (Qlt_floor (x + (1 # 2))) as H2.
  rewrite inject_Z_plus in H2. change (inject_Z 1) with 1 in H2. lra.
Qed.

(** X1: for a positive sample rate and FFT size, the bin of the
    frequency of a bin is that bin, and the frequency of the bin of a
    frequency is within half a bin width of the frequency. *)
Theorem X1_bin_frequency_round_trip :
  forall (sampleRate fftSize : Q),
    0 < sampleRate -> 0 < fftSize ->
    (forall bin : Z,
       frequencyToBin (binToFrequency bin sampleRate fftSize) sampleRate fftSize
       = bin) /\
    (forall freq : Q,
       Qabs (binToFrequency (frequencyToBin freq sampleRate fftSize)
                            sampleRate fftSize - freq)
       <= sampleRate / fftSize * (1 # 2)).
Proof.
  intros sampleRate fftSize Hs Hf.
  assert (Hs0 : ~ sampleRate == 0) by (intros E; rewrite E in Hs; discriminate).
  assert (Hf0 : ~ fftSize == 0) by (intros E; rewrite E in Hf; discriminate).
  split.
  - intros bin. unfold frequencyToBin, binToFrequency.
    rewrite <- (round_inject_Z bin) at 2. apply round_comp. field.
    split; assumption.
  - intros freq. unfold frequencyToBin, binToFrequency.
    set (x := freq * fftSize / sampleRate).
    destruct (round_within_half x) as [H1 H2].
    set (r := inject_Z (JsQ.round x)) in *.
    assert (Hx : freq == x * (sampleRate / fftSize))
      by (unfold x; field; split; assumption).
    assert (Hr : r * sampleRate / fftSize - freq
                 == (r - x) * (sampleRate / fftSize))
      by (rewrite Hx; field; assumption).
    rewrite Hr, Qabs_Qmult.
    assert (Hw : 0 < sampleRate / fftSize).
    { apply Qlt_shift_div_l; [exact Hf|]. rewrite Qmult_0_l. exact Hs. }
    rewrite (Qabs_pos (sampleRate / fftSize)) by (apply Qlt_le_weak; exact Hw).
    rewrite (Qmult_comm (sampleRate / fftSize)).
    apply Qmult_le_compat_r; [|apply Qlt_le_weak; exact Hw].
    apply Qabs_Qle_condition. split; lra.
Qed.

Lemma X1_bin_frequency_round_trip_witness :
  frequencyToBin (binToFrequency 24 44100 8192) 44100 8192 = 24%Z.
Proof.
  apply (X1_bin_frequency_round_trip 44100 8192); reflexivity.
Defined.

(** The sum over the visited bins is bounded by the bounds of the data
    read. *)
Lemma fold_sum_bounds (f : Z -> Q) (lo hi : Q) (bins : list Z) :
  (forall i, In i bins -> lo <= f i <= hi) ->
  forall acc,
    acc + inject_Z (Z.of_nat (length bins)) * lo
      <= fold_left (fun s i => s + f i) bins acc
    /\ fold_left (fun s i => s + f i) bins acc
      <= acc + inject_Z (Z.of_nat (length bins)) * hi.
Proof.
  induction bins as [|b bins IH]; intros Hb acc.
  - cbn [fold_left length]. change (inject_Z (Z.of_nat 0)) with 0.
    split; lra.
  - cbn [fold_left length].
    destruct (IH (fun i Hi => Hb i (or_intror Hi)) (acc + f b)) as [H1 H2].
    destruct (Hb b (or_introl eq_refl)) as [H3 H4].
    rewrite Nat2Z.inj_succ. unfold Z.succ. rewrite inject_Z_plus.
    change (inject_Z 1) with 1. split; lra.
Qed.

Lemma level_fold_nan (f : Z -> level) (bins : list Z) :
  (exists i, In i bins /\ f i = NotANumber) ->
  forall acc, fold_left (fun s i => level_add s (f i)) bins acc = NotANumber.
Proof.
  assert (Hn : forall l, fold_left (fun s i => level_add s (f i)) l NotANumber
                         = NotANumber).
  { induction l as [|b l IH]; [reflexivity|]. cbn [fold_left]. exact IH. }
  induction bins as [|b bins IH]; intros [i [Hi E]] acc; [destruct Hi|].
  cbn [fold_left]. destruct Hi as [<-|Hi].
  - rewrite E. destruct acc; cbn [level_add]; apply Hn.
  - apply IH. exists i. split; assumption.
Qed.

Lemma level_fold_minus (f : Z -> level) (bins : list Z) :
  (forall i, In i bins -> f i <> NotANumber) ->
  forall acc,
    acc <> NotANumber ->
    acc = MinusInfinity \/ (exists i, In i bins /\ f i = MinusInfinity) ->
    fold_left (fun s i => level_add s (f i)) bins acc = MinusInfinity.
Proof.
  induction bins as [|b bins IH]; intros Hf acc Hacc H.
  - cbn [fold_left]. destruct H as [E|[i [[] _]]]. exact E.
  - cbn [fold_left].
    pose proof (Hf b (or_introl eq_refl)) as Hb.
    apply IH.
    + intros i Hi. apply Hf. right. exact Hi.
    + destruct acc, (f b); cbn [level_add]; congruence.
    + destruct H as [E|[i [[<-|Hi] E]]].
      * left. subst acc. destruct (f b); cbn [level_add]; congruence.
      * left. rewrite E. destruct acc; cbn [level_add]; congruence.
      * right. exists i. split; assumption.
Qed.

Lemma level_fold_finite (f : Z -> level) (g : Z -> Q) (bins : list Z) :
  (forall i, In i bins -> f i = Level (g i)) ->
  forall acc,
    fold_left (fun s i => level_add s (f i)) bins (Level acc)
    = Level (fold_left (fun s i => s + g i) bins acc).
Proof.
  induction bins as [|b bins IH]; intros Hf acc; [reflexivity|].
  cbn [fold_left]. rewrite (Hf b (or_introl eq_refl)). cbn [level_add].
  apply IH. intros i Hi. apply Hf. right. exact Hi.
Qed.

(** X2: [bandEnergy] reads the bins from [lowBin] to [highBin] that lie
    below the length of the array.  It returns [-Infinity] when that
    range is empty, and [NaN] when bins are read from a negative
    [lowBin] on.  For a non-negative first bin every bin read lies
    inside the array; the result is [-Infinity] when a bin read holds
    [-Infinity]; and when the bins read hold finite levels between two
    bounds, the result is a finite level between the same bounds. *)
Theorem X2_bandEnergy_reads_in_range_and_averages :
  forall (frequencyData : list level)
         (lowFreq highFreq sampleRate fftSize : Q),
    let lowBin := frequencyToBin lowFreq sampleRate fftSize in
    let highBin := frequencyToBin highFreq sampleRate fftSize in
    let len := Z.of_nat (length frequencyData) in
    let bins := loopBins lowBin highBin len in
    let result := bandEnergy frequencyData lowFreq highFreq sampleRate fftSize in
    (forall i, In i bins -> (lowBin <= i <= highBin)%Z /\ (i < len)%Z) /\
    (bins = [] <-> (Z.min highBin (len - 1) < lowBin)%Z) /\
    (bins = [] -> result = MinusInfinity) /\
    ((lowBin < 0)%Z -> bins <> [] -> result = NotANumber) /\
    ((0 <= lowBin)%Z -> bins <> [] ->
     (forall i, In i bins -> (0 <= i < len)%Z) /\
     ((forall i, In i bins -> at_bin frequencyData i <> NotANumber) ->
      (exists i, In i bins /\ at_bin frequencyData i = MinusInfinity) ->
      result = MinusInfinity) /\
     (forall lo hi,
         (forall i, In i bins ->
            exists d, at_bin frequencyData i = Level d /\ lo <= d <= hi) ->
         exists v, result = Level v /\ lo <= v <= hi)).
Proof.
  intros frequencyData lowFreq highFreq sampleRate fftSize
         lowBin highBin len bins result.
  assert (Hlen : Z.of_nat (length bins)
                 = Z.max 0 (Z.min highBin (len - 1) - lowBin + 1)).
  { unfold bins, loopBins. rewrite length_map, length_seq. lia. }
  assert (Hres : result
                 = if (0 <? Z.of_nat (length bins))%Z
                   then level_div
                          (fold_left
                             (fun s i => level_add s (at_bin frequencyData i))
                             bins (Level 0))
                          (Z.of_nat (length bins))
                   else MinusInfinity) by reflexivity.
  assert (Hpos : bins <> [] -> (0 <? Z.of_nat (length bins))%Z = true).
  { intros Hne. apply Z.ltb_lt. destruct bins; [congruence|simpl; lia]. }
  split; [|split; [|split; [|split]]].
  - intros i Hi. apply In_loopBins in Hi. lia.
  - split.
    + intros E. rewrite E in Hlen. cbn [length] in Hlen. lia.
    + intros Hlt. destruct bins; [reflexivity|]. cbn [length] in Hlen. lia.
  - intros E. rewrite Hres, E. reflexivity.
  - intros Hneg Hne. rewrite Hres, (Hpos Hne).
    rewrite level_fold_nan; [reflexivity|].
    exists lowBin. split.
    + apply In_loopBins. destruct bins as [|b rest]; [congruence|].
      cbn [length] in Hlen. lia.
    + unfold at_bin. replace (lowBin <? 0)%Z with true; [reflexivity|].
      symmetry. apply Z.ltb_lt. exact Hneg.
  - intros Hlow Hne. rewrite Hres, (Hpos Hne). split; [|split].
    + intros i Hi. apply In_loopBins in Hi. lia.
    + intros Hnan Hex. rewrite level_fold_minus; [reflexivity|exact Hnan| |].
      * discriminate.
      * right. exact Hex.
    + intros lo hi Hb.
      set (g := fun i => match at_bin frequencyData i with
                         | Level d => d
                         | _ => 0
                         end).
      assert (Hg : forall i, In i bins -> at_bin frequencyData i = Level (g i)).
      { intros i Hi. destruct (Hb i Hi) as [d [E _]]. unfold g. rewrite E.
        reflexivity. }
      assert (Hgb : forall i, In i bins -> lo <= g i <= hi).
      { intros i Hi. destruct (Hb i Hi) as [d [E Hd]]. unfold g. rewrite E.
        exact Hd. }
      rewrite (level_fold_finite _ g bins Hg). cbn [level_div].
      eexists. split; [reflexivity|].
      destruct (fold_sum_bounds g lo hi bins Hgb 0) as [H1 H2].
      assert (Hn : 0 < inject_Z (Z.of_nat (length bins))).
      { replace 0 with (inject_Z 0) by reflexivity. rewrite <- Zlt_Qlt.
        apply Z.ltb_lt. apply Hpos. exact Hne. }
      split.
      * apply Qle_shift_div_l; [exact Hn|]. lra.
      * apply Qle_shift_div_r; [exact Hn|]. lra.
Qed.

Lemma X2_bandEnergy_reads_in_range_and_averages_witness :
  bandEnergy [Level (-70); MinusInfinity; Level (-50); Level (-40)]
             0 10000 44100 8 = MinusInfinity.
Proof.
  apply (X2_bandEnergy_reads_in_range_and_averages
           [Level (-70); MinusInfinity; Level (-50); Level (-40)]
           0 10000 44100 8).
  - vm_compute. discriminate.
  - vm_compute. discriminate.
  - intros i Hi. vm_compute in Hi.
    repeat (destruct Hi as [<-|Hi]; [vm_compute; discriminate|]). destruct Hi.
  - exists 1%Z. split; [vm_compute; right; left; reflexivity|reflexivity].
Defined.

End FftExtra.

(* ------------------------------------------------------------------ *)
(** ** Coverage and score components (compatibilityScorer.ts) *)
(* ------------------------------------------------------------------ *)

Module ScorerExtra.
Import Centres CompatibilityScorer JsQFacts ScorerFacts.
Local Open Scope Q_scope.

Lemma Qmax_cases (a b : Q) :
  (a <= b /\ Qmax a b == b) \/ (b <= a /\ Qmax a b == a).
Proof.
  destruct (Q.max_spec a b) as [[H E]|[H E]].
  - left. split; [apply Qlt_le_weak; exact H|exact E].
  - right. split; assumption.
Qed.

Lemma Qmin_cases (a b : Q) :
  (a <= b /\ Qmin a b == a) \/ (b <= a /\ Qmin a b == b).
Proof.
  destruct (Q.min_spec a b) as [[H E]|[H E]].
  - left. split; [apply Qlt_le_weak; exact H|exact E].
  - right. split; assumption.
Qed.

Lemma coverage_cases (x : Q) :
  let c := Qmax 0 (Qmin 1 ((x + 80) / 80)) in
  (x <= -80 /\ c == 0) \/
  (-80 <= x <= 0 /\ c == (x + 80) / 80) \/
  (0 <= x /\ c == 1).
Proof.
  intros c. subst c.
  assert (Ht : (x + 80) / 80 == x * (1 # 80) + 1) by field.
  set (t := (x + 80) / 80) in *.
  destruct (Qmin_cases 1 t) as [[H1 E1]|[H1 E1]];
    destruct (Qmax_cases 0 (Qmin 1 t)) as [[H2 E2]|[H2 E2]];
    set (m := Qmin 1 t) in *; set (c := Qmax 0 m) in *.
  - right. right. split; lra.
  - exfalso. lra.
  - destruct (Qlt_le_dec x (-80)) as [Hx|Hx].
    + left. split; lra.
    + right. left. split; [split; lra|lra].
  - left. split; lra.
Qed.

(** X3: a centre's coverage lies in [0, 1]; it is 0 up to -80 dB, 1 from
    0 dB on, [(db + 80) / 80] in between, and it never decreases when
    the level rises. *)
Theorem X3_centre_coverage_normalised :
  forall (levels : EnergyCentreKey -> Q) (key : EnergyCentreKey),
    let c := computeCentreCoverage levels key in
    0 <= c <= 1 /\
    (levels key <= -80 -> c == 0) /\
    (0 <= levels key -> c == 1) /\
    (-80 <= levels key <= 0 -> c == (levels key + 80) / 80) /\
    (forall levels' : EnergyCentreKey -> Q,
       levels key <= levels' key ->
       c <= computeCentreCoverage levels' key).
Proof.
  intros levels key c. subst c. unfold computeCentreCoverage.
  set (x := levels key).
  assert (Ht : (x + 80) / 80 == x * (1 # 80) + 1) by field.
  pose proof (coverage_cases x) as Hx. cbv zeta in Hx.
  set (c := Qmax 0 (Qmin 1 ((x + 80) / 80))) in *.
  set (t := (x + 80) / 80) in *.
  split; [destruct Hx as [[H E]|[[H E]|[H E]]]; split; lra|].
  split; [intros G; destruct Hx as [[H E]|[[H E]|[H E]]]; lra|].
  split; [intros G; destruct Hx as [[H E]|[[H E]|[H E]]]; lra|].
  split; [intros G; destruct Hx as [[H E]|[[H E]|[H E]]]; lra|].
  intros levels' Hle. set (y := levels' key) in *.
  assert (Hu : (y + 80) / 80 == y * (1 # 80) + 1) by field.
  pose proof (coverage_cases y) as Hy. cbv zeta in Hy.
  set (d := Qmax 0 (Qmin 1 ((y + 80) / 80))) in *.
  set (u := (y + 80) / 80) in *.
  destruct Hx as [[H E]|[[H E]|[H E]]];
    destruct Hy as [[H' E']|[[H' E']|[H' E']]]; lra.
Qed.

(** The score depends on the noise floor only through the level looked
    up for each centre. *)
Lemma score_noiseLevel_ext (a b : ScoringInput) :
  instrumentCentres a = instrumentCentres b ->
  overtoneConfidence a = overtoneConfidence b ->
  harmonics a = harmonics b ->
  (forall key, noiseLevel a key = noiseLevel b key) ->
  computeCompatibilityScore a = computeCompatibilityScore b.
Proof.
  intros Hi Hc Hh Hn.
  unfold computeCompatibilityScore, resonanceScore, richnessScore,
    clarityScore, avgHeadroom, headroomLoop, activatedCentres, CENTRE_ORDER.
  cbn [fold_left]. rewrite Hi, Hc, Hh, !Hn. reflexivity.
Qed.

(** X4: a missing noise floor ([null]), a noise floor without band
    levels (the empty record that [analyseNoiseFloor] produces without
    snapshots) and a noise floor of -60 dB in every band give the same
    score; in general a band missing from the record counts as -60 dB. *)
Theorem X4_missing_noise_bands_default_to_minus_60 :
  forall (levels : EnergyCentreKey -> Q) (confidence : Q)
         (hs : list OvertoneDetector.HarmonicPeak)
         (bands : EnergyCentreKey -> option Q),
    let input nf := {| instrumentCentres := levels; noiseFloorBands := nf;
                       overtoneConfidence := confidence; harmonics := hs |} in
    computeCompatibilityScore (input (Some (fun _ => None)))
      = computeCompatibilityScore (input None) /\
    computeCompatibilityScore (input (Some (fun _ => Some (-60))))
      = computeCompatibilityScore (input None) /\
    computeCompatibilityScore (input (Some bands))
      = computeCompatibilityScore
          (input (Some (fun key => match bands key with
                                   | Some v => Some v
                                   | None => Some (-60)
                                   end))).
Proof.
  intros levels confidence hs bands input.
  split; [|split]; apply score_noiseLevel_ext; try reflexivity.
  intros key. unfold noiseLevel. simpl. destruct (bands key); reflexivity.
Qed.

Lemma headroom_fold_nonneg (f : EnergyCentreKey -> Q) (lo : Q) :
  0 <= lo ->
  (forall k, lo <= Qmax 0 (f k)) ->
  forall (l : list EnergyCentreKey) (s : Q) (c : Z),
    s + inject_Z (Z.of_nat (length l)) * lo
    <= fst (fold_left
         (fun (st : Q * Z) key =>
            let (headroomSum, headroomCount) := st in
            (headroomSum + Qmax 0 (f key), (headroomCount + 1)%Z)) l (s, c)).
Proof.
  intros Hlo Hf l. induction l as [|k l IH]; intros s c.
  - cbn [fold_left length fst]. change (inject_Z (Z.of_nat 0)) with 0. lra.
  - cbn [fold_left length]. specialize (IH (s + Qmax 0 (f k)) (c + 1)%Z).
    specialize (Hf k). rewrite Nat2Z.inj_succ. unfold Z.succ.
    rewrite inject_Z_plus. change (inject_Z 1) with 1. lra.
Qed.

Lemma activated_fold_bounds (f : EnergyCentreKey -> Q) :
  forall (l : list EnergyCentreKey) (n : Z),
    let r := fold_left (fun (n : Z) key =>
                          if JsQ.ltb 6 (f key) then (n + 1)%Z else n) l n in
    (n <= r <= n + Z.of_nat (length l))%Z /\
    ((forall k, In k l -> 6 < f k) -> r = (n + Z.of_nat (length l))%Z) /\
    ((forall k, In k l -> f k <= 6) -> r = n).
Proof.
  induction l as [|k l IH]; intros n r; subst r.
  - cbn [fold_left length]. repeat split; intros; lia.
  - cbn [fold_left length].
    destruct (JsQ.ltb 6 (f k)) eqn:E;
      [apply ltb_lt in E | apply ltb_ge in E].
    + destruct (IH (n + 1)%Z) as [H1 [H2 H3]]. split; [lia|]. split.
      * intros Hall. rewrite H2; [lia|]. intros j Hj. apply Hall. now right.
      * intros Hall. specialize (Hall k (or_introl eq_refl)). exfalso. lra.
    + destruct (IH n) as [H1 [H2 H3]]. split; [lia|]. split.
      * intros Hall. specialize (Hall k (or_introl eq_refl)). exfalso. lra.
      * intros Hall. apply H3. intros j Hj. apply Hall. now right.
Qed.

Lemma avgHeadroom_nonneg input : 0 <= avgHeadroom input.
Proof.
  rewrite avgHeadroom_eq. unfold headroomLoop.
  pose proof (headroom_fold_nonneg
                (fun k => instrumentCentres input k - noiseLevel input k) 0
                (Qle_refl 0) (fun k => Q.le_max_l 0 _) CENTRE_ORDER 0 0%Z) as H.
  rewrite Qmult_0_r, Qplus_0_l in H.
  apply Qle_shift_div_l; [reflexivity|]. rewrite Qmult_0_l. exact H.
Qed.

(** X5: for finite band levels of instrument and noise (the levels of
    [ScoringInput] are numbers of [Q]; a band at [-Infinity] is outside
    this statement), the resonance part of the score lies in [0, 40],
    the richness part in [0, 35] and, for a confidence in [0, 1], the
    clarity part in [0, 25]; then the final clamp changes nothing and
    the score is the rounded sum of the three parts.  The score is 100
    when every band is
    at least 30 dB above the noise, the confidence is 1 and there are at
    least six harmonics; it is 0 when no band is above the noise, the
    confidence is 0 and there is no harmonic. *)
Theorem X5_score_components :
  forall input : ScoringInput,
    0 <= overtoneConfidence input <= 1 ->
    (0 <= resonanceScore input <= 40 /\
     0 <= richnessScore input <= 35 /\
     0 <= clarityScore input <= 25) /\
    computeCompatibilityScore input
      = JsQ.round (resonanceScore input + richnessScore input
                   + clarityScore input) /\
    ((forall key, 30 <= instrumentCentres input key - noiseLevel input key) ->
     overtoneConfidence input == 1 ->
     (6 <= length (harmonics input))%nat ->
     computeCompatibilityScore input = 100%Z) /\
    ((forall key, instrumentCentres input key <= noiseLevel input key) ->
     overtoneConfidence input == 0 ->
     harmonics input = [] ->
     computeCompatibilityScore input = 0%Z).
Proof.
  intros input [Hc0 Hc1].
  pose proof (avgHeadroom_nonneg input) as Havg.
  assert (Hres : 0 <= resonanceScore input <= 40).
  { unfold resonanceScore.
    destruct (Qmin_cases 40 (avgHeadroom input / 30 * 40)) as [[H E]|[H E]];
      rewrite E.
    - split; discriminate.
    - split; [|exact H].
      assert (Hd : avgHeadroom input / 30 * 40 == avgHeadroom input * (4 # 3))
        by field.
      rewrite Hd. lra. }
  destruct (activated_fold_bounds
              (fun k => instrumentCentres input k - noiseLevel input k)
              CENTRE_ORDER 0%Z) as [Hact [Hact7 Hact0]].
  cbv zeta in Hact, Hact7, Hact0.
  fold (activatedCentres input) in Hact, Hact7, Hact0.
  change (Z.of_nat (length CENTRE_ORDER)) with 7%Z in *.
  assert (Hrich : 0 <= richnessScore input <= 35).
  { unfold richnessScore. change (Z.of_nat (length CENTRE_ORDER)) with 7%Z.
    assert (Hd : inject_Z (activatedCentres input) / inject_Z 7 * 35
                 == inject_Z (activatedCentres input) * 5) by field.
    rewrite Hd.
    assert (H0 : inject_Z 0 <= inject_Z (activatedCentres input))
      by (rewrite <- Zle_Qle; lia).
    assert (H7 : inject_Z (activatedCentres input) <= inject_Z 7)
      by (rewrite <- Zle_Qle; lia).
    change (inject_Z 0) with 0 in H0. change (inject_Z 7) with 7 in H7.
    split; lra. }
  set (n := inject_Z (Z.of_nat (length (harmonics input)))).
  assert (Hn : 0 <= n).
  { subst n. change 0 with (inject_Z 0). rewrite <- Zle_Qle. lia. }
  assert (Hclar : 0 <= clarityScore input <= 25).
  { unfold clarityScore. fold n.
    destruct (Qmin_cases 1 (n / 6)) as [[H E]|[H E]]; rewrite E.
    - split; lra.
    - assert (Hd : n / 6 == n * (1 # 6)) by field.
      rewrite Hd in *. split; lra. }
  assert (Hround : computeCompatibilityScore input
                   = JsQ.round (resonanceScore input + richnessScore input
                                + clarityScore input)).
  { unfold computeCompatibilityScore.
    set (x := resonanceScore input + richnessScore input + clarityScore input).
    assert (H0 : (JsQ.round 0 <= JsQ.round x)%Z)
      by (apply round_mono; unfold x; lra).
    assert (H100 : (JsQ.round x <= JsQ.round 100)%Z)
      by (apply round_mono; unfold x; lra).
    change (JsQ.round 0) with 0%Z in H0.
    change (JsQ.round 100) with 100%Z in H100. lia. }
  split; [repeat split; tauto|]. split; [exact Hround|]. split.
  - intros Hall Hconf Hlen. rewrite Hround.
    change 100%Z with (JsQ.round 100). apply round_comp.
    assert (Hr : resonanceScore input == 40).
    { unfold resonanceScore.
      assert (H30 : 30 <= avgHeadroom input).
      { rewrite avgHeadroom_eq. unfold headroomLoop.
        pose proof (headroom_fold_nonneg
                      (fun k => instrumentCentres input k - noiseLevel input k)
                      30 ltac:(discriminate)) as H.
        assert (Hk : forall k, 30 <= Qmax 0 (instrumentCentres input k
                                             - noiseLevel input k)).
        { intros k. eapply Qle_trans; [apply Hall|apply Q.le_max_r]. }
        specialize (H Hk CENTRE_ORDER 0 0%Z).
        change (inject_Z (Z.of_nat (length CENTRE_ORDER))) with 7 in H.
        apply Qle_shift_div_l; [reflexivity|].
        eapply Qle_trans; [|exact H]. discriminate. }
      destruct (Qmin_cases 40 (avgHeadroom input / 30 * 40)) as [[H E]|[H E]];
        rewrite E; [reflexivity|].
      assert (Hd : avgHeadroom input / 30 * 40 == avgHeadroom input * (4 # 3))
        by field.
      rewrite Hd in *. lra. }
    assert (Hri : richnessScore input == 35).
    { unfold richnessScore. rewrite Hact7; [reflexivity|].
      intros k _. specialize (Hall k). lra. }
    assert (Hcl : clarityScore input == 25).
    { unfold clarityScore. fold n.
      assert (H6 : 6 <= n).
      { subst n. change 6 with (inject_Z 6). rewrite <- Zle_Qle. lia. }
      destruct (Qmin_cases 1 (n / 6)) as [[H E]|[H E]]; rewrite E.
      - rewrite Hconf. reflexivity.
      - assert (Hd : n / 6 == n * (1 # 6)) by field.
        rewrite Hd in *. rewrite Hconf. lra. }
    rewrite Hr, Hri, Hcl. reflexivity.
  - intros Hall Hconf Hnil. rewrite Hround.
    change 0%Z with (JsQ.round 0). apply round_comp.
    assert (Hr : resonanceScore input == 0).
    { unfold resonanceScore.
      assert (H0 : avgHeadroom input == 0).
      { rewrite avgHeadroom_eq. unfold headroomLoop, CENTRE_ORDER.
        cbn [fold_left fst].
        assert (Hk : forall k, Qmax 0 (instrumentCentres input k
                                       - noiseLevel input k) == 0).
        { intros k. apply Q.max_l. specialize (Hall k). lra. }
        rewrite !Hk. reflexivity. }
      rewrite H0. reflexivity. }
    assert (Hri : richnessScore input == 0).
    { unfold richnessScore. rewrite Hact0; [reflexivity|].
      intros k _. specialize (Hall k). lra. }
    assert (Hcl : clarityScore input == 0).
    { unfold clarityScore. rewrite Hnil, Hconf. reflexivity. }
    rewrite Hr, Hri, Hcl. reflexivity.
Qed.

Lemma X5_score_components_witness :
  computeCompatibilityScore
    {| instrumentCentres := flat (-20); noiseFloorBands := None;
       overtoneConfidence := 1;
       harmonics := repeat {| OvertoneDetector.frequency := 440;
                              OvertoneDetector.amplitude := -20;
                              OvertoneDetector.harmonicNumber := 1 |} 6 |}
  = 100%Z.
Proof.
  apply X5_score_components.
  - split; discriminate.
  - intros key. vm_compute. discriminate.
  - reflexivity.
  - apply le_n.
Defined.

End ScorerExtra.

(* ------------------------------------------------------------------ *)
(** ** Ordinals (compatibilityScorer.ts) *)
(* ------------------------------------------------------------------ *)

Module ScorerTextExtra.
Import Loops LoopsFacts ScorerText String.

(** The suffix chosen for every value of [n % 100]. *)
Lemma ordinal_suffix_table :
  forallb
    (fun v =>
       String.eqb
         match orElse (orElse (suffixAt (Z.rem (v - 20) 10)) (suffixAt v))
                      (suffixAt 0) with
         | Some x => x
         | None => "undefined"%string
         end
         (englishSuffix v))
    (zrange 0 100) = true.
Proof. vm_compute. reflexivity. Qed.

Lemma englishSuffix_mod100 (n : Z) : englishSuffix n = englishSuffix (n mod 100).
Proof.
  assert (E : ((n mod 100) mod 10 = n mod 10)%Z).
  { rewrite (Z.div_mod n 100) at 2 by lia.
    replace (100 * (n / 100) + n mod 100)%Z
      with (n mod 100 + (10 * (n / 100)) * 10)%Z by lia.
    rewrite Z.mod_add by lia. reflexivity. }
  unfold englishSuffix. rewrite Z.mod_mod by lia. rewrite E. reflexivity.
Qed.

(** X6: for a natural number [n], [ordinal(n)] is [n] followed by its
    English ordinal suffix: "th" when the last two digits are 11, 12 or
    13, otherwise "st", "nd", "rd" for a last digit 1, 2, 3, and "th"
    for the rest. *)
Theorem X6_ordinal_suffix :
  forall n : Z,
    (0 <= n)%Z ->
    ordinal n = String.append (NoteMapper.showZ n) (englishSuffix n).
Proof.
  intros n Hn.
  assert (Hv : (0 <= n mod 100 < 100)%Z) by (apply Z.mod_pos_bound; lia).
  pose proof ordinal_suffix_table as Ht.
  rewrite forallb_forall in Ht.
  specialize (Ht (n mod 100)%Z (proj2 (In_zrange 0 100 _) Hv)).
  apply String.eqb_eq in Ht.
  rewrite englishSuffix_mod100, <- Ht.
  unfold ordinal. cbv zeta. rewrite (Z.rem_mod_nonneg n 100) by lia. reflexivity.
Qed.

Lemma X6_ordinal_suffix_witness : ordinal 112 = "112th"%string.
Proof. apply (X6_ordinal_suffix 112). lia. Defined.

End ScorerTextExtra.

(* ------------------------------------------------------------------ *)
(** ** Recommendations (intentionMapper.ts) *)
(* ------------------------------------------------------------------ *)

Module IntentionExtra.
Import Centres Profile IntentionMapper JsQFacts.
Local Open Scope Q_scope.

Lemma insertScored_perm (x : Scored.t) (l : list Scored.t) :
  Permutation (x :: l) (insertScored x l).
Proof.
  induction l as [|y l IH]; simpl; [apply Permutation_refl|].
  destruct (JsQ.leb (Scored.relevance y) (Scored.relevance x)).
  - apply Permutation_refl.
  - eapply perm_trans; [apply perm_swap|]. apply perm_skip. exact IH.
Qed.

Lemma sortScored_perm (l : list Scored.t) : Permutation l (sortScored l).
Proof.
  induction l as [|x l IH]; simpl; [apply perm_nil|].
  eapply perm_trans; [apply perm_skip; exact IH|]. apply insertScored_perm.
Qed.

Lemma insertScored_sorted (x : Scored.t) (l : list Scored.t) :
  StronglySorted byRelevance l -> StronglySorted byRelevance (insertScored x l).
Proof.
  induction l as [|y l IH]; intros Hs; simpl.
  - constructor; constructor.
  - inversion Hs as [|? ? Hl Hy]; subst.
    destruct (JsQ.leb (Scored.relevance y) (Scored.relevance x)) eqn:E.
    + apply leb_le in E. constructor; [exact Hs|].
      constructor; [exact E|].
      eapply Forall_impl; [|exact Hy]. unfold byRelevance. intros z Hz.
      eapply Qle_trans; eassumption.
    + apply leb_gt in E. constructor; [apply IH; exact Hl|].
      eapply Permutation_Forall; [apply insertScored_perm|].
      constructor; [unfold byRelevance; apply Qlt_le_weak; exact E|exact Hy].
Qed.

Lemma sortScored_sorted (l : list Scored.t) :
  StronglySorted byRelevance (sortScored l).
Proof.
  induction l as [|x l IH]; simpl; [constructor|].
  apply insertScored_sorted. exact IH.
Qed.

Lemma coverage_sum_bounds (profile : InstrumentProfile)
      (keys : list EnergyCentreKey) :
  (forall key, 0 <= coverageOf profile key <= 1) ->
  forall acc,
    acc <= fold_left (fun sum key => sum + coverageOf profile key) keys acc
    /\ fold_left (fun sum key => sum + coverageOf profile key) keys acc
       <= acc + inject_Z (Z.of_nat (length keys)).
Proof.
  intros Hc. induction keys as [|k keys IH]; intros acc.
  - cbn [fold_left length]. change (inject_Z (Z.of_nat 0)) with 0. split; lra.
  - cbn [fold_left length]. destruct (IH (acc + coverageOf profile k)) as [H1 H2].
    specialize (Hc k). rewrite Nat2Z.inj_succ. unfold Z.succ.
    rewrite inject_Z_plus. change (inject_Z 1) with 1. split; lra.
Qed.

(** X7: [recommendInstruments] returns every profile of its input
    exactly once, each with the reason computed for it, in order of
    decreasing relevance (the mean coverage of the intention's primary
    centres); the relevance lies in [0, 1] when the profile's coverages
    do. *)
Theorem X7_recommendations_sorted_permutation :
  forall (intention : Intention) (profiles : list InstrumentProfile),
    let out := recommendInstruments intention profiles in
    Permutation (map fst out) profiles /\
    StronglySorted
      (fun a b => relevanceOf intention (fst b) <= relevanceOf intention (fst a))
      out /\
    (forall p r, In (p, r) out -> r = reasonOf intention p) /\
    (forall p, (forall key, 0 <= coverageOf p key <= 1) ->
               0 <= relevanceOf intention p <= 1).
Proof.
  intros intention profiles out. subst out. unfold recommendInstruments.
  set (mk := fun profile =>
               {| Scored.profile := profile;
                  Scored.relevance := relevanceOf intention profile;
                  Scored.reason := reasonOf intention profile |}).
  set (scored := map mk profiles).
  assert (Hall : Forall (fun s => s = mk (Scored.profile s)) (sortScored scored)).
  { eapply Permutation_Forall; [apply sortScored_perm|].
    subst scored. apply Forall_forall. intros s Hs.
    apply in_map_iff in Hs. destruct Hs as [p [E _]]. subst s. reflexivity. }
  split; [|split; [|split]].
  - rewrite map_map. cbn [fst].
    eapply perm_trans;
      [apply Permutation_map; apply Permutation_sym; apply sortScored_perm|].
    subst scored. rewrite map_map. cbn [Scored.profile mk].
    rewrite map_id. apply Permutation_refl.
  - pose proof (sortScored_sorted scored) as Hs.
    induction Hs as [|s l Hl IH Hf]; [constructor|].
    inversion Hall as [|? ? Hs0 Hl0]; subst.
    cbn [map]. constructor; [apply IH; exact Hl0|].
    rewrite Forall_map. rewrite Forall_forall in *.
    intros z Hz. cbn [fst]. specialize (Hf z Hz). unfold byRelevance in Hf.
    rewrite Hs0 in Hf. rewrite (Hl0 z Hz) in Hf. exact Hf.
  - intros p r Hin. apply in_map_iff in Hin. destruct Hin as [s [E Hs]].
    rewrite Forall_forall in Hall. specialize (Hall s Hs).
    inversion E; subst p r. rewrite Hall at 1. reflexivity.
  - intros p Hc. unfold relevanceOf.
    set (keys := primaryCentres (INTENTIONS intention)).
    destruct (coverage_sum_bounds p keys Hc 0) as [H1 H2].
    assert (Hn : 0 < inject_Z (Z.of_nat (length keys))).
    { subst keys. destruct intention; reflexivity. }
    split.
    + apply Qle_shift_div_l; [exact Hn|]. lra.
    + apply Qle_shift_div_r; [exact Hn|]. lra.
Qed.

End IntentionExtra.

(* ------------------------------------------------------------------ *)
(** ** Overtone detection (overtoneDetector.ts) *)
(* ------------------------------------------------------------------ *)

Module OvertoneExtra.
Import Loops LoopsFacts OvertoneDetector JsQFacts.
Local Open Scope Q_scope.

Lemma zrange_length lo hi : length (zrange lo hi) = Z.to_nat (hi - lo).
Proof. unfold zrange. rewrite length_map, length_seq. reflexivity. Qed.

Lemma zrange_nth lo hi (i : nat) d :
  (i < Z.to_nat (hi - lo))%nat ->
  nth i (zrange lo hi) d = (lo + Z.of_nat i)%Z.
Proof.
  intros H. unfold zrange.
  rewrite (nth_indep _ d (lo + Z.of_nat 0)%Z)
    by (rewrite length_map, length_seq; exact H).
  rewrite (map_nth (fun k => (lo + Z.of_nat k)%Z)).
  rewrite seq_nth by exact H. reflexivity.
Qed.

Lemma hpsMultiply_length ms h hps :
  length (hpsMultiply ms h hps) = length hps.
Proof.
  unfold hpsMultiply. rewrite length_map, length_combine, zrange_length. lia.
Qed.

Lemma hpsMultiply_nth ms h hps (i : nat) d :
  (i < length hps)%nat ->
  nth i (hpsMultiply ms h hps) d =
    if (Z.of_nat i * h <? Z.of_nat (length ms))%Z
    then pow10_mul (nth i hps d) (linear ms (Z.of_nat i * h))
    else nth i hps d.
Proof.
  intros H. unfold hpsMultiply.
  set (f := fun iv : Z * pow10 => _).
  rewrite (nth_indep _ d (f (0%Z, d)))
    by (rewrite length_map, length_combine, zrange_length; lia).
  rewrite (map_nth f).
  rewrite combine_nth by (rewrite zrange_length; lia).
  rewrite zrange_nth by lia.
  subst f. cbv beta iota. rewrite Z.add_0_l. reflexivity.
Qed.

Lemma hps_fold ms (hs : list Z) (i : nat) d :
  (forall h, In h hs -> (Z.of_nat i * h < Z.of_nat (length ms))%Z) ->
  forall hps,
    (i < length hps)%nat ->
    length (fold_left (fun hps h => hpsMultiply ms h hps) hs hps) = length hps /\
    exponent (nth i (fold_left (fun hps h => hpsMultiply ms h hps) hs hps) d)
    = fold_left (fun acc h => acc + get ms (Z.of_nat i * h) / 20) hs
                (exponent (nth i hps d)).
Proof.
  induction hs as [|h hs IH]; intros Hin hps Hi.
  - split; reflexivity.
  - cbn [fold_left].
    destruct (IH (fun h' H' => Hin h' (or_intror H')) (hpsMultiply ms h hps))
      as [H1 H2]; [rewrite hpsMultiply_length; exact Hi|].
    rewrite H1, H2, hpsMultiply_length. split; [reflexivity|].
    rewrite hpsMultiply_nth by exact Hi.
    pose proof (Hin h (or_introl eq_refl)) as Hh.
    apply Z.ltb_lt in Hh. rewrite Hh. reflexivity.
Qed.

Lemma floor_quotient (a b : Z) :
  (0 < b)%Z -> JsQ.floor (inject_Z a / inject_Z b) = (a / b)%Z.
Proof.
  intros H. unfold JsQ.floor. destruct b as [|p|p]; try lia.
  unfold Qdiv, Qinv, Qmult, inject_Z, Qfloor. cbn [Qnum Qden].
  rewrite Z.mul_1_r, Pos.mul_1_l. reflexivity.
Qed.

(** X8: for [numHarmonics >= 1] the product array has
    [floor(length / numHarmonics)] entries, and for each of them and
    each harmonic [h] up to [numHarmonics] the index [i * h] lies
    inside the spectrum: the bound check on [sourceIdx] never fails. *)
Theorem X8_hps_bound_check_never_fails :
  forall (magnitudeSpectrum : list Q) (numHarmonics : Z),
    (1 <= numHarmonics)%Z ->
    let len := Z.of_nat (length magnitudeSpectrum) in
    let halfLength := JsQ.floor (inject_Z len / inject_Z numHarmonics) in
    Z.of_nat (length (hpsArray magnitudeSpectrum numHarmonics)) = halfLength /\
    forall i h : Z,
      (0 <= i < halfLength)%Z -> (1 <= h <= numHarmonics)%Z ->
      (i * h <? len)%Z = true.
Proof.
  intros ms nh Hnh len halfLength.
  assert (Hhalf : halfLength = (len / nh)%Z)
    by (apply floor_quotient; lia).
  assert (Hlen0 : (0 <= halfLength)%Z)
    by (rewrite Hhalf; apply Z.div_pos; subst len; lia).
  assert (Hbound : forall i h, (0 <= i < halfLength)%Z ->
                               (1 <= h <= nh)%Z -> (i * h < len)%Z).
  { intros i h Hi Hh. rewrite Hhalf in Hi.
    pose proof (Z.mul_div_le len nh ltac:(lia)). nia. }
  set (init := map (linear ms) (zrange 0 halfLength)).
  assert (Hinit : length init = Z.to_nat halfLength).
  { subst init. rewrite length_map, zrange_length. f_equal. lia. }
  split.
  - unfold hpsArray. fold len. fold halfLength. fold init.
    destruct (Z_lt_le_dec 0 halfLength) as [Hpos|Hz].
    + destruct (hps_fold ms (zrange 2 (nh + 1)) 0 (Pow10 0)) with (hps := init)
        as [H1 _].
      * intros h Hh. apply In_zrange in Hh. apply (Hbound 0%Z h); lia.
      * lia.
      * rewrite H1, Hinit. lia.
    + assert (E : init = []) by (destruct init; [reflexivity|simpl in Hinit; lia]).
      rewrite E.
      assert (G : forall hs,
                 fold_left (fun hps h => hpsMultiply ms h hps) hs [] = []).
      { induction hs as [|h hs IH]; [reflexivity|]. cbn [fold_left].
        exact IH. }
      rewrite G. simpl. lia.
  - intros i h Hi Hh. apply Z.ltb_lt. apply Hbound; assumption.
Qed.

Lemma X8_hps_bound_check_never_fails_witness :
  Z.of_nat (length (hpsArray [-40; -20; -30; -50; -60; -70; -80] 2)) = 3%Z.
Proof.
  apply (X8_hps_bound_check_never_fails [-40; -20; -30; -50; -60; -70; -80] 2).
  lia.
Defined.

Section PeakSearch.
Variable hps : list Q.
Variable lo : Z.

Let at_ (i : Z) : Q := nth (Z.to_nat i) hps 0.
Let step (st : option Q * Z) (i : Z) : option Q * Z :=
  let (maxVal, maxBin) := st in
  let v := nth (Z.to_nat i) hps 0 in
  if float_gtb v maxVal then (Some v, i) else (maxVal, maxBin).

Lemma argmax_fold (n : nat) :
  let k := (lo + Z.of_nat n)%Z in
  let st := fold_left step (zrange lo k) (None, lo) in
  (n = 0%nat /\ st = (None, lo)) \/
  (exists maxBin,
      st = (Some (at_ maxBin), maxBin) /\
      (lo <= maxBin < k)%Z /\
      (forall i, (lo <= i < k)%Z -> at_ i <= at_ maxBin) /\
      (forall i, (lo <= i < maxBin)%Z -> at_ i < at_ maxBin)).
Proof.
  induction n as [|n IH]; intros k st; subst k st.
  - left. rewrite zrange_empty by lia. split; reflexivity.
  - right. replace (lo + Z.of_nat (S n))%Z with (lo + Z.of_nat n + 1)%Z by lia.
    rewrite zrange_snoc by lia. rewrite fold_left_app. cbn [fold_left].
    destruct IH as [[En E]|[mb [E [Hmb [Hmax Hfirst]]]]]; rewrite E.
    + subst n. exists lo. cbn [step float_gtb].
      replace (lo + Z.of_nat 0)%Z with lo by lia.
      split; [reflexivity|]. split; [lia|]. split.
      * intros i Hi. replace i with lo by lia. apply Qle_refl.
      * intros i Hi. lia.
    + cbn [step float_gtb]. fold (at_ (lo + Z.of_nat n)).
      destruct (JsQ.ltb (at_ mb) (at_ (lo + Z.of_nat n))) eqn:C.
      * apply ltb_lt in C. exists (lo + Z.of_nat n)%Z.
        split; [reflexivity|]. split; [lia|]. split.
        -- intros i Hi. destruct (Z.eq_dec i (lo + Z.of_nat n)) as [->|Ne];
             [apply Qle_refl|].
           eapply Qle_trans; [apply Hmax; lia|]. apply Qlt_le_weak. exact C.
        -- intros i Hi. eapply Qle_lt_trans; [apply Hmax; lia|exact C].
      * apply ltb_ge in C. exists mb.
        split; [reflexivity|]. split; [lia|]. split.
        -- intros i Hi. destruct (Z.eq_dec i (lo + Z.of_nat n)) as [->|Ne];
             [exact C|]. apply Hmax. lia.
        -- exact Hfirst.
Qed.

End PeakSearch.

(** [harmonicProductSpectrum] returns the frequency of the bin its peak
    search finds in its product array. *)
Lemma harmonicProductSpectrum_peakSearch
      (magnitudeSpectrum : list Q) (sampleRate fftSize : Q) (numHarmonics : Z) :
  harmonicProductSpectrum magnitudeSpectrum sampleRate fftSize numHarmonics
  = (inject_Z (snd (peakSearch pow10_gtb (Pow10 0)
                               (hpsArray magnitudeSpectrum numHarmonics)
                               (JsQ.ceil ((20 * fftSize) / sampleRate))))
     * sampleRate) / fftSize.
Proof.
  unfold harmonicProductSpectrum, peakSearch. cbv zeta.
  destruct (fold_left _ _ _) as [maxVal maxBin]. reflexivity.
Qed.

(** X9: the peak search of [harmonicProductSpectrum], on whatever
    numbers the product array holds and from a non-negative [minBin]
    on: when the array reaches beyond [minBin] it returns the first bin
    from [minBin] on where the array is largest, together with that
    value; otherwise (also for an empty array) it returns [minBin]
    itself. *)
Theorem X9_peak_search_returns_first_largest_bin :
  forall (hps : list Q) (minBin : Z),
    (0 <= minBin)%Z ->
    let halfLength := Z.of_nat (length hps) in
    let at_ := fun i : Z => nth (Z.to_nat i) hps 0 in
    let maxVal := fst (peakSearch float_gtb 0 hps minBin) in
    let maxBin := snd (peakSearch float_gtb 0 hps minBin) in
    if (minBin <? halfLength)%Z
    then (minBin <= maxBin < halfLength)%Z /\
         maxVal = Some (at_ maxBin) /\
         (forall i, (minBin <= i < halfLength)%Z -> at_ i <= at_ maxBin) /\
         (forall i, (minBin <= i < maxBin)%Z -> at_ i < at_ maxBin)
    else maxBin = minBin /\ maxVal = None.
Proof.
  intros hps minBin _ halfLength at_ maxVal maxBin.
  subst maxVal maxBin. unfold peakSearch. fold halfLength.
  destruct (minBin <? halfLength)%Z eqn:C.
  - apply Z.ltb_lt in C.
    pose proof (argmax_fold hps minBin (Z.to_nat (halfLength - minBin))) as A.
    cbv zeta in A.
    replace (minBin + Z.of_nat (Z.to_nat (halfLength - minBin)))%Z
      with halfLength in A by lia.
    destruct A as [[En _]|[mb [E [Hmb [Hmax Hfirst]]]]]; [lia|].
    rewrite E. cbn [fst snd].
    split; [exact Hmb|]. split; [reflexivity|]. split; assumption.
  - apply Z.ltb_ge in C. rewrite zrange_empty by exact C. cbn [fold_left fst snd].
    split; reflexivity.
Qed.

Lemma X9_peak_search_returns_first_largest_bin_witness :
  (1 <= snd (peakSearch float_gtb 0%Q [9%Q; 1%Q; 3%Q; 2%Q; 3%Q] 1) < 5)%Z.
Proof.
  pose proof (X9_peak_search_returns_first_largest_bin [9; 1; 3; 2; 3] 1
                ltac:(lia)) as H.
  cbv zeta in H.
  change (1 <? Z.of_nat (length [9; 1; 3; 2; 3]))%Z with true in H.
  cbv iota in H. exact (proj1 H).
Defined.

End OvertoneExtra.

(* ------------------------------------------------------------------ *)
(** ** Spectral peaks and harmonics (overtoneDetector.ts) *)
(* ------------------------------------------------------------------ *)

Module PeakExtra.
Import Loops LoopsFacts OvertoneDetector JsQFacts OvertoneFacts.
Local Open Scope Q_scope.

Lemma insertPeak_perm (x : Peak.t) (l : list Peak.t) :
  Permutation (x :: l) (insertPeak x l).
Proof.
  induction l as [|y l IH]; simpl; [apply Permutation_refl|].
  destruct (JsQ.leb (Peak.amplitude y) (Peak.amplitude x)).
  - apply Permutation_refl.
  - eapply perm_trans; [apply perm_swap|]. apply perm_skip. exact IH.
Qed.

Lemma sortPeaks_perm (l : list Peak.t) : Permutation l (sortPeaks l).
Proof.
  induction l as [|x l IH]; simpl; [apply perm_nil|].
  eapply perm_trans; [apply perm_skip; exact IH|]. apply insertPeak_perm.
Qed.

Lemma insertPeak_sorted (x : Peak.t) (l : list Peak.t) :
  StronglySorted (fun a b => Peak.amplitude b <= Peak.amplitude a) l ->
  StronglySorted (fun a b => Peak.amplitude b <= Peak.amplitude a)
                 (insertPeak x l).
Proof.
  induction l as [|y l IH]; intros Hs; simpl.
  - constructor; constructor.
  - inversion Hs as [|? ? Hl Hy]; subst.
    destruct (JsQ.leb (Peak.amplitude y) (Peak.amplitude x)) eqn:E.
    + apply leb_le in E. constructor; [exact Hs|].
      constructor; [exact E|].
      eapply Forall_impl; [|exact Hy]. cbv beta. intros z Hz.
      eapply Qle_trans; eassumption.
    + apply leb_gt in E. constructor; [apply IH; exact Hl|].
      eapply Permutation_Forall; [apply insertPeak_perm|].
      constructor; [apply Qlt_le_weak; exact E|exact Hy].
Qed.

Lemma sortPeaks_sorted (l : list Peak.t) :
  StronglySorted (fun a b => Peak.amplitude b <= Peak.amplitude a)
                 (sortPeaks l).
Proof.
  induction l as [|x l IH]; simpl; [constructor|].
  apply insertPeak_sorted. exact IH.
Qed.

Lemma sorted_trichotomy {A} (R : A -> A -> Prop) (l : list A) :
  StronglySorted R l ->
  forall p q, In p l -> In q l -> p = q \/ R p q \/ R q p.
Proof.
  induction 1 as [|a l Hs IH Hf]; intros p q Hp Hq; [destruct Hp|].
  rewrite Forall_forall in Hf.
  destruct Hp as [->|Hp], Hq as [->|Hq].
  - left; reflexivity.
  - right; left. apply Hf. exact Hq.
  - right; right. apply Hf. exact Hp.
  - apply IH; assumption.
Qed.

Lemma findSpectralPeaks_sorted ms sr fft thr minD :
  StronglySorted (fun a b => Peak.amplitude b <= Peak.amplitude a)
                 (findSpectralPeaks ms sr fft thr minD).
Proof. unfold findSpectralPeaks. apply sortPeaks_sorted. Qed.

(** X10: every peak that [findSpectralPeaks] returns sits in a bin
    between 2 and [length - 3], carries that bin's frequency and
    amplitude, exceeds the threshold and its four nearest neighbours;
    the result is in order of decreasing amplitude; and two peaks of the
    result are never in the same bin nor closer than [minDistance]
    bins. *)
Theorem X10_spectral_peaks_are_spaced_local_maxima :
  forall (magnitudeSpectrum : list Q) (sampleRate fftSize thresholdDB : Q)
         (minDistance : Z),
    let m := get magnitudeSpectrum in
    let out := findSpectralPeaks magnitudeSpectrum sampleRate fftSize
                                 thresholdDB minDistance in
    (forall p, In p out ->
       (2 <= Peak.bin p < Z.of_nat (length magnitudeSpectrum) - 2)%Z /\
       Peak.frequency p = (inject_Z (Peak.bin p) * sampleRate) / fftSize /\
       Peak.amplitude p = m (Peak.bin p) /\
       thresholdDB < m (Peak.bin p) /\
       m (Peak.bin p - 1)%Z < m (Peak.bin p) /\
       m (Peak.bin p + 1)%Z < m (Peak.bin p) /\
       m (Peak.bin p - 2)%Z < m (Peak.bin p) /\
       m (Peak.bin p + 2)%Z < m (Peak.bin p)) /\
    StronglySorted (fun a b => Peak.amplitude b <= Peak.amplitude a) out /\
    (forall p q, In p out -> In q out ->
       (Peak.bin p < Peak.bin q)%Z ->
       (minDistance <= Peak.bin q - Peak.bin p)%Z) /\
    (forall p q, In p out -> In q out -> Peak.bin p = Peak.bin q -> p = q).
Proof.
  intros ms sr fft thr minD m out. subst out. unfold findSpectralPeaks.
  fold m.
  match goal with
  | |- context [fold_left ?f _ _] => set (step := f)
  end.
  set (mk := fun i : Z =>
               {| Peak.bin := i;
                  Peak.frequency := (inject_Z i * sr) / fft;
                  Peak.amplitude := m i |}).
  set (good := fun (hi : Z) (p : Peak.t) =>
                 (2 <= Peak.bin p < hi)%Z /\
                 Peak.frequency p = (inject_Z (Peak.bin p) * sr) / fft /\
                 Peak.amplitude p = m (Peak.bin p) /\
                 thr < m (Peak.bin p) /\
                 m (Peak.bin p - 1)%Z < m (Peak.bin p) /\
                 m (Peak.bin p + 1)%Z < m (Peak.bin p) /\
                 m (Peak.bin p - 2)%Z < m (Peak.bin p) /\
                 m (Peak.bin p + 2)%Z < m (Peak.bin p)).
  set (R := fun b a : Peak.t =>
              (Peak.bin a < Peak.bin b)%Z /\
              (minD <= Peak.bin b - Peak.bin a)%Z).
  assert (Hinv : forall n : nat,
             let k := (2 + Z.of_nat n)%Z in
             let peaks := fold_left step (zrange 2 k) [] in
             Forall (good k) peaks /\ StronglySorted R (rev peaks)).
  { induction n as [|n IH]; intros k peaks; subst k peaks.
    - rewrite zrange_empty by lia. split; constructor.
    - replace (2 + Z.of_nat (S n))%Z with (2 + Z.of_nat n + 1)%Z by lia.
      rewrite zrange_snoc by lia. rewrite fold_left_app. cbn [fold_left].
      cbv zeta in IH. destruct IH as [Hg Hs].
      set (i := (2 + Z.of_nat n)%Z) in *.
      set (peaks := fold_left step (zrange 2 i) []) in *.
      assert (Hg' : Forall (good (i + 1)%Z) peaks).
      { eapply Forall_impl; [|exact Hg]. intros p Hp. unfold good in *.
        repeat split; try tauto; lia. }
      assert (Hcase :
                step peaks i = peaks \/
                (step peaks i = peaks ++ [mk i] /\ good (i + 1)%Z (mk i) /\
                 forall last rest, rev peaks = last :: rest ->
                                   (minD <= i - Peak.bin last)%Z)).
      { unfold step.
        destruct (JsQ.ltb thr (m i) && JsQ.ltb (m (i - 1)%Z) (m i)
                  && JsQ.ltb (m (i + 1)%Z) (m i) && JsQ.ltb (m (i - 2)%Z) (m i)
                  && JsQ.ltb (m (i + 2)%Z) (m i)) eqn:C;
          [|left; reflexivity].
        repeat rewrite andb_true_iff in C.
        destruct C as [[[[C1 C2] C3] C4] C5].
        apply ltb_lt in C1, C2, C3, C4, C5.
        assert (Hmk : good (i + 1)%Z (mk i)).
        { unfold good, mk. cbn [Peak.bin Peak.frequency Peak.amplitude].
          repeat split; try assumption; lia. }
        destruct (rev peaks) as [|last rest] eqn:Er.
        - right. split; [reflexivity|]. split; [exact Hmk|]. discriminate.
        - destruct (minD <=? i - Peak.bin last)%Z eqn:D; [|left; reflexivity].
          apply Z.leb_le in D. right. split; [reflexivity|].
          split; [exact Hmk|]. intros l0 r0 E. inversion E; subst. exact D. }
      destruct Hcase as [E|[E [Hmk Hd]]]; rewrite E; [split; assumption|].
      split.
      + apply Forall_app. split; [exact Hg'|]. constructor; [exact Hmk|constructor].
      + rewrite rev_app_distr. cbn [rev app].
        constructor; [exact Hs|].
        destruct (rev peaks) as [|last rest] eqn:Er; [constructor|].
        specialize (Hd last rest eq_refl).
        assert (Hlast : (Peak.bin last < i)%Z).
        { rewrite Forall_forall in Hg.
          assert (Hin : In last peaks)
            by (apply in_rev; rewrite Er; left; reflexivity).
          destruct (Hg last Hin) as [Hb _]. lia. }
        inversion Hs as [|? ? Hrest Hf]; subst.
        constructor.
        * unfold R, mk. cbn [Peak.bin]. split; assumption.
        * eapply Forall_impl; [|exact Hf]. intros a [Ha1 Ha2].
          unfold R, mk. cbn [Peak.bin]. split; lia. }
  set (len := Z.of_nat (length ms)).
  set (peaks := fold_left step (zrange 2 (len - 2)) []).
  assert (Hpeaks : Forall (good (len - 2)%Z) peaks /\ StronglySorted R (rev peaks)).
  { destruct (Z_lt_le_dec 2 (len - 2)) as [Hlt|Hle].
    - specialize (Hinv (Z.to_nat (len - 2 - 2))). cbv zeta in Hinv.
      replace (2 + Z.of_nat (Z.to_nat (len - 2 - 2)))%Z with (len - 2)%Z
        in Hinv by lia.
      exact Hinv.
    - subst peaks. rewrite zrange_empty by exact Hle. split; constructor. }
  destruct Hpeaks as [Hg Hs].
  pose proof (sortPeaks_perm peaks) as Hperm.
  assert (Hin : forall p, In p (sortPeaks peaks) -> In p (rev peaks)).
  { intros p Hp. apply in_rev. rewrite rev_involutive.
    eapply Permutation_in; [apply Permutation_sym; exact Hperm|exact Hp]. }
  split; [|split; [|split]].
  - intros p Hp. rewrite Forall_forall in Hg.
    apply (Hg p). apply in_rev. apply Hin. exact Hp.
  - apply sortPeaks_sorted.
  - intros p q Hp Hq Hlt.
    destruct (sorted_trichotomy R (rev peaks) Hs p q (Hin p Hp) (Hin q Hq))
      as [E|[[H1 H2]|[H1 H2]]].
    + subst q. lia.
    + lia.
    + exact H2.
  - intros p q Hp Hq Heq.
    destruct (sorted_trichotomy R (rev peaks) Hs p q (Hin p Hp) (Hin q Hq))
      as [E|[[H1 H2]|[H1 H2]]]; [exact E|lia|lia].
Qed.

Lemma firstn_sorted {A} (R : A -> A -> Prop) (n : nat) (l : list A) :
  StronglySorted R l -> StronglySorted R (firstn n l).
Proof.
  revert l. induction n as [|n IH]; intros l Hs; [constructor|].
  destruct l as [|a l]; [constructor|].
  inversion Hs as [|? ? Hl Hf]; subst. cbn [firstn].
  constructor; [apply IH; exact Hl|].
  rewrite Forall_forall in *. intros x Hx. apply Hf.
  rewrite <- (firstn_skipn n l). apply in_or_app. left. exact Hx.
Qed.

Lemma classify_fold_facts fundamental (l : list Peak.t) :
  StronglySorted (fun a b => Peak.amplitude b <= Peak.amplitude a) l ->
  forall (hs : list HarmonicPeak) (mc : Z),
    StronglySorted (fun a b => amplitude b <= amplitude a) hs ->
    Forall (fun h => Forall (fun p => Peak.amplitude p <= amplitude h) l) hs ->
    let hs' := fst (fold_left (classifyStep fundamental) l (hs, mc)) in
    StronglySorted (fun a b => amplitude b <= amplitude a) hs' /\
    forall h, In h hs' ->
      In h hs \/
      (exists p, In p l /\ frequency h = Peak.frequency p /\
                 amplitude h = Peak.amplitude p) /\
      harmonicNumber h = JsQ.round (frequency h / fundamental) /\
      (1 <= harmonicNumber h)%Z /\
      Qabs (frequency h / fundamental - inject_Z (harmonicNumber h)) < 8 # 100.
Proof.
  induction 1 as [|p l Hl IH Hp]; intros hs mc Hs Hb hs'; subst hs'.
  - cbn [fold_left fst]. split; [exact Hs|]. intros h Hh. left; exact Hh.
  - cbn [fold_left].
    assert (Hb' : Forall (fun h => Forall (fun p => Peak.amplitude p <= amplitude h) l) hs).
    { eapply Forall_impl; [|exact Hb]. intros h Hh.
      inversion Hh; assumption. }
    set (h0 := {| frequency := Peak.frequency p;
                  amplitude := Peak.amplitude p;
                  harmonicNumber := JsQ.round (Peak.frequency p / fundamental) |}).
    assert (Hstep :
              classifyStep fundamental (hs, mc) p
              = if (1 <=? JsQ.round (Peak.frequency p / fundamental))%Z
                   && JsQ.ltb (Qabs (Peak.frequency p / fundamental
                                     - inject_Z (JsQ.round (Peak.frequency p / fundamental))))
                              (8 # 100)
                then (hs ++ [h0], (mc + 1)%Z) else (hs, mc)) by reflexivity.
    rewrite Hstep. clear Hstep.
    destruct ((1 <=? JsQ.round (Peak.frequency p / fundamental))%Z
              && JsQ.ltb (Qabs (Peak.frequency p / fundamental
                                - inject_Z (JsQ.round (Peak.frequency p / fundamental))))
                         (8 # 100)) eqn:C.
    + apply andb_true_iff in C. destruct C as [C1 C2].
      apply Z.leb_le in C1. apply ltb_lt in C2.
      destruct (IH (hs ++ [h0]) (mc + 1)%Z) as [H1 H2].
      * clear IH. induction Hs as [|a hs Hs IHs Hf].
        -- cbn [app]. constructor; constructor.
        -- cbn [app]. inversion Hb as [|? ? Ha Hb0]; subst.
           inversion Hb' as [|? ? Ha' Hb0']; subst.
           constructor; [apply IHs; assumption|].
           apply Forall_app. split; [exact Hf|].
           constructor; [|constructor].
           inversion Ha; subst. cbn [amplitude h0]. assumption.
      * apply Forall_app. split; [exact Hb'|].
        constructor; [|constructor]. cbn [amplitude h0]. exact Hp.
      * split; [exact H1|]. intros h Hh.
        destruct (H2 h Hh) as [Hin|[[q [Hq Hq']] Hrest]].
        -- apply in_app_or in Hin. destruct Hin as [Hin|[<-|[]]].
           ++ left; exact Hin.
           ++ right. cbn [frequency amplitude harmonicNumber h0].
              split; [exists p; split; [left; reflexivity|split; reflexivity]|].
              split; [reflexivity|]. split; assumption.
        -- right. split; [exists q; split; [right; exact Hq|exact Hq']|exact Hrest].
    + destruct (IH hs mc Hs Hb') as [H1 H2].
      split; [exact H1|]. intros h Hh.
      destruct (H2 h Hh) as [Hin|[[q [Hq Hq']] Hrest]].
      * left; exact Hin.
      * right. split; [exists q; split; [right; exact Hq|exact Hq']|exact Hrest].
Qed.

(** X11: every harmonic that [detectOvertones] reports is one of the
    sixteen strongest spectral peaks, its number is the ratio of its
    frequency to the fundamental rounded to the nearest integer, that
    number is at least 1 and the ratio is within 0.08 of it; the
    harmonics are listed in order of decreasing amplitude, and the
    fundamental is the one [harmonicProductSpectrum] finds. *)
Theorem X11_harmonics_are_near_integer_multiples :
  forall (magnitudeSpectrum : list Q) (sampleRate fftSize : Q),
    let r := detectOvertones magnitudeSpectrum sampleRate fftSize in
    let peaks := findSpectralPeaks magnitudeSpectrum sampleRate fftSize (-60) 5 in
    fundamental r
    = harmonicProductSpectrum magnitudeSpectrum sampleRate fftSize 5 /\
    StronglySorted (fun a b => amplitude b <= amplitude a) (harmonics r) /\
    forall h, In h (harmonics r) ->
      (exists p, In p (firstn 16 peaks) /\
                 frequency h = Peak.frequency p /\
                 amplitude h = Peak.amplitude p) /\
      harmonicNumber h = JsQ.round (frequency h / fundamental r) /\
      (1 <= harmonicNumber h)%Z /\
      Qabs (frequency h / fundamental r - inject_Z (harmonicNumber h)) < 8 # 100.
Proof.
  intros ms sr fft r peaks. subst r. unfold detectOvertones. fold peaks.
  set (f := harmonicProductSpectrum ms sr fft 5).
  assert (Hs : StronglySorted (fun a b => Peak.amplitude b <= Peak.amplitude a)
                              (firstn 16 peaks)).
  { apply firstn_sorted.
    apply findSpectralPeaks_sorted. }
  destruct (classify_fold_facts f (firstn 16 peaks) Hs [] 0%Z) as [H1 H2];
    [constructor|constructor|].
  unfold classify. 
  destruct (fold_left (classifyStep f) (firstn 16 peaks) ([], 0%Z)) as [hs mc].
  cbn [fst] in H1, H2. cbn [fundamental harmonics].
  split; [reflexivity|]. split; [exact H1|].
  intros h Hh. destruct (H2 h Hh) as [[]|G]. exact G.
Qed.

End PeakExtra.

(* ------------------------------------------------------------------ *)
(** ** Transient events (transientDetector.ts) *)
(* ------------------------------------------------------------------ *)

Module TransientExtra.
Import Loops LoopsFacts TransientDetector JsQFacts TransientFacts.
Local Open Scope Q_scope.

(** The peak loop computes the largest absolute value it visits, or
    keeps its start value. *)
Lemma peak_fold (buffer : list Q) (s : Z) (idx : list Z) :
  forall p0,
    let r := fold_left
               (fun peak i =>
                  let abs := Qabs (get buffer (s + i)) in
                  if JsQ.ltb peak abs then abs else peak) idx p0 in
    p0 <= r /\
    (forall i, In i idx -> Qabs (get buffer (s + i)) <= r) /\
    (r = p0 \/ exists i, In i idx /\ r = Qabs (get buffer (s + i))).
Proof.
  induction idx as [|i idx IH]; intros p0 r; subst r.
  - cbn [fold_left]. split; [apply Qle_refl|]. split; [intros i []|left; reflexivity].
  - cbn [fold_left].
    destruct (JsQ.ltb p0 (Qabs (get buffer (s + i)))) eqn:C.
    + apply ltb_lt in C.
      destruct (IH (Qabs (get buffer (s + i)))) as [H1 [H2 H3]].
      split; [eapply Qle_trans; [apply Qlt_le_weak; exact C|exact H1]|].
      split.
      * intros j [<-|Hj]; [exact H1|apply H2; exact Hj].
      * right. destruct H3 as [E|[j [Hj E]]].
        -- exists i. split; [left; reflexivity|exact E].
        -- exists j. split; [right; exact Hj|exact E].
    + apply ltb_ge in C. destruct (IH p0) as [H1 [H2 H3]].
      split; [exact H1|]. split.
      * intros j [<-|Hj]; [eapply Qle_trans; [exact C|exact H1]|apply H2; exact Hj].
      * destruct H3 as [E|[j [Hj E]]]; [left; exact E|].
        right. exists j. split; [right; exact Hj|exact E].
Qed.

Lemma peakAt_facts (buffer : list Q) (cfg : TransientDetectorConfig) (s : Z) :
  (0 < windowSize cfg)%Z ->
  0 <= peakAt buffer cfg s /\
  (forall i, (0 <= i < windowSize cfg)%Z ->
             Qabs (get buffer (s + i)) <= peakAt buffer cfg s) /\
  (exists i, (0 <= i < windowSize cfg)%Z /\
             Qabs (get buffer (s + i)) == peakAt buffer cfg s).
Proof.
  intros Hws. unfold peakAt.
  destruct (peak_fold buffer s (zrange 0 (windowSize cfg)) 0) as [H1 [H2 H3]].
  cbv zeta in H1, H2, H3.
  split; [exact H1|]. split.
  - intros i Hi. apply H2. apply In_zrange. exact Hi.
  - destruct H3 as [E|[i [Hi E]]].
    + exists 0%Z. split; [lia|].
      assert (Hle : Qabs (get buffer (s + 0)) <= 0).
      { eapply Qle_trans; [apply H2; apply In_zrange; lia|].
        rewrite E. apply Qle_refl. }
      rewrite E. apply Qle_antisym; [exact Hle|apply Qabs_nonneg].
    + exists i. split; [apply In_zrange; exact Hi|]. rewrite E. reflexivity.
Qed.

Lemma numWindows_pos (buffer : list Q) (cfg : TransientDetectorConfig) :
  (0 < numWindows buffer cfg)%Z -> (0 < windowSize cfg)%Z.
Proof.
  unfold numWindows, JsQ.floor. destruct (windowSize cfg) as [|p|p]; [|lia|].
  - unfold Qdiv, Qinv, Qmult, inject_Z, Qfloor. cbn [Qnum Qden].
    rewrite Z.mul_0_r. cbn. lia.
  - unfold Qdiv, Qinv, Qmult, inject_Z, Qfloor. cbn [Qnum Qden].
    intros H. exfalso.
    assert (Z.of_nat (length buffer) * Z.neg 1 / Z.pos (1 * p) <= 0)%Z; [|lia].
    apply Z.div_le_upper_bound; lia.
Qed.

Section FieldFacts.
Variable buffer : list Q.
Variable sampleRate : Q.
Variable cfg : TransientDetectorConfig.
Variable energies : list Q.
Variable avgWindow : Z.
Variable minSamples : Z.

(** Every recorded event carries the values computed at its window,
    which passed the energy gate and the amplitude gate. *)
Lemma upTo_fields w :
  (avgWindow <= w)%Z ->
  forall e,
    In e (fst (loopUpTo buffer sampleRate cfg energies avgWindow minSamples w)) ->
    exists w', (avgWindow <= w' < w)%Z /\
      sampleIndex e = (w' * windowSize cfg)%Z /\
      timeSeconds e = inject_Z (w' * windowSize cfg) / sampleRate /\
      peakAmplitude e = peakAt buffer cfg (w' * windowSize cfg) /\
      energyRatio e = ratioAt energies avgWindow w' /\
      aboveThreshold cfg (ratioAt energies avgWindow w') = true /\
      minAmplitude cfg <= peakAt buffer cfg (w' * windowSize cfg).
Proof.
  apply (upTo_ind buffer sampleRate cfg energies avgWindow minSamples
    (fun w st =>
       forall e, In e (fst st) ->
         exists w', (avgWindow <= w' < w)%Z /\
           sampleIndex e = (w' * windowSize cfg)%Z /\
           timeSeconds e = inject_Z (w' * windowSize cfg) / sampleRate /\
           peakAmplitude e = peakAt buffer cfg (w' * windowSize cfg) /\
           energyRatio e = ratioAt energies avgWindow w' /\
           aboveThreshold cfg (ratioAt energies avgWindow w') = true /\
           minAmplitude cfg <= peakAt buffer cfg (w' * windowSize cfg))).
  - intros e [].
  - intros w0 [events lastD] Hw0 Hev. cbn [fst] in Hev.
    assert (Hold : forall e, In e events ->
              exists w', (avgWindow <= w' < w0 + 1)%Z /\
                sampleIndex e = (w' * windowSize cfg)%Z /\
                timeSeconds e = inject_Z (w' * windowSize cfg) / sampleRate /\
                peakAmplitude e = peakAt buffer cfg (w' * windowSize cfg) /\
                energyRatio e = ratioAt energies avgWindow w' /\
                aboveThreshold cfg (ratioAt energies avgWindow w') = true /\
                minAmplitude cfg <= peakAt buffer cfg (w' * windowSize cfg)).
    { intros e He. destruct (Hev e He) as [w' [H1 H2]].
      exists w'. split; [lia|exact H2]. }
    unfold detectStep.
    destruct (aboveThreshold cfg (ratioAt energies avgWindow w0)) eqn:Ea;
      [|exact Hold].
    destruct (minSamples <=? w0 * windowSize cfg - lastD)%Z; [|exact Hold].
    destruct (JsQ.ltb (peakAt buffer cfg (w0 * windowSize cfg)) (minAmplitude cfg))
      eqn:Ep; [exact Hold|].
    apply ltb_ge in Ep. cbn [fst]. intros e He.
    apply in_app_or in He. destruct He as [He|[<-|[]]]; [apply Hold; exact He|].
    exists w0. cbn [sampleIndex timeSeconds peakAmplitude energyRatio].
    split; [lia|]. repeat split; assumption.
Qed.

End FieldFacts.

(** What is known of a reported event. *)
Lemma event_facts (buffer : list Q) (sampleRate : Q)
      (cfg : TransientDetectorConfig) (e : TransientEvent) :
  In e (detectWith buffer sampleRate cfg) ->
  (0 < windowSize cfg)%Z /\
  (0 <= sampleIndex e)%Z /\
  (sampleIndex e + windowSize cfg <= Z.of_nat (length buffer))%Z /\
  timeSeconds e = inject_Z (sampleIndex e) / sampleRate /\
  peakAmplitude e = peakAt buffer cfg (sampleIndex e) /\
  minAmplitude cfg <= peakAmplitude e /\
  aboveThreshold cfg (energyRatio e) = true.
Proof.
  intros He. unfold detectWith, stateAt in He. cbv zeta in He.
  assert (Hn : (avgWindowSize buffer cfg <= numWindows buffer cfg)%Z)
    by (unfold avgWindowSize; lia).
  destruct (upTo_fields buffer sampleRate cfg (computeEnergies buffer cfg)
              (avgWindowSize buffer cfg) (minIntervalSamples sampleRate cfg)
              (numWindows buffer cfg) Hn e He)
    as [w [Hw [Hs [Ht [Hp [Hr [Ha Hm]]]]]]].
  assert (Hw20 : (20 <= w)%Z) by (unfold avgWindowSize in Hw; lia).
  assert (Hws : (0 < windowSize cfg)%Z) by (apply (numWindows_pos buffer); lia).
  rewrite numWindows_div in Hw by exact Hws.
  pose proof (Z.mul_div_le (Z.of_nat (length buffer)) (windowSize cfg) Hws).
  split; [exact Hws|].
  split; [rewrite Hs; nia|]. split; [rewrite Hs; nia|].
  split; [rewrite Hs; exact Ht|]. split; [rewrite Hs; exact Hp|].
  split; [rewrite Hp; exact Hm|rewrite Hr; exact Ha].
Qed.

(** X12: every reported event lies in a window that is inside the
    buffer; its time is its sample index over the sample rate; its peak
    amplitude is the largest absolute sample of the window and at least
    [minAmplitude]; and its energy ratio exceeds
    [10^(thresholdDB / 10)]. *)
Theorem X12_event_fields :
  forall (buffer : list Q) (sampleRate : Q) (config : PartialConfig)
         (e : TransientEvent),
    In e (detectTransients buffer sampleRate config) ->
    let cfg := withDefaults config in
    ((0 < windowSize cfg)%Z /\
     (0 <= sampleIndex e)%Z /\
     (sampleIndex e + windowSize cfg <= Z.of_nat (length buffer))%Z) /\
    timeSeconds e = inject_Z (sampleIndex e) / sampleRate /\
    minAmplitude cfg <= peakAmplitude e /\
    (forall i, (0 <= i < windowSize cfg)%Z ->
               Qabs (get buffer (sampleIndex e + i)) <= peakAmplitude e) /\
    (exists i, (0 <= i < windowSize cfg)%Z /\
               Qabs (get buffer (sampleIndex e + i)) == peakAmplitude e) /\
    0 < energyRatio e /\
    (Rpower 10 (Q2R (thresholdDB cfg / 10)) < Q2R (energyRatio e))%R.
Proof.
  intros buffer sampleRate config e He cfg.
  destruct (event_facts buffer sampleRate cfg e He)
    as [Hws [H0 [Hin [Ht [Hp [Hm Ha]]]]]].
  destruct (peakAt_facts buffer cfg (sampleIndex e) Hws) as [_ [Hmax Hex]].
  rewrite <- Hp in Hmax, Hex.
  split; [repeat split; assumption|].
  split; [exact Ht|]. split; [exact Hm|]. split; [exact Hmax|].
  split; [exact Hex|]. split.
  - unfold aboveThreshold, JsQ.gt_pow10 in Ha.
    destruct (JsQ.ltb 0 (energyRatio e)) eqn:E0; [|discriminate].
    apply ltb_lt. exact E0.
  - apply PowerFacts.gt_pow10_spec. exact Ha.
Qed.

Lemma X12_event_fields_witness :
  exists e, In e (detectTransients quietThenLoud 44100 shortWindows) /\
            1 # 10 <= peakAmplitude e.
Proof.
  assert (Hin : exists e,
             In e (detectTransients quietThenLoud 44100 shortWindows)).
  { eexists. vm_compute. left. reflexivity. }
  destruct Hin as [e He]. exists e. split; [exact He|].
  apply (X12_event_fields quietThenLoud 44100 shortWindows e He).
Defined.

(** X13: a recording in which every sample is below [minAmplitude] in
    absolute value yields no event, whatever its energy profile. *)
Theorem X13_quiet_recording_has_no_events :
  forall (buffer : list Q) (sampleRate : Q) (config : PartialConfig),
    (forall x, In x buffer -> Qabs x < minAmplitude (withDefaults config)) ->
    detectTransients buffer sampleRate config = [].
Proof.
  intros buffer sampleRate config Hq.
  destruct (detectTransients buffer sampleRate config) as [|e rest] eqn:E;
    [reflexivity|exfalso].
  assert (He : In e (detectWith buffer sampleRate (withDefaults config))).
  { unfold detectTransients in E. rewrite E. left. reflexivity. }
  destruct (event_facts buffer sampleRate _ e He)
    as [Hws [H0 [Hin [_ [Hp [Hm _]]]]]].
  destruct (peakAt_facts buffer (withDefaults config) (sampleIndex e) Hws)
    as [_ [_ [i [Hi Hex]]]].
  rewrite <- Hp in Hex.
  assert (Hx : In (get buffer (sampleIndex e + i)) buffer).
  { unfold get. apply nth_In. lia. }
  specialize (Hq _ Hx). rewrite Hex in Hq.
  apply (Qlt_not_le _ _ Hq). exact Hm.
Qed.

Lemma X13_quiet_recording_has_no_events_witness :
  detectTransients [1 # 20; - (1 # 20); 0] 44100 emptyConfig = [].
Proof.
  apply X13_quiet_recording_has_no_events.
  intros x [<-|[<-|[<-|[]]]]; reflexivity.
Defined.

Lemma firstn_skipn_nth {A} (l : list A) (s n i : nat) (d : A) :
  (i < n)%nat -> nth i (firstn n (skipn s l)) d = nth (s + i) l d.
Proof.
  intros Hi. rewrite nth_firstn.
  replace (i <? n)%nat with true by (symmetry; apply Nat.ltb_lt; exact Hi).
  rewrite nth_skipn. reflexivity.
Qed.

(** X14: for a start inside the buffer, [extractImpulseResponse]
    returns the samples from [transient.sampleIndex] on, as many as
    [Math.floor(durationSeconds * sampleRate)] (the product in double
    precision, as the code computes it) but not beyond the end of the
    buffer, and none when that count is not positive. *)
Theorem X14_impulse_response_is_slice :
  forall (buffer : list Q) (transient : TransientEvent)
         (durationSeconds sampleRate : Q),
    (0 <= sampleIndex transient)%Z ->
    let out := extractImpulseResponse buffer transient durationSeconds
                                      sampleRate in
    let start := sampleIndex transient in
    Z.of_nat (length out)
    = Z.max 0 (Z.min (JsQ.floor (JsQ.fmul durationSeconds sampleRate))
                     (Z.of_nat (length buffer) - start)) /\
    forall i : Z, (0 <= i < Z.of_nat (length out))%Z ->
                  get out i = get buffer (start + i).
Proof.
  intros buffer transient d sr H0 out start. subst out.
  unfold extractImpulseResponse. fold start.
  set (len := Z.min (JsQ.floor (JsQ.fmul d sr)) (Z.of_nat (length buffer) - start)).
  destruct (len <=? 0)%Z eqn:C.
  - apply Z.leb_le in C. split; [simpl; lia|]. simpl. intros i Hi. lia.
  - apply Z.leb_gt in C.
    assert (Hl : length (firstn (Z.to_nat len) (skipn (Z.to_nat start) buffer))
                 = Z.to_nat len).
    { rewrite length_firstn, length_skipn. lia. }
    split; [rewrite Hl; lia|].
    intros i Hi. rewrite Hl in Hi. unfold get.
    rewrite firstn_skipn_nth by lia. f_equal. lia.
Qed.

Lemma X14_impulse_response_is_slice_witness :
  Z.of_nat (length (extractImpulseResponse
                      (repeat 0 100)
                      {| sampleIndex := 2; timeSeconds := 0;
                         peakAmplitude := 0; energyRatio := 0 |}
                      (7 # 10) 90)) = 62%Z.
Proof.
  apply (X14_impulse_response_is_slice
           (repeat 0 100)
           {| sampleIndex := 2; timeSeconds := 0;
              peakAmplitude := 0; energyRatio := 0 |} (7 # 10) 90).
  simpl. lia.
Defined.

(** X15: the impulse response cut for a reported event, when the
    requested length [Math.floor(durationSeconds * sampleRate)] (in
    double precision, as the code computes it) is at least one analysis
    window, starts with that window and so contains a sample whose
    absolute value is the event's peak amplitude, at least
    [minAmplitude]. *)
Theorem X15_impulse_response_contains_peak :
  forall (buffer : list Q) (sampleRate : Q) (config : PartialConfig)
         (e : TransientEvent) (durationSeconds : Q),
    In e (detectTransients buffer sampleRate config) ->
    (windowSize (withDefaults config)
       <= JsQ.floor (JsQ.fmul durationSeconds sampleRate))%Z ->
    let out := extractImpulseResponse buffer e durationSeconds sampleRate in
    (windowSize (withDefaults config) <= Z.of_nat (length out))%Z /\
    exists x, In x out /\ Qabs x == peakAmplitude e /\
              minAmplitude (withDefaults config) <= Qabs x.
Proof.
  intros buffer sampleRate config e d He Hd out.
  set (cfg := withDefaults config) in *.
  destruct (event_facts buffer sampleRate cfg e He)
    as [Hws [H0 [Hin [_ [Hp [Hm _]]]]]].
  destruct (peakAt_facts buffer cfg (sampleIndex e) Hws) as [_ [_ [i [Hi Hex]]]].
  rewrite <- Hp in Hex.
  subst out. unfold extractImpulseResponse.
  set (len := Z.min (JsQ.floor (JsQ.fmul d sampleRate))
                    (Z.of_nat (length buffer) - sampleIndex e)).
  assert (Hlen : (windowSize cfg <= len)%Z) by (subst len; lia).
  destruct (len <=? 0)%Z eqn:C; [apply Z.leb_le in C; lia|].
  assert (Hl : length (firstn (Z.to_nat len)
                              (skipn (Z.to_nat (sampleIndex e)) buffer))
               = Z.to_nat len).
  { rewrite length_firstn, length_skipn. lia. }
  split; [rewrite Hl; lia|].
  exists (get buffer (sampleIndex e + i)). split.
  - replace (get buffer (sampleIndex e + i))
      with (nth (Z.to_nat i)
                (firstn (Z.to_nat len)
                        (skipn (Z.to_nat (sampleIndex e)) buffer)) 0).
    + apply nth_In. rewrite Hl. lia.
    + rewrite firstn_skipn_nth by lia. unfold get. f_equal. lia.
  - split; [exact Hex|]. rewrite Hex. exact Hm.
Qed.

Lemma X15_impulse_response_contains_peak_witness :
  exists e x,
    In e (detectTransients quietThenLoud 44100 shortWindows) /\
    In x (extractImpulseResponse quietThenLoud e 1 44100) /\
    1 # 10 <= Qabs x.
Proof.
  assert (Hin : exists e,
             In e (detectTransients quietThenLoud 44100 shortWindows)).
  { eexists. vm_compute. left. reflexivity. }
  destruct Hin as [e He]. exists e.
  destruct (X15_impulse_response_contains_peak
              quietThenLoud 44100 shortWindows e 1 He)
    as [_ [x [Hx [_ Hm]]]].
  - vm_compute. discriminate.
  - exists x. split; [exact He|]. split; [exact Hx|exact Hm].
Defined.

(** X29: for a positive window size the events are reported in
    increasing order of position, and any two of them are at least
    [Math.floor(minIntervalSeconds * sampleRate)] samples apart, the
    product taken in double precision as the code computes it. *)
Theorem X29_events_spaced_in_samples :
  forall (buffer : list Q) (sampleRate : Q) (config : PartialConfig)
         (i j : nat) (ei ej : TransientEvent),
    (0 < windowSize (withDefaults config))%Z ->
    (i < j)%nat ->
    nth_error (detectTransients buffer sampleRate config) i = Some ei ->
    nth_error (detectTransients buffer sampleRate config) j = Some ej ->
    (sampleIndex ei < sampleIndex ej)%Z /\
    (JsQ.floor (JsQ.fmul (minIntervalSeconds (withDefaults config)) sampleRate)
       <= sampleIndex ej - sampleIndex ei)%Z.
Proof.
  intros buffer sampleRate config i j ei ej Hws Hij Hi Hj.
  unfold detectTransients, detectWith, stateAt in Hi, Hj.
  set (cfg := withDefaults config) in *.
  cbv zeta in Hi, Hj.
  assert (Hn : (avgWindowSize buffer cfg <= numWindows buffer cfg)%Z)
    by (unfold avgWindowSize; lia).
  destruct (upTo_spaced buffer sampleRate cfg (computeEnergies buffer cfg)
              (avgWindowSize buffer cfg) (minIntervalSamples sampleRate cfg)
              (numWindows buffer cfg) Hws Hn) as [Hord _].
  exact (Hord i j ei ej Hij Hi Hj).
Qed.

Lemma X29_events_spaced_in_samples_witness :
  exists e1 e2,
    nth_error (detectTransients twoClaps 22050 quarterSecond) 0 = Some e1 /\
    nth_error (detectTransients twoClaps 22050 quarterSecond) 1 = Some e2 /\
    (5512 <= sampleIndex e2 - sampleIndex e1)%Z.
Proof.
  assert (E : exists e1 e2,
             nth_error (detectTransients twoClaps 22050 quarterSecond) 0 = Some e1 /\
             nth_error (detectTransients twoClaps 22050 quarterSecond) 1 = Some e2).
  { eexists. eexists. split; vm_compute; reflexivity. }
  destruct E as [e1 [e2 [H1 H2]]]. exists e1, e2.
  split; [exact H1|]. split; [exact H2|].
  apply (X29_events_spaced_in_samples
           twoClaps 22050 quarterSecond 0 1 e1 e2);
    [reflexivity | apply le_n | exact H1 | exact H2].
Defined.

End TransientExtra.

(* ------------------------------------------------------------------ *)
(** ** Reverberation time (rt60.ts) *)
(* ------------------------------------------------------------------ *)

Module Rt60Extra.
Import JsR Rt60 JsRFacts Rt60Facts.
Local Open Scope R_scope.

(** The search loop returns the first index at or below [c], and -1
    when there is none. *)
Lemma firstAtMost_spec (c : R) (curve : list num) :
  forall i0 : Z,
    (firstAtMost c curve i0 = (-1)%Z /\
     forall v, In v curve -> num_leb v c = false) \/
    (exists k : nat,
        firstAtMost c curve i0 = (i0 + Z.of_nat k)%Z /\
        (k < length curve)%nat /\
        (exists v, nth_error curve k = Some v /\ num_leb v c = true) /\
        forall j v, (j < k)%nat -> nth_error curve j = Some v ->
                    num_leb v c = false).
Proof.
  induction curve as [|v rest IH]; intros i0.
  - left. split; [reflexivity|intros v []].
  - cbn [firstAtMost]. destruct (num_leb v c) eqn:E.
    + right. exists 0%nat. split; [lia|]. split; [simpl; lia|].
      split; [exists v; split; [reflexivity|exact E]|]. intros j u Hj. lia.
    + destruct (IH (i0 + 1)%Z) as [[H1 H2]|[k [H1 [H2 [H3 H4]]]]].
      * left. split; [exact H1|]. intros u [<-|Hu]; [exact E|apply H2; exact Hu].
      * right. exists (S k). split; [lia|]. split; [simpl; lia|].
        split; [exact H3|]. intros j u Hj Hn. destruct j as [|j].
        -- simpl in Hn. inversion Hn; subst. exact E.
        -- simpl in Hn. apply (H4 j u); [lia|exact Hn].
Qed.

Lemma firstAtMost_range (c : R) (curve : list num) :
  (-1 <= firstAtMost c curve 0 < Z.of_nat (length curve))%Z.
Proof.
  destruct (firstAtMost_spec c curve 0) as [[H _]|[k [H [Hk _]]]]; lia.
Qed.

Lemma firstAtMost_none (c : R) (curve : list num) :
  (forall v, In v curve -> num_leb v c = false) ->
  firstAtMost c curve 0 = (-1)%Z.
Proof.
  intros Hn.
  destruct (firstAtMost_spec c curve 0) as [[H _]|[k [_ [_ [[v [Hv Hc]] _]]]]];
    [exact H|].
  apply nth_error_In in Hv. rewrite (Hn v Hv) in Hc. discriminate.
Qed.

Lemma num_leb_false_weaken v c d :
  c <= d -> num_leb v d = false -> num_leb v c = false.
Proof.
  intros Hcd Hd. destruct (num_leb v c) eqn:E; [|reflexivity].
  rewrite (num_leb_weaken v c d Hcd E) in Hd. discriminate.
Qed.

(** X16: for a positive sample rate [estimateRT60] is never negative
    and never exceeds six times the duration of the curve; it is 0 when
    the curve never falls to -10 dB. *)
Theorem X16_estimateRT60_bounds :
  forall (decayCurve : list num) (sampleRate : R),
    0 < sampleRate ->
    0 <= estimateRT60 decayCurve sampleRate
      <= 6 * (INR (length decayCurve) / sampleRate) /\
    ((forall v, In v decayCurve -> num_leb v (-10) = false) ->
     estimateRT60 decayCurve sampleRate = 0).
Proof.
  intros curve sr Hsr.
  pose proof (firstAtMost_range (-5) curve) as H5.
  pose proof (firstAtMost_range (-25) curve) as H25.
  pose proof (firstAtMost_range (-10) curve) as H10.
  assert (Hlen : 0 <= INR (length curve) / sr).
  { apply Rmult_le_pos; [apply pos_INR|]. left. apply Rinv_0_lt_compat. exact Hsr. }
  assert (Hz : forall t : Z, (0 <= t < Z.of_nat (length curve))%Z ->
                             0 <= IZR t / sr <= INR (length curve) / sr).
  { intros t Ht. rewrite INR_IZR_INZ.
    assert (0 <= IZR t <= IZR (Z.of_nat (length curve)))
      by (split; apply IZR_le; lia).
    assert (0 < / sr) by (apply Rinv_0_lt_compat; exact Hsr).
    unfold Rdiv. split; nra. }
  split.
  - unfold estimateRT60.
    destruct ((firstAtMost (-5) curve 0 <? 0)%Z
              || (firstAtMost (-25) curve 0 <? 0)%Z
              || (firstAtMost (-25) curve 0 <=? firstAtMost (-5) curve 0)%Z)
      eqn:C.
    + destruct (firstAtMost (-10) curve 0 <=? 0)%Z eqn:D; [lra|].
      apply Z.leb_gt in D.
      destruct (Hz (firstAtMost (-10) curve 0)) as [G1 G2]; [lia|]. lra.
    + rewrite !orb_false_iff in C. destruct C as [[C1 C2] C3].
      apply Z.ltb_ge in C1, C2. apply Z.leb_gt in C3.
      destruct (Hz (firstAtMost (-25) curve 0 - firstAtMost (-5) curve 0)%Z)
        as [G1 G2]; [lia|]. lra.
  - intros Hn. unfold estimateRT60.
    rewrite (firstAtMost_none (-25) curve)
      by (intros v Hv; apply (num_leb_false_weaken v (-25) (-10));
          [lra|apply Hn; exact Hv]).
    rewrite (firstAtMost_none (-10) curve Hn).
    rewrite orb_true_r. reflexivity.
Qed.

Lemma X16_estimateRT60_bounds_witness :
  0 <= estimateRT60 [Num 0; Num (-30)] 44100 <= 6 * (INR 2 / 44100).
Proof.
  apply (X16_estimateRT60_bounds [Num 0; Num (-30)] 44100). lra.
Defined.

Lemma squares_of_abs (impulseResponse other : list R) :
  map Rabs impulseResponse = map Rabs other ->
  map (fun x => x * x) impulseResponse = map (fun x => x * x) other.
Proof.
  revert other. induction impulseResponse as [|x rest IH];
    intros [|y other] H; try discriminate; [reflexivity|].
  cbn [map] in *. inversion H as [[Hxy Hrest]].
  f_equal; [|apply IH; exact Hrest].
  change (x * x) with (Rsqr x). change (y * y) with (Rsqr y).
  rewrite (Rsqr_abs x), (Rsqr_abs y), Hxy. reflexivity.
Qed.

(** X17: the decay curve, the RT60 estimate and the quality rating
    depend only on the absolute values of the samples: two impulse
    responses that differ in the signs of their samples (a recording
    with inverted polarity, for one) give the same results. *)
Theorem X17_rt60_ignores_polarity :
  forall (impulseResponse other : list R) (sampleRate : R),
    map Rabs impulseResponse = map Rabs other ->
    schroederIntegration impulseResponse = schroederIntegration other /\
    computeRT60 impulseResponse sampleRate = computeRT60 other sampleRate /\
    analyseRT60 impulseResponse sampleRate = analyseRT60 other sampleRate.
Proof.
  intros ir other sr H.
  assert (E : schroederIntegration ir = schroederIntegration other).
  { unfold schroederIntegration, energyCurve.
    rewrite (squares_of_abs ir other H). reflexivity. }
  split; [exact E|]. split.
  - unfold computeRT60. rewrite E. reflexivity.
  - unfold analyseRT60. rewrite E. reflexivity.
Qed.

Lemma X17_rt60_ignores_polarity_witness :
  computeRT60 [1; / 2; 0] 44100 = computeRT60 [1; - / 2; 0] 44100.
Proof.
  apply (X17_rt60_ignores_polarity [1; / 2; 0] [1; - / 2; 0] 44100).
  cbn [map]. rewrite Rabs_Ropp. reflexivity.
Defined.

(** The running minimum is at or below [c] exactly when its start value
    or one of the values is. *)
Lemma minDB_fold (c : R) (curve : list num) :
  forall m0 : num,
    num_leb (fold_left (fun minDB v => if num_lt v minDB then v else minDB)
                       curve m0) c = true <->
    num_leb m0 c = true \/ exists v, In v curve /\ num_leb v c = true.
Proof.
  induction curve as [|v rest IH]; intros m0.
  - cbn [fold_left]. split; [intros H; left; exact H|].
    intros [H|[v [[] _]]]. exact H.
  - cbn [fold_left]. rewrite IH.
    assert (Hstep : num_leb (if num_lt v m0 then v else m0) c = true <->
                    num_leb m0 c = true \/ num_leb v c = true).
    { destruct v as [|a], m0 as [|b]; cbn [num_lt num_leb].
      - tauto.
      - tauto.
      - tauto.
      - destruct (ltb a b) eqn:L.
        + apply Rltb_lt in L. cbn [num_leb]. rewrite !Rleb_le. split; [tauto|].
          intros [H|H]; lra.
        + apply Rltb_ge in L. cbn [num_leb]. rewrite !Rleb_le. split; [tauto|].
          intros [H|H]; lra. }
    rewrite Hstep. split.
    + intros [[H|H]|[u [Hu Hc]]].
      * left; exact H.
      * right. exists v. split; [left; reflexivity|exact H].
      * right. exists u. split; [right; exact Hu|exact Hc].
    + intros [H|[u [[<-|Hu] Hc]]].
      * left; left; exact H.
      * left; right; exact Hc.
      * right. exists u. split; assumption.
Qed.

Lemma zeros_energy (impulseResponse : list R) :
  (forall x, In x impulseResponse -> x = 0) ->
  forall v, In v (schroederIntegration impulseResponse) -> v = Num 0.
Proof.
  intros Hz v Hv.
  assert (E : impulseResponse = repeat 0 (length impulseResponse)).
  { clear Hv. induction impulseResponse as [|x rest IH]; [reflexivity|].
    cbn [length repeat]. rewrite (Hz x (or_introl eq_refl)). f_equal.
    apply IH. intros y Hy. apply Hz. right. exact Hy. }
  rewrite E in Hv. unfold schroederIntegration, energyCurve in Hv.
  rewrite map_repeat in Hv. replace (0 * 0) with 0 in Hv by ring.
  rewrite backwardIntegration_zeros in Hv.
  destruct (length impulseResponse) as [|k]; [destruct Hv|].
  cbn [repeat] in Hv. destruct (Rle_dec 0 0) as [_|Hn]; [|lra].
  apply in_map_iff in Hv. destruct Hv as [e [Ev He]].
  change (0 :: repeat 0 k) with (repeat 0 (S k)) in He.
  apply repeat_spec in He. subst. reflexivity.
Qed.

(** X18: [analyseRT60] returns the Schroeder curve and the estimate of
    [computeRT60]; the quality is "good" exactly when the curve falls to
    -35 dB somewhere, "poor" exactly when it never falls to -20 dB, and
    "fair" in between; a silent or empty impulse response gives RT60 0
    and quality "poor". *)
Theorem X18_quality_from_dynamic_range :
  forall (impulseResponse : list R) (sampleRate : R),
    let r := analyseRT60 impulseResponse sampleRate in
    decayCurve r = schroederIntegration impulseResponse /\
    rt60 r = computeRT60 impulseResponse sampleRate /\
    (quality r = good <->
     exists v, In v (decayCurve r) /\ num_leb v (-35) = true) /\
    (quality r = poor <->
     forall v, In v (decayCurve r) -> num_leb v (-20) = false) /\
    ((forall x, In x impulseResponse -> x = 0) ->
     rt60 r = 0 /\ quality r = poor).
Proof.
  intros ir sr r. subst r. unfold analyseRT60.
  set (curve := schroederIntegration ir).
  set (minDB := fold_left (fun minDB v => if num_lt v minDB then v else minDB)
                          curve (Num 0)).
  cbn [decayCurve rt60 quality].
  assert (H0 : forall c, c < 0 -> num_leb (Num 0) c = true -> False).
  { intros c Hc H. cbn [num_leb] in H. apply Rleb_le in H. lra. }
  assert (H35 : num_leb minDB (-35) = true <->
                exists v, In v curve /\ num_leb v (-35) = true).
  { subst minDB. rewrite minDB_fold. split; [|intros H; right; exact H].
    intros [H|H]; [exfalso; apply (H0 (-35)); [lra|exact H]|exact H]. }
  assert (H20 : num_leb minDB (-20) = true <->
                exists v, In v curve /\ num_leb v (-20) = true).
  { subst minDB. rewrite minDB_fold. split; [|intros H; right; exact H].
    intros [H|H]; [exfalso; apply (H0 (-20)); [lra|exact H]|exact H]. }
  assert (Hpoor : (if num_leb minDB (-35) then good
                   else if num_leb minDB (-20) then fair else poor) = poor <->
                  forall v, In v curve -> num_leb v (-20) = false).
  { split.
    - intros Hq v Hv. destruct (num_leb v (-20)) eqn:E; [|reflexivity].
      assert (G : num_leb minDB (-20) = true)
        by (apply H20; exists v; split; assumption).
      destruct (num_leb minDB (-35)); [discriminate|].
      rewrite G in Hq. discriminate.
    - intros Hn.
      destruct (num_leb minDB (-35)) eqn:E35.
      + destruct (proj1 H35 eq_refl) as [v [Hv Hc]].
        rewrite (num_leb_false_weaken v (-35) (-20)) in Hc;
          [discriminate|lra|apply Hn; exact Hv].
      + destruct (num_leb minDB (-20)) eqn:E20; [|reflexivity].
        destruct (proj1 H20 eq_refl) as [v [Hv Hc]].
        rewrite (Hn v Hv) in Hc. discriminate. }
  split; [reflexivity|]. split; [reflexivity|]. split; [|split].
  - rewrite <- H35. destruct (num_leb minDB (-35)).
    + split; reflexivity.
    + split; [|discriminate]. destruct (num_leb minDB (-20)); discriminate.
  - exact Hpoor.
  - intros Hz.
    assert (Hall : forall v, In v curve -> v = Num 0)
      by (apply zeros_energy; exact Hz).
    assert (Hnone : forall c, c < 0 ->
                    forall v, In v curve -> num_leb v c = false).
    { intros c Hc v Hv. rewrite (Hall v Hv). cbn [num_leb].
      destruct (leb 0 c) eqn:E; [|reflexivity]. apply Rleb_le in E. lra. }
    split.
    + unfold estimateRT60.
      rewrite (firstAtMost_none (-25) curve) by (apply Hnone; lra).
      rewrite (firstAtMost_none (-10) curve) by (apply Hnone; lra).
      rewrite orb_true_r. reflexivity.
    + apply Hpoor. apply Hnone. lra.
Qed.

End Rt60Extra.

(* ------------------------------------------------------------------ *)
(** ** Noise floor (noiseFloor.ts) *)
(* ------------------------------------------------------------------ *)

Module NoiseFloorExtra.
Import JsR JsRFacts NoiseFloor.
Local Open Scope R_scope.

Lemma floor_level_pos : 0 < / 10 ^ 10.
Proof. apply Rinv_0_lt_compat. apply pow_lt. lra. Qed.

Lemma ln_mono (x y : R) : 0 < x -> x <= y -> ln x <= ln y.
Proof.
  intros Hx Hxy. destruct Hxy as [Hlt|E].
  - left. apply ln_increasing; assumption.
  - rewrite E. lra.
Qed.

Lemma dB_of_floor : 20 * (ln (/ 10 ^ 10) / ln 10) = -200.
Proof.
  rewrite ln_Rinv by (apply pow_lt; lra). rewrite ln_pow by lra.
  pose proof ln_10_pos. simpl INR. field. lra.
Qed.

Lemma dB_mono (a b : R) :
  0 < a -> a <= b -> 20 * (ln a / ln 10) <= 20 * (ln b / ln 10).
Proof.
  intros Ha Hab. pose proof ln_10_pos as H10.
  pose proof (ln_mono a b Ha Hab) as Hl.
  assert (ln a / ln 10 <= ln b / ln 10).
  { unfold Rdiv. apply Rmult_le_compat_r; [|exact Hl].
    left. apply Rinv_0_lt_compat. exact H10. }
  lra.
Qed.

Lemma num_max_floor (v : num) : / 10 ^ 10 <= num_max v (/ 10 ^ 10).
Proof. destruct v as [|a]; simpl; [lra|apply Rmax_r]. Qed.

Lemma linearToDB_low (v : num) : -200 <= linearToDB v.
Proof.
  unfold linearToDB. rewrite <- dB_of_floor.
  apply dB_mono; [exact floor_level_pos|apply num_max_floor].
Qed.

Lemma linearToDB_mono (x y : R) :
  x <= y -> linearToDB (Num x) <= linearToDB (Num y).
Proof.
  intros Hxy. unfold linearToDB. cbn [num_max]. apply dB_mono.
  - eapply Rlt_le_trans; [exact floor_level_pos|apply Rmax_r].
  - apply Rle_max_compat_r. exact Hxy.
Qed.

(** X19: [linearToDB] never returns less than -200 dB, the level of the
    floor [1e-10], and returns exactly that for every value at or below
    the floor ([-Infinity] included); it is 0 at full scale, and it is
    monotone. *)
Theorem X19_linearToDB_floor_and_monotone :
  (forall v : num, -200 <= linearToDB v) /\
  (forall x : R, x <= / 10 ^ 10 -> linearToDB (Num x) = -200) /\
  linearToDB NegInfinity = -200 /\
  linearToDB (Num 1) = 0 /\
  (forall x y : R, x <= y -> linearToDB (Num x) <= linearToDB (Num y)).
Proof.
  pose proof floor_level_pos as Hf.
  split; [|split; [|split; [|split]]].
  - exact linearToDB_low.
  - intros x Hx. unfold linearToDB. cbn [num_max].
    rewrite Rmax_right by exact Hx. apply dB_of_floor.
  - unfold linearToDB. cbn [num_max]. apply dB_of_floor.
  - unfold linearToDB. cbn [num_max].
    rewrite Rmax_left.
    + rewrite ln_1. unfold Rdiv. ring.
    + assert (1 <= 10 ^ 10) by (apply pow_R1_Rle; lra).
      rewrite <- Rinv_1. apply Rinv_le_contravar; lra.
  - exact linearToDB_mono.
Qed.

Lemma sum_from (l : list R) (a : R) : fold_left Rplus l a = a + sum l.
Proof.
  unfold sum. revert a. induction l as [|x l IH]; intros a.
  - simpl. ring.
  - cbn [fold_left]. rewrite (IH (a + x)), (IH (0 + x)). ring.
Qed.

Lemma sum_cons (x : R) (l : list R) : sum (x :: l) = x + sum l.
Proof. unfold sum. cbn [fold_left]. rewrite sum_from. unfold sum. ring. Qed.

Lemma sum_upper (l : list R) (hi : R) :
  (forall x, In x l -> x <= hi) -> sum l <= INR (length l) * hi.
Proof.
  induction l as [|x l IH]; intros H.
  - unfold sum. simpl. lra.
  - rewrite sum_cons. change (length (x :: l)) with (S (length l)).
    rewrite S_INR.
    assert (H2 : sum l <= INR (length l) * hi)
      by (apply IH; intros y Hy; apply H; right; exact Hy).
    pose proof (H x (or_introl eq_refl)). lra.
Qed.

Lemma sum_lower (l : list R) (lo : R) :
  (forall x, In x l -> lo <= x) -> INR (length l) * lo <= sum l.
Proof.
  induction l as [|x l IH]; intros H.
  - unfold sum. simpl. lra.
  - rewrite sum_cons. change (length (x :: l)) with (S (length l)).
    rewrite S_INR.
    assert (H2 : INR (length l) * lo <= sum l)
      by (apply IH; intros y Hy; apply H; right; exact Hy).
    pose proof (H x (or_introl eq_refl)). lra.
Qed.

Lemma maxOf_fold (l : list R) :
  forall a : R,
    exists m,
      fold_left (fun m x => match m with
                            | NegInfinity => Num x
                            | Num a => Num (Rmax a x)
                            end) l (Num a) = Num m /\
      a <= m /\ (forall x, In x l -> x <= m) /\ (m = a \/ In m l).
Proof.
  induction l as [|x l IH]; intros a.
  - exists a. split; [reflexivity|]. split; [lra|].
    split; [intros x []|left; reflexivity].
  - cbn [fold_left]. destruct (IH (Rmax a x)) as [m [E [H1 [H2 H3]]]].
    exists m. split; [exact E|].
    pose proof (Rmax_l a x). pose proof (Rmax_r a x).
    split; [lra|]. split.
    + intros y [<-|Hy]; [lra|apply H2; exact Hy].
    + destruct H3 as [->|Hm]; [|right; right; exact Hm].
      unfold Rmax. destruct (Rle_dec a x); [right; left; reflexivity|left; reflexivity].
Qed.

Lemma maxOf_spec (samples : list R) :
  samples <> [] ->
  exists m, maxOf samples = Num m /\ In m samples /\
            forall x, In x samples -> x <= m.
Proof.
  destruct samples as [|x l]; [congruence|]. intros _.
  unfold maxOf. cbn [fold_left].
  destruct (maxOf_fold l x) as [m [E [H1 [H2 H3]]]].
  exists m. split; [exact E|]. split.
  - destruct H3 as [->|Hm]; [left; reflexivity|right; exact Hm].
  - intros y [<-|Hy]; [exact H1|apply H2; exact Hy].
Qed.

(** X20: for a non-empty list of RMS samples between 0 and 1 the peak
    level is the level of the largest sample and is at most 0 dB; the
    average level is at least -200 dB and does not exceed the peak
    level by more than rounding (0.001 dB leaves room for the rounding
    of the code's sum and quotient, which the exact mean of this model
    does not have). *)
Theorem X20_noise_levels_ordered :
  forall (samples : list R) (frequencySnapshots : list (list num))
         (sampleRate fftSize : R),
    samples <> [] ->
    (forall x, In x samples -> 0 <= x <= 1) ->
    let r := analyseNoiseFloor samples frequencySnapshots sampleRate fftSize in
    (exists m, In m samples /\ (forall x, In x samples -> x <= m) /\
               peakDB r = linearToDB (Num m)) /\
    -200 <= peakDB r <= 0 /\
    -200 <= averageDB r <= peakDB r + 1 / 1000.
Proof.
  intros samples snaps sr fft Hne Hrange r. subst r. unfold analyseNoiseFloor.
  cbv zeta. cbn [averageDB peakDB estimatedDBA].
  destruct (maxOf_spec samples Hne) as [m [E [Hin Hmax]]]. rewrite E.
  split; [exists m; split; [exact Hin|split; [exact Hmax|reflexivity]]|].
  assert (Hle : linearToDB (Num (sum samples / INR (length samples)))
                <= linearToDB (Num m)).
  { apply linearToDB_mono.
    assert (Hn : 0 < INR (length samples)).
    { apply lt_0_INR. destruct samples; [congruence|simpl; lia]. }
    pose proof (sum_upper samples m Hmax) as Hs.
    apply Rmult_le_reg_r with (INR (length samples)); [exact Hn|].
    unfold Rdiv. rewrite Rmult_assoc, Rinv_l by lra. lra. }
  assert (Hone : linearToDB (Num 1) = 0).
  { unfold linearToDB. cbn [num_max]. rewrite Rmax_left.
    - rewrite ln_1. unfold Rdiv. ring.
    - assert (1 <= 10 ^ 10) by (apply pow_R1_Rle; lra).
      rewrite <- Rinv_1. apply Rinv_le_contravar; lra. }
  assert (Hm1 : linearToDB (Num m) <= 0).
  { rewrite <- Hone. apply linearToDB_mono. apply (Hrange m Hin). }
  pose proof (linearToDB_low (Num m)).
  pose proof (linearToDB_low (Num (sum samples / INR (length samples)))).
  split; lra.
Qed.

Lemma X20_noise_levels_ordered_witness :
  -200 <= peakDB (analyseNoiseFloor [/ 2; 1] [] 44100 8192) <= 0.
Proof.
  apply (X20_noise_levels_ordered [/ 2; 1] [] 44100 8192); [discriminate|].
  intros x [<-|[<-|[]]]; lra.
Defined.

Lemma squares_sum_bounds (buffer : list R) (lo hi : R) :
  0 <= lo ->
  (forall x, In x buffer -> lo <= Rabs x <= hi) ->
  INR (length buffer) * (lo * lo)
    <= sum (map (fun x => x * x) buffer)
    <= INR (length buffer) * (hi * hi).
Proof.
  intros Hlo H.
  assert (Hsq : forall y, In y (map (fun x => x * x) buffer) ->
                          lo * lo <= y <= hi * hi).
  { intros y Hy. apply in_map_iff in Hy. destruct Hy as [x [<- Hx]].
    specialize (H x Hx). unfold Rabs in H.
    destruct (Rcase_abs x); nra. }
  rewrite <- (length_map (fun x => x * x) buffer). split.
  - apply sum_lower. intros y Hy. apply Hsq. exact Hy.
  - apply sum_upper. intros y Hy. apply Hsq. exact Hy.
Qed.

(** X21: the RMS of a non-empty buffer lies between the smallest and
    the largest absolute sample value, up to rounding: one part in a
    million leaves room for the rounding of the code's sum of squares,
    quotient and square root, which the exact arithmetic of this model
    does not have.  So the RMS of a silent buffer is 0, and that of
    samples in [-1, 1] is at most 1.000001. *)
Theorem X21_rms_within_sample_range :
  forall (buffer : list R) (lo hi : R),
    buffer <> [] ->
    0 <= lo ->
    (forall x, In x buffer -> lo <= Rabs x <= hi) ->
    lo * (1 - 1 / 10 ^ 6) <= computeRMS buffer <= hi * (1 + 1 / 10 ^ 6).
Proof.
  intros buffer lo hi Hne Hlo H.
  assert (Hn : 0 < INR (length buffer)).
  { apply lt_0_INR. destruct buffer; [congruence|simpl; lia]. }
  unfold computeRMS.
  destruct (squares_sum_bounds buffer lo hi Hlo H) as [H1 H2].
  set (s := sum (map (fun x => x * x) buffer)) in *.
  assert (Hhi : 0 <= hi).
  { destruct buffer as [|x rest]; [congruence|].
    destruct (H x (or_introl eq_refl)). lra. }
  assert (Hq : lo * lo <= s / INR (length buffer) <= hi * hi).
  { assert (Hi : 0 < / INR (length buffer))
      by (apply Rinv_0_lt_compat; exact Hn).
    assert (E1 : lo * lo = (INR (length buffer) * (lo * lo)) / INR (length buffer))
      by (field; lra).
    assert (E2 : hi * hi = (INR (length buffer) * (hi * hi)) / INR (length buffer))
      by (field; lra).
    rewrite E1, E2. unfold Rdiv.
    split; apply Rmult_le_compat_r; lra. }
  assert (Hexact : lo <= sqrt (s / INR (length buffer)) <= hi).
  { split.
    - rewrite <- (sqrt_square lo Hlo) at 1. apply sqrt_le_1_alt. lra.
    - rewrite <- (sqrt_square hi Hhi) at 1. apply sqrt_le_1_alt. lra. }
  assert (Hs : 0 < 1 / 10 ^ 6).
  { apply Rdiv_lt_0_compat; [lra|]. apply pow_lt. lra. }
  split; nra.
Qed.

Lemma X21_rms_within_sample_range_witness :
  computeRMS [/ 2; -1] <= 1 * (1 + 1 / 10 ^ 6).
Proof.
  apply (X21_rms_within_sample_range [/ 2; -1] (/ 2) 1); [discriminate|lra|].
  intros x [<-|[<-|[]]]; unfold Rabs;
    match goal with |- context [Rcase_abs ?a] => destruct (Rcase_abs a) end;
    lra.
Defined.

Lemma In_noise_loopBins (lowBin highBin len bin : Z) :
  In bin (loopBins lowBin highBin len) ->
  (lowBin <= bin <= highBin)%Z /\ (bin < len)%Z.
Proof.
  unfold loopBins. intros H. apply in_map_iff in H.
  destruct H as [k [<- Hk]]. apply in_seq in Hk. lia.
Qed.

Lemma round_nonneg (x : R) : 0 <= x -> (0 <= round x)%Z.
Proof.
  intros Hx. destruct (round_near x) as [H1 _].
  assert (H : -1 < IZR (round x)) by lra.
  apply lt_IZR in H. lia.
Qed.

Section BandLevel.
Variable lo hi : R.

Let within (st : num * Z) : Prop :=
  exists s, fst st = Num s /\ (0 <= snd st)%Z /\
            IZR (snd st) * lo <= s <= IZR (snd st) * hi.

Let bounded (snapshot : list num) : Prop :=
  forall v, In v snapshot -> exists a, v = Num a /\ lo <= a <= hi.

Lemma bins_fold (snapshot : list num) (bins : list Z) :
  bounded snapshot ->
  (forall bin, In bin bins -> (0 <= bin < Z.of_nat (length snapshot))%Z) ->
  forall st,
    within st ->
    let st' := fold_left
                 (fun (st : num * Z) bin =>
                    let (bandSum, count) := st in
                    (num_add bandSum (nth (Z.to_nat bin) snapshot (Num 0)),
                     (count + 1)%Z)) bins st in
    within st' /\ snd st' = (snd st + Z.of_nat (length bins))%Z.
Proof.
  intros Hb. induction bins as [|bin bins IH]; intros Hin st Hst st'; subst st'.
  - cbn [fold_left length]. split; [exact Hst|lia].
  - cbn [fold_left]. destruct st as [bandSum count].
    destruct Hst as [s [Es [Hc Hs]]]. cbn [fst snd] in Es, Hc, Hs. subst bandSum.
    destruct (Hb (nth (Z.to_nat bin) snapshot (Num 0))) as [a [Ea Ha]].
    { apply nth_In. specialize (Hin bin (or_introl eq_refl)). lia. }
    rewrite Ea. cbn [num_add].
    destruct (IH (fun b Hb' => Hin b (or_intror Hb')) (Num (s + a), (count + 1)%Z))
      as [H1 H2].
    + exists (s + a). cbn [fst snd]. split; [reflexivity|]. split; [lia|].
      rewrite plus_IZR. lra.
    + split; [exact H1|]. rewrite H2. cbn [snd length]. lia.
Qed.

Lemma snapshots_fold (lowBin highBin : Z) (snapshots : list (list num)) :
  (0 <= lowBin)%Z ->
  (forall snapshot, In snapshot snapshots -> bounded snapshot) ->
  forall st,
    within st ->
    let st' :=
      fold_left
        (fun (st : num * Z) snapshot =>
           fold_left
             (fun (st : num * Z) bin =>
                let (bandSum, count) := st in
                (num_add bandSum (nth (Z.to_nat bin) snapshot (Num 0)),
                 (count + 1)%Z))
             (loopBins lowBin highBin (Z.of_nat (length snapshot))) st)
        snapshots st in
    within st' /\
    snd st'
    = (snd st
       + Z.of_nat (length (flat_map
                             (fun snapshot =>
                                loopBins lowBin highBin
                                         (Z.of_nat (length snapshot)))
                             snapshots)))%Z.
Proof.
  intros Hlow. induction snapshots as [|snapshot rest IH];
    intros Hb st Hst st'; subst st'.
  - cbn [fold_left flat_map length]. split; [exact Hst|lia].
  - cbn [fold_left flat_map].
    destruct (bins_fold snapshot
                (loopBins lowBin highBin (Z.of_nat (length snapshot))))
      with (st := st) as [H1 H2].
    + apply Hb. left. reflexivity.
    + intros bin Hbin. apply In_noise_loopBins in Hbin. lia.
    + exact Hst.
    + cbv zeta in H1, H2.
      destruct (IH (fun s Hs => Hb s (or_intror Hs)) _ H1) as [G1 G2].
      cbv zeta in G1, G2. split; [exact G1|].
      rewrite G2, H2, length_app. lia.
Qed.

Lemma flat_map_nil {A B} (f : A -> list B) (l : list A) :
  flat_map f l = [] <-> forall x, In x l -> f x = [].
Proof.
  induction l as [|x l IH]; cbn [flat_map].
  - split; [intros _ x []|reflexivity].
  - split.
    + intros E. apply app_eq_nil in E. destruct E as [E1 E2].
      intros y [<-|Hy]; [exact E1|]. apply IH; assumption.
    + intros H. rewrite (H x (or_introl eq_refl)). cbn [app].
      apply IH. intros y Hy. apply H. right. exact Hy.
Qed.

Lemma bandLevel_bounds (snapshots : list (list num))
      (lowFreq highFreq sampleRate fftSize : R) :
  0 <= (lowFreq * fftSize) / sampleRate ->
  (forall snapshot, In snapshot snapshots -> bounded snapshot) ->
  let level := bandLevel snapshots lowFreq highFreq sampleRate fftSize in
  let lowBin := round ((lowFreq * fftSize) / sampleRate) in
  let highBin := round ((highFreq * fftSize) / sampleRate) in
  (level = NegInfinity <->
   forall snapshot, In snapshot snapshots ->
     loopBins lowBin highBin (Z.of_nat (length snapshot)) = []) /\
  (level = NegInfinity \/ exists a, level = Num a /\ lo <= a <= hi).
Proof.
  intros Hlow Hb level lowBin highBin. subst level. unfold bandLevel.
  fold lowBin. fold highBin.
  destruct (snapshots_fold lowBin highBin snapshots
              (round_nonneg _ Hlow) Hb (Num 0, 0%Z)) as [H1 H2].
  { exists 0. cbn [fst snd]. split; [reflexivity|]. split; [lia|]. lra. }
  cbv zeta in H1, H2.
  destruct (fold_left _ snapshots (Num 0, 0%Z)) as [bandSum count].
  destruct H1 as [s [Es [Hc Hs]]]. cbn [fst snd] in *. subst bandSum.
  destruct (0 <? count)%Z eqn:C.
  - apply Z.ltb_lt in C. cbn [num_div]. split.
    + split; [discriminate|]. intros Hall. apply flat_map_nil in Hall.
      rewrite Hall in H2. cbn [length] in H2. lia.
    + right. exists (s / IZR count). split; [reflexivity|].
      assert (Hp : 0 < IZR count) by (apply IZR_lt; exact C).
      split.
      * apply Rmult_le_reg_r with (IZR count); [exact Hp|].
        unfold Rdiv. rewrite Rmult_assoc, Rinv_l by lra. lra.
      * apply Rmult_le_reg_r with (IZR count); [exact Hp|].
        unfold Rdiv. rewrite Rmult_assoc, Rinv_l by lra. lra.
  - apply Z.ltb_ge in C. split; [|left; reflexivity].
    split; [|reflexivity]. intros _. apply flat_map_nil.
    destruct (flat_map _ snapshots); [reflexivity|]. cbn [length] in H2. lia.
Qed.

End BandLevel.

(** X22: without frequency snapshots [bandLevels] is empty; with at
    least one it has one entry per energy centre, in the order of the
    band table.  For a positive sample rate and FFT size, and snapshots
    whose values all lie between [lo] and [hi] dB, each level lies
    between [lo] and [hi] too, unless it is [-Infinity] (no bin of the
    band was read). *)
Theorem X22_band_levels_within_snapshot_range :
  forall (samples : list R) (frequencySnapshots : list (list num))
         (sampleRate fftSize lo hi : R),
    0 < sampleRate -> 0 < fftSize ->
    (forall snapshot v, In snapshot frequencySnapshots -> In v snapshot ->
                        exists a, v = Num a /\ lo <= a <= hi) ->
    let r := analyseNoiseFloor samples frequencySnapshots sampleRate fftSize in
    map fst (bandLevels r)
    = match frequencySnapshots with
      | [] => []
      | _ :: _ => Centres.CENTRE_ORDER
      end /\
    forall name level, In (name, level) (bandLevels r) ->
      level = NegInfinity \/ exists a, level = Num a /\ lo <= a <= hi.
Proof.
  intros samples snaps sr fft lo hi Hsr Hfft Hb r. subst r.
  unfold analyseNoiseFloor. cbv zeta. cbn [bandLevels].
  destruct snaps as [|s0 rest]; [split; [reflexivity|intros ? ? []]|].
  split; [reflexivity|].
  intros name level Hin. apply in_map_iff in Hin.
  destruct Hin as [[key [lowFreq highFreq]] [E Hband]].
  inversion E; subst name level. clear E.
  apply (bandLevel_bounds lo hi).
  - assert (Hl : 0 <= lowFreq).
    { unfold ENERGY_BANDS in Hband. cbn [In] in Hband.
      repeat (destruct Hband as [Hband|Hband];
              [inversion Hband; subst; lra|]).
      destruct Hband. }
    apply Rmult_le_pos; [apply Rmult_le_pos; lra|].
    left. apply Rinv_0_lt_compat. exact Hsr.
  - intros snapshot Hs v Hv. apply (Hb snapshot v Hs Hv).
Qed.

Lemma X22_band_levels_within_snapshot_range_witness :
  map fst (bandLevels (analyseNoiseFloor [1] [[Num (-60); Num (-50)]] 44100 8192))
  = Centres.CENTRE_ORDER.
Proof.
  apply (X22_band_levels_within_snapshot_range
           [1] [[Num (-60); Num (-50)]] 44100 8192 (-60) (-50)); try lra.
  intros snapshot v [<-|[]] [<-|[<-|[]]]; eexists; (split; [reflexivity|lra]).
Defined.

End NoiseFloorExtra.

(* ------------------------------------------------------------------ *)
(** ** Notes (noteMapper.ts) *)
(* ------------------------------------------------------------------ *)

Module NoteMapperExtra.
Import JsR JsRFacts NoteMapper NoteMapperFacts.
Import String.
Local Open Scope R_scope.

Lemma In_NOTE_NAMES (noteName : String.string) :
  In noteName NOTE_NAMES ->
  exists i, (0 <= i < 12)%Z /\
            noteName = nth (Z.to_nat i) NOTE_NAMES String.EmptyString /\
            indexOf NOTE_NAMES noteName 0 = i.
Proof.
  intros H. unfold NOTE_NAMES in H. cbn [In] in H.
  repeat (destruct H as [H|H];
          [subst noteName;
           match goal with
           | |- exists i, _ /\ ?n = _ /\ _ => exists (indexOf NOTE_NAMES n 0)
           end;
           split; [vm_compute; split; [discriminate|reflexivity]
                  |split; reflexivity]|]).
  destruct H.
Qed.

Lemma indexOf_range (names : list String.string) (noteName : String.string) :
  forall i0 : Z,
    (indexOf names noteName i0 = (-1)%Z /\ ~ In noteName names) \/
    ((i0 <= indexOf names noteName i0)%Z /\ In noteName names).
Proof.
  induction names as [|n rest IH]; intros i0.
  - left. split; [reflexivity|intros []].
  - cbn [indexOf]. destruct (String.eqb_spec n noteName) as [E|Ne].
    + right. split; [lia|left; exact E].
    + destruct (IH (i0 + 1)%Z) as [[H1 H2]|[H1 H2]].
      * left. split; [exact H1|]. intros [E|Hin]; [congruence|tauto].
      * right. split; [lia|right; exact H2].
Qed.

Lemma pow2_pos (x : R) : 0 < pow2 x.
Proof. unfold pow2, Rpower. apply exp_pos. Qed.

Lemma log2_pow2 (x : R) : log2 (pow2 x) = x.
Proof.
  unfold log2, pow2. rewrite ln_Rpower. pose proof ln_2_pos. field. lra.
Qed.

Lemma pow2_succ (x : R) : pow2 (x + 1) = 2 * pow2 x.
Proof.
  unfold pow2. rewrite Rpower_plus, Rpower_1 by lra. ring.
Qed.

Lemma round_IZR (n : Z) : round (IZR n) = n.
Proof. apply round_eq. lra. Qed.


(** X23: [noteToFrequency] is 0 for a name that is not one of the
    twelve note names; for a note name it is the positive
    equal-temperament frequency of MIDI note [12 (octave + 1) + index];
    raising the octave by one raises the frequency and doubles it up to
    rounding (one part in 10^9 leaves room for the rounding of the
    code's [Math.pow], which the exact power of this model does not
    have); and A4 is exactly 440 Hz. *)
Theorem X23_noteToFrequency_octaves :
  (forall noteName octave,
      ~ In noteName NOTE_NAMES -> noteToFrequency noteName octave = 0) /\
  (forall noteName octave,
      In noteName NOTE_NAMES ->
      noteToFrequency noteName octave
      = 440 * pow2 (IZR ((octave + 1) * 12
                         + indexOf NOTE_NAMES noteName 0 - 69) / 12) /\
      0 < noteToFrequency noteName octave /\
      noteToFrequency noteName octave < noteToFrequency noteName (octave + 1) /\
      Rabs (noteToFrequency noteName (octave + 1)
            - 2 * noteToFrequency noteName octave)
      <= noteToFrequency noteName octave / 10 ^ 9) /\
  noteToFrequency "A"%string 4 = 440.
Proof.
  split; [|split].
  - intros noteName octave Hn. unfold noteToFrequency.
    destruct (indexOf_range NOTE_NAMES noteName 0) as [[E _]|[_ Hin]];
      [rewrite E; reflexivity|contradiction].
  - intros noteName octave Hin.
    assert (Hf : forall o, noteToFrequency noteName o
                 = 440 * pow2 (IZR ((o + 1) * 12
                                    + indexOf NOTE_NAMES noteName 0 - 69) / 12)).
    { intros o. unfold noteToFrequency.
      destruct (indexOf_range NOTE_NAMES noteName 0) as [[_ Hn]|[Hi _]];
        [contradiction|].
      destruct (Z.eqb_spec (indexOf NOTE_NAMES noteName 0) (-1)) as [E|_]; [lia|].
      reflexivity. }
    assert (Hpos : 0 < noteToFrequency noteName octave).
    { rewrite Hf. pose proof (pow2_pos (IZR ((octave + 1) * 12
                              + indexOf NOTE_NAMES noteName 0 - 69) / 12)). lra. }
    assert (Hdouble : noteToFrequency noteName (octave + 1)
                      = 2 * noteToFrequency noteName octave).
    { rewrite !Hf.
      replace (IZR ((octave + 1 + 1) * 12 + indexOf NOTE_NAMES noteName 0 - 69) / 12)
        with (IZR ((octave + 1) * 12 + indexOf NOTE_NAMES noteName 0 - 69) / 12 + 1).
      - rewrite pow2_succ. ring.
      - replace ((octave + 1 + 1) * 12 + indexOf NOTE_NAMES noteName 0 - 69)%Z
          with ((octave + 1) * 12 + indexOf NOTE_NAMES noteName 0 - 69 + 12)%Z
          by lia.
        rewrite plus_IZR. field. }
    split; [apply Hf|]. split; [exact Hpos|]. split; [lra|].
    rewrite Hdouble.
    replace (2 * noteToFrequency noteName octave
             - 2 * noteToFrequency noteName octave) with 0 by ring.
    rewrite Rabs_R0. apply Rmult_le_pos; [lra|].
    left. apply Rinv_0_lt_compat. apply pow_lt. lra.
  - unfold noteToFrequency. cbn [indexOf NOTE_NAMES String.eqb Ascii.eqb Bool.eqb].
    cbn. unfold pow2. replace (0 / 12) with 0 by field.
    rewrite Rpower_O by lra. ring.
Qed.



(** X25: [frequencyToNote] recovers a note from the frequency
    [noteToFrequency] gives it: the same note name and octave, with a
    deviation of 0 cents. *)
Theorem X25_note_round_trip :
  forall (noteName0 : String.string) (octave0 : Z),
    In noteName0 NOTE_NAMES ->
    let note := frequencyToNote (noteToFrequency noteName0 octave0) in
    noteName note = noteName0 /\
    octave note = octave0 /\
    cents note = 0%Z.
Proof.
  intros noteName0 octave0 Hin note. subst note.
  destruct (In_NOTE_NAMES noteName0 Hin) as [i [Hi [Hname Hidx]]].
  assert (Hf : noteToFrequency noteName0 octave0
               = 440 * pow2 (IZR ((octave0 + 1) * 12 + i - 69) / 12)).
  { unfold noteToFrequency. rewrite Hidx.
    destruct (Z.eqb_spec i (-1)) as [E|_]; [lia|]. reflexivity. }
  rewrite Hf. unfold frequencyToNote. cbv zeta.
  cbn [cents noteName octave].
  set (m := ((octave0 + 1) * 12 + i)%Z).
  assert (Hs : 12 * log2 (440 * pow2 (IZR (m - 69) / 12) / 440) = IZR (m - 69)).
  { replace (440 * pow2 (IZR (m - 69) / 12) / 440)
      with (pow2 (IZR (m - 69) / 12)) by (field).
    rewrite log2_pow2. field. }
  rewrite Hs, round_IZR, noteIndex_mod, floor_div12.
  replace (69 + (m - 69))%Z with m by lia.
  assert (Hmod : (m mod 12 = i)%Z).
  { subst m. rewrite Z.add_comm, Z.mod_add by lia. apply Z.mod_small. exact Hi. }
  assert (Hdiv : (m / 12 = octave0 + 1)%Z).
  { subst m. rewrite Z.add_comm, Z.div_add by lia.
    rewrite Z.div_small by exact Hi. lia. }
  rewrite Hmod, Hdiv. split; [symmetry; exact Hname|]. split; [lia|].
  replace ((IZR (m - 69) - IZR (m - 69)) * 100) with (IZR 0) by (simpl; ring).
  apply round_IZR.
Qed.

Lemma X25_note_round_trip_witness :
  octave (frequencyToNote (noteToFrequency "F#"%string 3)) = 3%Z.
Proof.
  apply (X25_note_round_trip "F#"%string 3).
  unfold NOTE_NAMES. cbn [In]. do 6 right. left. reflexivity.
Defined.

End NoteMapperExtra.

(* ------------------------------------------------------------------ *)
(** ** Sweeps (sweepGenerator.ts) *)
(* ------------------------------------------------------------------ *)

Module SweepExtra.
Import JsR JsRFacts Loops LoopsFacts SweepGenerator.
Local Open Scope R_scope.

Lemma scaleAt_length data i gain : length (scaleAt data i gain) = length data.
Proof.
  unfold scaleAt.
  destruct ((0 <=? i) && (i <? Z.of_nat (length data)))%Z eqn:C; [|reflexivity].
  apply andb_true_iff in C. destruct C as [C1 C2].
  apply Z.leb_le in C1. apply Z.ltb_lt in C2.
  rewrite length_app. cbn [length]. rewrite length_firstn, length_skipn. lia.
Qed.

Lemma scaleAt_nth data i gain (j : nat) :
  nth j (scaleAt data i gain) 0
  = if ((0 <=? i) && (i <? Z.of_nat (length data))
        && (Z.of_nat j =? i))%Z
    then nth j data 0 * gain else nth j data 0.
Proof.
  unfold scaleAt.
  destruct ((0 <=? i) && (i <? Z.of_nat (length data)))%Z eqn:C;
    [|reflexivity].
  apply andb_true_iff in C. destruct C as [C1 C2].
  apply Z.leb_le in C1. apply Z.ltb_lt in C2. cbn [andb].
  assert (Hf : length (firstn (Z.to_nat i) data) = Z.to_nat i)
    by (rewrite length_firstn; lia).
  destruct (Z.eqb_spec (Z.of_nat j) i) as [E|Ne].
  - subst i. rewrite Nat2Z.id in *.
    rewrite app_nth2 by lia. rewrite Hf, Nat.sub_diag. reflexivity.
  - destruct (Nat.lt_ge_cases j (Z.to_nat i)) as [Hlt|Hge].
    + rewrite app_nth1 by lia. rewrite nth_firstn.
      replace (j <? Z.to_nat i)%nat with true
        by (symmetry; apply Nat.ltb_lt; exact Hlt).
      reflexivity.
    + rewrite app_nth2 by lia. rewrite Hf.
      destruct (j - Z.to_nat i)%nat as [|d] eqn:Ed; [lia|].
      cbn [nth]. rewrite nth_skipn. f_equal. lia.
Qed.

Lemma scaleAt_bounded data i gain (bound : R) :
  0 <= gain <= 1 ->
  (forall j, Rabs (nth j data 0) <= bound) ->
  forall j, Rabs (nth j (scaleAt data i gain) 0) <= bound.
Proof.
  intros Hg Hb j. rewrite scaleAt_nth.
  destruct (_ && _ && _)%bool; [|apply Hb].
  rewrite Rabs_mult. rewrite (Rabs_right gain) by lra.
  specialize (Hb j). pose proof (Rabs_pos (nth j data 0)). nra.
Qed.

Lemma scaleAt_zero data i gain (j : nat) :
  nth j data 0 = 0 -> nth j (scaleAt data i gain) 0 = 0.
Proof.
  intros H. rewrite scaleAt_nth, H. destruct (_ && _ && _)%bool; lra.
Qed.

Lemma zrange_cons lo hi :
  (lo < hi)%Z -> zrange lo hi = lo :: zrange (lo + 1) hi.
Proof.
  intros H. unfold zrange.
  replace (Z.to_nat (hi - lo)) with (S (Z.to_nat (hi - (lo + 1)))) by lia.
  cbn [seq map]. f_equal; [lia|].
  rewrite <- seq_shift, map_map. apply map_ext. intros k. lia.
Qed.

Section Fade.
Variable len fadeLength : Z.

Let fadeStep (data : list R) (i : Z) : list R :=
  let gain := IZR i / IZR fadeLength in
  let data := scaleAt data i gain in
  scaleAt data (len - 1 - i) gain.

Lemma fade_gain (i : Z) :
  (0 <= i < fadeLength)%Z -> 0 <= IZR i / IZR fadeLength <= 1.
Proof.
  intros Hi.
  assert (Hf : 0 < IZR fadeLength) by (apply IZR_lt; lia).
  assert (H0 : 0 <= IZR i) by (apply IZR_le; lia).
  assert (H1 : IZR i <= IZR fadeLength) by (apply IZR_le; lia).
  assert (Hinv : 0 < / IZR fadeLength) by (apply Rinv_0_lt_compat; exact Hf).
  unfold Rdiv. split; [nra|].
  apply Rmult_le_reg_r with (IZR fadeLength); [exact Hf|].
  rewrite Rmult_assoc, Rinv_l by lra. lra.
Qed.

Lemma fade_fold (bound : R) (idx : list Z) :
  (forall i, In i idx -> (0 <= i < fadeLength)%Z) ->
  forall data,
    (forall j, Rabs (nth j data 0) <= bound) ->
    let out := fold_left fadeStep idx data in
    length out = length data /\
    (forall j, Rabs (nth j out 0) <= bound) /\
    (forall j, nth j data 0 = 0 -> nth j out 0 = 0).
Proof.
  induction idx as [|i idx IH]; intros Hidx data Hb out; subst out.
  - cbn [fold_left]. split; [reflexivity|]. split; [exact Hb|tauto].
  - cbn [fold_left].
    pose proof (fade_gain i (Hidx i (or_introl eq_refl))) as Hg.
    destruct (IH (fun k Hk => Hidx k (or_intror Hk)) (fadeStep data i))
      as [H1 [H2 H3]].
    + intros j. unfold fadeStep. cbv zeta.
      apply scaleAt_bounded; [exact Hg|]. apply scaleAt_bounded; assumption.
    + split; [rewrite H1; unfold fadeStep; cbv zeta;
              rewrite !scaleAt_length; reflexivity|].
      split; [exact H2|]. intros j Hj. apply H3. unfold fadeStep. cbv zeta.
      apply scaleAt_zero. apply scaleAt_zero. exact Hj.
Qed.

End Fade.

Lemma rawSweep_facts (config : SweepConfig) (sampleRate : R) (len : Z) :
  length (rawSweep config sampleRate len) = Z.to_nat len /\
  (forall j, Rabs (nth j (rawSweep config sampleRate len) 0) <= 8 / 10) /\
  nth 0 (rawSweep config sampleRate len) 0 = 0.
Proof.
  unfold rawSweep. cbv zeta.
  set (f := fun i : Z => sin _ * (8 / 10)).
  assert (Hf : forall i, Rabs (f i) <= 8 / 10).
  { intros i. subst f. cbv beta. rewrite Rabs_mult.
    rewrite (Rabs_right (8 / 10)) by lra.
    match goal with |- Rabs (sin ?p) * _ <= _ =>
      pose proof (SIN_bound p) as Hs; assert (Rabs (sin p) <= 1)
        by (apply Rabs_le; lra)
    end. lra. }
  split; [|split].
  - rewrite length_map. unfold zrange. rewrite length_map, length_seq.
    f_equal. lia.
  - intros j. destruct (Nat.lt_ge_cases j (length (map f (zrange 0 len))))
      as [Hlt|Hge].
    + rewrite (nth_indep _ 0 (f 0%Z)) by exact Hlt. rewrite (map_nth f).
      apply Hf.
    + rewrite nth_overflow by exact Hge. rewrite Rabs_R0. lra.
  - destruct (Z_lt_le_dec 0 len) as [Hpos|Hle].
    + rewrite zrange_cons by exact Hpos. cbn [map nth]. subst f. cbv beta.
      replace (IZR 0 / sampleRate) with 0 by (unfold Rdiv; ring).
      unfold Rpower at 1. rewrite Rmult_0_l, exp_0.
      replace (1 - 1) with 0 by ring.
      rewrite Rmult_0_r. unfold Rdiv. rewrite Rmult_0_l, sin_0. ring.
    + rewrite zrange_empty by lia. reflexivity.
Qed.

(** X26: for a sweep of at least one sample, no sample that
    [generateLogSweep] writes exceeds, in absolute value, 0.8 as a
    [Float32Array] stores it (13421773 / 2^24 = 0.800000011920929; the
    model, which does not round, stays below 0.8); the first sample is
    0, and with a fade of at least one sample the last sample is 0 as
    well. *)
Theorem X26_log_sweep_is_bounded_and_starts_at_zero :
  forall (ctxSampleRate : R) (config : SweepConfig),
    let rate := match sampleRate config with
                | Some v => v
                | None => ctxSampleRate
                end in
    let len := floor (rate * durationSeconds config) in
    let fadeLength := floor (rate * (5 / 100)) in
    0 < rate -> 0 < durationSeconds config ->
    0 < startFreq config -> 0 < endFreq config ->
    startFreq config <> endFreq config ->
    (1 <= len)%Z ->
    let data := generateLogSweep ctxSampleRate config in
    (forall x, In x data -> Rabs x <= 13421773 / 16777216) /\
    nth 0 data 0 = 0 /\
    ((1 <= fadeLength)%Z -> nth (length data - 1) data 0 = 0).
Proof.
  intros ctx config rate len fadeLength _ _ _ _ _ Hlen data.
  subst data. unfold generateLogSweep. fold rate. fold len. fold fadeLength.
  destruct (rawSweep_facts config rate len) as [R1 [R2 R3]].
  set (raw := rawSweep config rate len) in *.
  destruct (fade_fold len fadeLength (8 / 10) (zrange 0 fadeLength))
    with (data := raw) as [H1 [H2 H3]].
  { intros i Hi. apply In_zrange in Hi. exact Hi. }
  { exact R2. }
  cbv zeta in H1, H2, H3.
  split; [|split].
  - intros x Hx. destruct (In_nth _ _ 0 Hx) as [j [_ <-]].
    eapply Rle_trans; [apply H2|]. lra.
  - apply H3. exact R3.
  - intros Hfade.
    match goal with
    | |- nth (length ?d - 1) _ _ = _ =>
        replace (length d) with (Z.to_nat len) by (rewrite H1, R1; reflexivity)
    end.
    replace (Z.to_nat len - 1)%nat with (Z.to_nat (len - 1)) by lia.
    rewrite zrange_cons by lia. cbn [fold_left].
    replace (IZR 0 / IZR fadeLength) with 0 by (unfold Rdiv; ring).
    replace (len - 1 - 0)%Z with (len - 1)%Z by lia.
    set (first := scaleAt (scaleAt raw 0 0) (len - 1) 0).
    assert (Hz : nth (Z.to_nat (len - 1)) first 0 = 0).
    { subst first. rewrite scaleAt_nth, scaleAt_length, R1.
      replace ((0 <=? len - 1) && (len - 1 <? Z.of_nat (Z.to_nat len))
               && (Z.of_nat (Z.to_nat (len - 1)) =? len - 1))%Z with true.
      - ring.
      - symmetry. rewrite !andb_true_iff.
        split; [split; [apply Z.leb_le|apply Z.ltb_lt]|apply Z.eqb_eq]; lia. }
    destruct (fade_fold len fadeLength (8 / 10) (zrange (0 + 1) fadeLength))
      with (data := first) as [_ [_ G3]].
    { intros i Hi. apply In_zrange in Hi. lia. }
    { intros j. subst first.
      apply scaleAt_bounded; [lra|]. apply scaleAt_bounded; [lra|exact R2]. }
    cbv zeta in G3. apply G3. exact Hz.
Qed.

Lemma X26_log_sweep_is_bounded_and_starts_at_zero_witness :
  nth 0 (generateLogSweep 44100
           {| startFreq := 20; endFreq := 20000; durationSeconds := 1;
              sampleRate := Some 100 |}) 0 = 0.
Proof.
  apply (X26_log_sweep_is_bounded_and_starts_at_zero 44100
           {| startFreq := 20; endFreq := 20000; durationSeconds := 1;
              sampleRate := Some 100 |}); cbn [sampleRate durationSeconds
                                              startFreq endFreq]; try lra.
  rewrite (floor_eq (100 * 1) 100) by lra. lia.
Defined.

Lemma maxAbs_fold (l : list R) :
  forall m0 : R,
    let r := fold_left
               (fun maxVal x => if ltb maxVal (Rabs x) then Rabs x else maxVal)
               l m0 in
    m0 <= r /\
    (forall x, In x l -> Rabs x <= r) /\
    (r = m0 \/ exists x, In x l /\ r = Rabs x).
Proof.
  induction l as [|x l IH]; intros m0 r; subst r.
  - cbn [fold_left]. split; [lra|]. split; [intros x []|left; reflexivity].
  - cbn [fold_left]. destruct (ltb m0 (Rabs x)) eqn:C.
    + apply Rltb_lt in C. destruct (IH (Rabs x)) as [H1 [H2 H3]].
      split; [lra|]. split.
      * intros y [<-|Hy]; [exact H1|apply H2; exact Hy].
      * right. destruct H3 as [E|[y [Hy E]]].
        -- exists x. split; [left; reflexivity|exact E].
        -- exists y. split; [right; exact Hy|exact E].
    + apply Rltb_ge in C. destruct (IH m0) as [H1 [H2 H3]].
      split; [exact H1|]. split.
      * intros y [<-|Hy]; [lra|apply H2; exact Hy].
      * destruct H3 as [E|[y [Hy E]]]; [left; exact E|].
        right. exists y. split; [right; exact Hy|exact E].
Qed.

Lemma maxAbs_spec (l : list R) :
  0 <= maxAbs l /\
  (forall x, In x l -> Rabs x <= maxAbs l) /\
  (maxAbs l = 0 \/ exists x, In x l /\ maxAbs l = Rabs x).
Proof. apply (maxAbs_fold l 0). Qed.

(** X27: [computeInverseFilter] returns as many samples as the sweep
    has; sample [i] is sample [length - 1 - i] of the sweep times
    [exp(-6 i / length)], divided by the largest absolute value of
    these products when that is positive.  So every output sample lies
    in [-1, 1]; a sweep with a non-zero sample gives an output that
    reaches 1 in absolute value, and a silent sweep gives silence. *)
Theorem X27_inverse_filter_is_normalised :
  forall data : list R,
    let out := computeInverseFilter data in
    let len := length data in
    let shaped := fun i : nat =>
                    nth (len - 1 - i) data 0 * exp (- (6 / INR len) * INR i) in
    length out = len /\
    (exists maxVal : R,
        0 <= maxVal /\
        (forall i, (i < len)%nat -> Rabs (shaped i) <= maxVal) /\
        forall i, (i < len)%nat ->
                  nth i out 0
                  = if ltb 0 maxVal then shaped i / maxVal else shaped i) /\
    (forall y, In y out -> Rabs y <= 1) /\
    ((exists x, In x data /\ x <> 0) -> exists y, In y out /\ Rabs y = 1) /\
    ((forall x, In x data -> x = 0) -> forall y, In y out -> y = 0).
Proof.
  intros data out len shaped. subst out. unfold computeInverseFilter.
  fold len.
  set (f := fun ix : nat * R =>
              let (i, x) := ix in x * exp (- (6 / INR len) * INR i)).
  set (inverse := map f (combine (seq 0 len) (rev data))).
  assert (Hlen : length inverse = len).
  { subst inverse. rewrite length_map, length_combine, length_seq, length_rev.
    subst len. lia. }
  assert (Hnth : forall i, (i < len)%nat -> nth i inverse 0 = shaped i).
  { intros i Hi. subst inverse.
    rewrite (nth_indep _ 0 (f (0%nat, 0)))
      by (rewrite length_map, length_combine, length_seq, length_rev;
          subst len; lia).
    rewrite (map_nth f).
    rewrite combine_nth by (rewrite length_seq, length_rev; reflexivity).
    rewrite seq_nth by exact Hi. rewrite rev_nth by exact Hi.
    subst f shaped. cbv beta iota. cbn [Nat.add].
    replace (length data - S i)%nat with (len - 1 - i)%nat by (subst len; lia).
    reflexivity. }
  assert (Hin : forall y, In y inverse -> exists i, (i < len)%nat /\ y = shaped i).
  { intros y Hy. destruct (In_nth _ _ 0 Hy) as [i [Hi E]].
    exists i. rewrite Hlen in Hi. split; [exact Hi|].
    rewrite <- E. apply Hnth. exact Hi. }
  destruct (maxAbs_spec inverse) as [H0 [Hmax Hex]].
  set (maxVal := maxAbs inverse) in *.
  assert (Hout : length (if ltb 0 maxVal
                         then map (fun x => x / maxVal) inverse else inverse)
                 = len).
  { destruct (ltb 0 maxVal); [rewrite length_map|]; exact Hlen. }
  split; [exact Hout|]. split; [|split; [|split]].
  - exists maxVal. split; [exact H0|]. split.
    + intros i Hi. rewrite <- Hnth by exact Hi. apply Hmax.
      apply nth_In. lia.
    + intros i Hi. destruct (ltb 0 maxVal).
      * rewrite (nth_indep _ 0 ((fun x => x / maxVal) 0))
          by (rewrite length_map; lia).
        rewrite (map_nth (fun x => x / maxVal)). rewrite Hnth by exact Hi.
        reflexivity.
      * apply Hnth. exact Hi.
  - intros y Hy. destruct (ltb 0 maxVal) eqn:C.
    + apply Rltb_lt in C. apply in_map_iff in Hy. destruct Hy as [x [<- Hx]].
      unfold Rdiv. rewrite Rabs_mult, Rabs_inv.
      rewrite (Rabs_right maxVal) by lra.
      apply Rmult_le_reg_r with maxVal; [exact C|].
      rewrite Rmult_assoc, Rinv_l by lra. specialize (Hmax x Hx). lra.
    + apply Rltb_ge in C. specialize (Hmax y Hy). lra.
  - intros [x [Hx Hnz]].
    assert (Hpos : 0 < maxVal).
    { destruct (In_nth _ _ 0 Hx) as [j [Hj Ej]]. fold len in Hj.
      assert (Hi : (len - 1 - j < len)%nat) by lia.
      assert (Hs : shaped (len - 1 - j)%nat <> 0).
      { subst shaped. cbv beta.
        replace (len - 1 - (len - 1 - j))%nat with j by lia. rewrite Ej.
        pose proof (exp_pos (- (6 / INR len) * INR (len - 1 - j))). nra. }
      assert (Hm : Rabs (shaped (len - 1 - j)%nat) <= maxVal).
      { rewrite <- Hnth by exact Hi. apply Hmax. apply nth_In. lia. }
      pose proof (Rabs_pos_lt _ Hs). lra. }
    destruct Hex as [E|[z [Hz E]]]; [lra|].
    assert (C : ltb 0 maxVal = true) by (apply Rltb_lt; exact Hpos).
    rewrite C. exists (z / maxVal). split.
    + apply in_map_iff. exists z. split; [reflexivity|exact Hz].
    + unfold Rdiv. rewrite Rabs_mult, Rabs_inv.
      rewrite (Rabs_right maxVal) by lra. rewrite <- E. field. lra.
  - intros Hz y Hy.
    assert (Hall : forall z, In z inverse -> z = 0).
    { intros z Hin0. destruct (Hin z Hin0) as [i [Hi ->]]. subst shaped.
      cbv beta. rewrite (Hz (nth (len - 1 - i) data 0)); [ring|].
      apply nth_In. subst len. lia. }
    destruct (ltb 0 maxVal) eqn:C.
    + apply in_map_iff in Hy. destruct Hy as [x [<- Hx]].
      rewrite (Hall x Hx). unfold Rdiv. ring.
    + apply Hall. exact Hy.
Qed.

End SweepExtra.

(* ------------------------------------------------------------------ *)
(** ** Overall room score (DiscoveryStepper.tsx) *)
(* ------------------------------------------------------------------ *)

Module DiscoveryExtra.
Import JsR JsRFacts DiscoveryStepper.
Local Open Scope R_scope.

Lemma round_between (x : R) (a b : Z) :
  IZR a <= x <= IZR b -> (a <= round x <= b)%Z.
Proof.
  intros [Ha Hb]. pose proof (round_near x) as [H1 H2].
  assert (G1 : IZR a - 1 < IZR (round x)) by lra.
  assert (G2 : IZR (round x) < IZR b + 1) by lra.
  rewrite <- minus_IZR in G1. rewrite <- plus_IZR in G2.
  apply lt_IZR in G1, G2. lia.
Qed.

Lemma noiseScore_range (rating : NoiseFloor.Rating) :
  5 <= noiseScore rating <= 25.
Proof. destruct rating; simpl; lra. Qed.

Lemma rt60Score_range (clapResults : list ImpulseCaptureResult) :
  0 <= rt60Score clapResults <= 25.
Proof.
  unfold rt60Score. split; [apply Rmax_l|].
  apply Rmax_lub; [lra|].
  pose proof (Rabs_pos (avgRT60 clapResults - 14 / 10)). lra.
Qed.

(** X28: the overall room score is a whole number between 50 and 100,
    so the final clamp to [0, 100] never changes it; it is 50 without
    measurements, at least 55 once the noise floor is known, and 100 for
    an excellent noise rating with an average RT60 of 1.4 s. *)
Theorem X28_overall_score_range :
  forall data : DiscoveryData,
    (50 <= computeOverallScore data <= 100)%Z /\
    (noiseFloor data = None -> clapResults data = [] ->
     computeOverallScore data = 50%Z) /\
    (noiseFloor data <> None -> (55 <= computeOverallScore data)%Z) /\
    (forall result,
        noiseFloor data = Some result ->
        NoiseFloor.rating result = NoiseFloor.excellent ->
        clapResults data <> [] ->
        avgRT60 (clapResults data) = 14 / 10 ->
        computeOverallScore data = 100%Z).
Proof.
  intros data. unfold computeOverallScore.
  pose proof (rt60Score_range (clapResults data)) as Hr.
  set (s1 := match noiseFloor data with
             | Some result => 50 + noiseScore (NoiseFloor.rating result)
             | None => 50
             end).
  set (s2 := if (0 <? Z.of_nat (length (clapResults data)))%Z
             then s1 + rt60Score (clapResults data) else s1).
  assert (H1 : 50 <= s1 <= 75).
  { subst s1. destruct (noiseFloor data) as [result|]; [|lra].
    pose proof (noiseScore_range (NoiseFloor.rating result)). lra. }
  assert (H2 : s1 <= s2 <= s1 + 25).
  { subst s2. destruct (0 <? Z.of_nat (length (clapResults data)))%Z; lra. }
  split; [|split; [|split]].
  - assert (G : (50 <= round s2 <= 100)%Z) by (apply round_between; lra). lia.
  - intros Hn Hc. subst s2 s1. rewrite Hn, Hc. cbn [length Z.of_nat Z.ltb Z.compare].
    rewrite (round_eq 50 50) by lra. reflexivity.
  - intros Hn.
    assert (H1' : 55 <= s1).
    { subst s1. destruct (noiseFloor data) as [result|]; [|congruence].
      pose proof (noiseScore_range (NoiseFloor.rating result)). lra. }
    assert (G : (55 <= round s2 <= 100)%Z) by (apply round_between; lra). lia.
  - intros result Hn He Hc Ha.
    assert (Es : s2 = 100).
    { subst s2 s1. rewrite Hn, He.
      destruct (clapResults data) as [|c rest] eqn:Ec; [congruence|].
      cbn [length]. 
      replace (0 <? Z.of_nat (S (length rest)))%Z with true
        by (symmetry; apply Z.ltb_lt; lia).
      unfold rt60Score. rewrite Ha.
      replace (14 / 10 - 14 / 10) with 0 by lra. rewrite Rabs_R0.
      rewrite Rmax_right by lra. cbn [noiseScore]. lra. }
    rewrite Es. rewrite (round_eq 100 100) by lra. reflexivity.
Qed.

End DiscoveryExtra.
